(** * ledradar: rain detection over a weather-radar raster

    A shallow embedding of [ledradar.go].  The program downloads a radar
    image every minute, projects a fixed list of cities onto it, averages
    the colour of a 9x9 neighbourhood around every city, and publishes the
    cities whose averaged colour is not black.

    Layout of the development:
    - [GoInt]: fixed-width integers of Go, with their wrap-around;
    - [color], [image], [draw]: the parts of Go's [image] packages the
      program calls, transcribed from the standard library;
    - [getAvgColor], the projection and the classification loop;
    - the rounding of [float64] subtraction and division, as far as the
      projection needs it;
    - the file system, the clock, [downloadRadar], one iteration of
      [BackgroundLoop], and [LoadCities];
    - an interleaving semantics of the read/write lock that guards the
      published list;
    - the theorems: facts about the embedding, the claims of the
      specification, and further properties of the program. *)

From Stdlib Require Import ZArith List Bool Lia Floats Ascii Zpower.
From stdpp Require Import gmap strings list fin_maps.

Set Warnings "-inexact-float".
Local Open Scope Z_scope.

(* ===================================================================== *)
(** ** Fixed-width integers *)
(* ===================================================================== *)

Module GoInt.

(** [uint8(z)]: the low eight bits. *)
Definition u8 (z : Z) : Z := z mod 256.

(** [uint32(z)]: the low thirty-two bits. *)
Definition u32 (z : Z) : Z := z mod 2 ^ 32.

Definition minInt64 : Z := - 2 ^ 63.
Definition maxInt64 : Z := 2 ^ 63 - 1.

(** [int] on a 64-bit platform: two's complement wrap-around. *)
Definition wrap64 (z : Z) : Z := (z + 2 ^ 63) mod 2 ^ 64 - 2 ^ 63.

Definition add64 (a b : Z) : Z := wrap64 (a + b).
Definition sub64 (a b : Z) : Z := wrap64 (a - b).

End GoInt.
Import GoInt.

(* ===================================================================== *)
(** ** [image/color] *)
(* ===================================================================== *)

Module color.

(** [color.NRGBA]: non-alpha-premultiplied 8-bit colour. *)
Record NRGBA := mkNRGBA { R : Z; G : Z; B : Z; A : Z }.

(** The zero value [color.NRGBA{}]. *)
Definition zero : NRGBA := mkNRGBA 0 0 0 0.

(** One channel of [func (c NRGBA) RGBA()]:
    [r = uint32(c.R); r |= r << 8; r *= uint32(c.A); r /= 0xff]. *)
Definition premul (c a : Z) : Z :=
  let r := u32 c in
  let r := u32 (Z.lor r (Z.shiftl r 8)) in
  let r := u32 (r * u32 a) in
  r / 255.

(** [func (c NRGBA) RGBA() (r, g, b, a uint32)]. *)
Definition RGBA (c : NRGBA) : Z * Z * Z * Z :=
  let a := u32 (A c) in
  (premul (R c) (A c), premul (G c) (A c), premul (B c) (A c),
   u32 (Z.lor a (Z.shiftl a 8))).

End color.

(* ===================================================================== *)
(** ** [image] *)
(* ===================================================================== *)

Module image.

Record Rectangle := mkRect { MinX : Z; MinY : Z; MaxX : Z; MaxY : Z }.

(** [image.Rect(x0, y0, x1, y1)]: the corners are put in order. *)
Definition Rect (x0 y0 x1 y1 : Z) : Rectangle :=
  let '(x0, x1) := if x1 <? x0 then (x1, x0) else (x0, x1) in
  let '(y0, y1) := if y1 <? y0 then (y1, y0) else (y0, y1) in
  mkRect x0 y0 x1 y1.

Definition Dx (r : Rectangle) : Z := sub64 (MaxX r) (MinX r).
Definition Dy (r : Rectangle) : Z := sub64 (MaxY r) (MinY r).

Definition Empty (r : Rectangle) : bool :=
  (MaxX r <=? MinX r) || (MaxY r <=? MinY r).

Definition ZR : Rectangle := mkRect 0 0 0 0.

(** [func (r Rectangle) Intersect(s Rectangle) Rectangle]. *)
Definition Intersect (r s : Rectangle) : Rectangle :=
  let r' := mkRect (Z.max (MinX r) (MinX s)) (Z.max (MinY r) (MinY s))
                   (Z.min (MaxX r) (MaxX s)) (Z.min (MaxY r) (MaxY s)) in
  if Empty r' then ZR else r'.

(** [func (r Rectangle) Add(p Point) Rectangle]. *)
Definition Add (r : Rectangle) (px py : Z) : Rectangle :=
  mkRect (add64 (MinX r) px) (add64 (MinY r) py)
         (add64 (MaxX r) px) (add64 (MaxY r) py).

(** [func (p Point) In(r Rectangle) bool]. *)
Definition PointIn (x y : Z) (r : Rectangle) : bool :=
  (MinX r <=? x) && (x <? MaxX r) && (MinY r <=? y) && (y <? MaxY r).

(** [image.NRGBA]: [Pix] holds the pixels in R, G, B, A order, [Stride]
    is the distance in bytes between vertically adjacent pixels. *)
Record NRGBA := mkImage { Pix : list Z; Stride : Z; Bounds : Rectangle }.

(** [func (p *NRGBA) PixOffset(x, y int) int]. *)
Definition PixOffset (p : NRGBA) (x y : Z) : Z :=
  (y - MinY (Bounds p)) * Stride p + (x - MinX (Bounds p)) * 4.

(** [p.Pix[i]]; [None] is the run-time panic of an index out of range. *)
Definition index (l : list Z) (i : Z) : option Z :=
  if i <? 0 then None else l !! Z.to_nat i.

(** [func (p *NRGBA) NRGBAAt(x, y int) color.NRGBA], which is what
    [At] returns: the zero colour outside the bounds, the four bytes at
    [PixOffset] inside. *)
Definition NRGBAAt (p : NRGBA) (x y : Z) : option color.NRGBA :=
  if negb (PointIn x y (Bounds p)) then Some color.zero
  else
    let i := PixOffset p x y in
    r ← index (Pix p) i;
    g ← index (Pix p) (i + 1);
    b ← index (Pix p) (i + 2);
    a ← index (Pix p) (i + 3);
    Some (color.mkNRGBA r g b a).

(** [p.Pix[i] = v]. *)
Definition store (l : list Z) (i : Z) (v : Z) : option (list Z) :=
  if i <? 0 then None
  else if (Z.to_nat i <? length l)%nat then Some (<[Z.to_nat i := v]> l)
  else None.

(** [func (p *NRGBA) SetRGBA64(x, y int, c color.RGBA64)] at an opaque
    colour: outside the bounds nothing happens, inside the four bytes
    become [r >> 8, g >> 8, b >> 8, a >> 8]. *)
Definition SetNRGBA (p : NRGBA) (x y : Z) (c : color.NRGBA) : option NRGBA :=
  if negb (PointIn x y (Bounds p)) then Some p
  else
    let i := PixOffset p x y in
    l ← store (Pix p) i (color.R c);
    l ← store l (i + 1) (color.G c);
    l ← store l (i + 2) (color.B c);
    l ← store l (i + 3) (color.A c);
    Some (mkImage l (Stride p) (Bounds p)).

(** The image [imaging.Clone] hands back: bounds at the origin, four
    bytes per pixel, rows stored one after the other. *)
Definition cloned (p : NRGBA) : Prop :=
  MinX (Bounds p) = 0 ∧ MinY (Bounds p) = 0 ∧
  0 ≤ MaxX (Bounds p) ∧ 0 ≤ MaxY (Bounds p) ∧
  Stride p = 4 * MaxX (Bounds p) ∧
  Z.of_nat (length (Pix p)) = 4 * MaxX (Bounds p) * MaxY (Bounds p) ∧
  4 * MaxX (Bounds p) * MaxY (Bounds p) < 2 ^ 62.

(** A [w] by [h] image filled with one colour. *)
Definition uniform (w h : Z) (c : color.NRGBA) : NRGBA :=
  mkImage (concat (replicate (Z.to_nat (w * h))
                     [color.R c; color.G c; color.B c; color.A c]))
          (4 * w) (mkRect 0 0 w h).

End image.

(* ===================================================================== *)
(** ** [image/draw] *)
(* ===================================================================== *)

Module draw.

(** Bounds of [image.Uniform]: [Rectangle{{-1e9, -1e9}, {1e9, 1e9}}]. *)
Definition uniformBounds : image.Rectangle :=
  image.mkRect (-1000000000) (-1000000000) 1000000000 1000000000.

(** [clip] of [draw.DrawMask] for a uniform source, no mask and the
    source point at the origin: the rectangle is cut to the bounds of
    the destination and to the bounds of the source moved to the
    rectangle's corner. *)
Definition clip (dst : image.NRGBA) (r : image.Rectangle) : image.Rectangle :=
  let orig_x := image.MinX r in
  let orig_y := image.MinY r in
  let r := image.Intersect r (image.Bounds dst) in
  image.Intersect r (image.Add uniformBounds orig_x orig_y).

(** One row of the fill: [for x := x0; x != x1; x++]. *)
Definition fillRow (c : color.NRGBA) (y : Z) (xs : list Z) (p : image.NRGBA)
  : option image.NRGBA :=
  foldl (λ acc x, p ← acc; image.SetNRGBA p x y c) (Some p) xs.

(** [draw.Draw(dst, r, &image.Uniform{c}, image.Point{}, draw.Src)] for
    an opaque colour [c]: every pixel of the clipped rectangle is set
    to [c]. *)
Definition Draw (dst : image.NRGBA) (r : image.Rectangle) (c : color.NRGBA)
  : option image.NRGBA :=
  let r := clip dst r in
  if image.Empty r then Some dst
  else
    let xs := seqZ (image.MinX r) (image.MaxX r - image.MinX r) in
    let ys := seqZ (image.MinY r) (image.MaxY r - image.MinY r) in
    foldl (λ acc y, p ← acc; fillRow c y xs p) (Some dst) ys.

End draw.

(* ===================================================================== *)
(** ** Sampling: [getAvgColor] *)
(* ===================================================================== *)

(** The values of [for xx := -4; xx <= 4; xx++]. *)
Definition window : list Z := seqZ (-4) 9.

(** The four accumulators [totalR, totalG, totalB, total]. *)
Definition totals : Type := Z * Z * Z * Z.

(** Body of the inner loop. *)
Definition addSample (bitmap : image.NRGBA) (x y xx yy : Z) (t : totals)
  : option totals :=
  let '(totalR, totalG, totalB, total) := t in
  c ← image.NRGBAAt bitmap (add64 x xx) (add64 y yy);
  let '(r, g, b, _) := color.RGBA c in
  Some (u32 (totalR + r / 257), u32 (totalG + g / 257),
        u32 (totalB + b / 257), u32 (total + 1)).

Definition sumColumn (bitmap : image.NRGBA) (x y xx : Z) (t : totals)
  : option totals :=
  foldl (λ acc yy, t ← acc; addSample bitmap x y xx yy t) (Some t) window.

Definition sumWindow (bitmap : image.NRGBA) (x y : Z) : option totals :=
  foldl (λ acc xx, t ← acc; sumColumn bitmap x y xx t) (Some (0, 0, 0, 0)) window.

(** [func getAvgColor(bitmap *image.NRGBA, x, y int) (uint8, uint8, uint8)];
    [None] stands for a run-time panic. *)
Definition getAvgColor (bitmap : image.NRGBA) (x y : Z) : option (Z * Z * Z) :=
  t ← sumWindow bitmap x y;
  let '(totalR, totalG, totalB, total) := t in
  Some (u8 (totalR / total), u8 (totalG / total), u8 (totalB / total)).

(** The test [r+g+b > 0] of [BackgroundLoop], on [uint8] operands. *)
Definition isRaining (r g b : Z) : bool := 0 <? u8 (u8 (r + g) + b).

(* ===================================================================== *)
(** ** [float64] and the projection *)
(* ===================================================================== *)

Module Float64.

(** Value of a finite float with the fraction discarded; [None] for
    infinities and NaN. *)
Definition truncSF (f : spec_float) : option Z :=
  match f with
  | S754_zero _ => Some 0
  | S754_finite s m e =>
      let v := Z.shiftl (Zpos m) e in Some (if s then - v else v)
  | _ => None
  end.


(** What [int(f)] yields when [f] has no [int] value.  The language
    leaves it to the implementation; this is the amd64 result. *)
Definition unrepresentable : Z := minInt64.

Definition clamp (o : option Z) : Z :=
  match o with
  | Some z => if (minInt64 <=? z) && (z <=? maxInt64) then z else unrepresentable
  | None => unrepresentable
  end.

(** The conversion [int(f)]: truncation towards zero. *)
Definition toInt (f : float) : Z := clamp (truncSF (Prim2SF f)).


(** The conversion [float64(n)] of an [int]. *)
Definition ofInt (n : Z) : float :=
  if n <? 0 then (- of_uint63 (Uint63.of_Z (- n)))%float
  else of_uint63 (Uint63.of_Z n).

End Float64.

(** The corners of the radar picture.  [lon0] and [lat0] are used as
    [float64] operands; [lon1 - lon0] and [lat0 - lat1] are constant
    expressions, evaluated exactly before they are converted. *)
Definition lon0 : float := 11.2673442.
Definition lat0 : float := 52.1670717.
Definition lon1 : float := 20.7703153.
Definition lat1 : float := 48.1.
Definition lon1_sub_lon0 : float := 9.5029711.
Definition lat0_sub_lat1 : float := 4.0670717.

Definition lonPixelSize (bitmap : image.NRGBA) : float :=
  (lon1_sub_lon0 / Float64.ofInt (image.Dx (image.Bounds bitmap)))%float.

Definition latPixelSize (bitmap : image.NRGBA) : float :=
  (lat0_sub_lat1 / Float64.ofInt (image.Dy (image.Bounds bitmap)))%float.

(** [x := int((city.Lon - lon0) / lonPixelSize)]. *)
Definition pixelX (lonPixelSize lon : float) : Z :=
  Float64.toInt ((lon - lon0) / lonPixelSize)%float.

(** [y := int((lat0 - city.Lat) / latPixelSize)]. *)
Definition pixelY (latPixelSize lat : float) : Z :=
  Float64.toInt ((lat0 - lat) / latPixelSize)%float.

(** The projection of a point on a raster [w] pixels wide and [h] high. *)
Definition project (w h : Z) (lat lon : float) : Z * Z :=
  (pixelX (lon1_sub_lon0 / Float64.ofInt w)%float lon,
   pixelY (lat0_sub_lat1 / Float64.ofInt h)%float lat).


(* ===================================================================== *)
(** ** The rounding of [float64] operations *)
(* ===================================================================== *)


(** A non-negative real is followed through the rounding as a "sticky"
    integer [t] at an exponent [e]: [t / 4] is the integer part of the
    real divided by [2 ^ e], the two low bits tell where the rest lies
    (0 nothing, 1 below one half, 2 one half, 3 above one half). *)

Definition code_loc (l : location) : Z :=
  match l with
  | loc_Exact => 0
  | loc_Inexact Lt => 1
  | loc_Inexact Eq => 2
  | loc_Inexact Gt => 3
  end.

Definition code_rec (mrs : shr_record) : Z :=
  4 * shr_m mrs + (if shr_r mrs then 2 else 0) + (if shr_s mrs then 1 else 0).

(** The sticky number at an exponent [n] higher. *)
Definition SH (t n : Z) : Z :=
  2 * (t / 2 ^ (n + 1)) + (if t mod 2 ^ (n + 1) =? 0 then 0 else 1).

(** Rounding to nearest, ties to even, of a sticky number. *)
Definition rne (t : Z) : Z :=
  t / 4 + (if (t mod 4 =? 3) || ((t mod 4 =? 2) && Z.odd (t / 4)) then 1 else 0).

(** The number of places the rounding drops. *)
Definition drop (m e : Z) : Z :=
  Z.max 0 (fexp prec emax (Zdigits2 m + e) - e).

(** The end of [binary_round_aux]: the rounded mantissa is put back in
    range and the overflow is detected. *)
Definition pack (m e : Z) : spec_float :=
  let '(mrs, e') := shr_fexp prec emax m e loc_Exact in
  match shr_m mrs with
  | Z0 => S754_zero false
  | Zpos m => if e' <=? emax - prec then S754_finite false m e' else S754_infinity false
  | Zneg _ => S754_nan
  end.

(** The float a sticky number at an exponent rounds to. *)
Definition round (t e : Z) : spec_float :=
  pack (rne (SH t (drop (t / 4) e))) (e + drop (t / 4) e).

(** The mantissa a sticky number rounds to, at the exponent it was given. *)
Definition weight (t e : Z) : Z :=
  rne (SH t (drop (t / 4) e)) * 2 ^ drop (t / 4) e.

(** The sticky number of [N / D]. *)
Definition TQ (N D : Z) : Z :=
  2 * (2 * N / D) + (if (2 * N) mod D =? 0 then 0 else 1).

(** The location [SFdiv_core_binary] computes from a remainder. *)
Definition code_rem (D r : Z) : Z :=
  if r =? 0 then 0 else if 2 * r <? D then 1 else if 2 * r =? D then 2 else 3.

(** The exponent [SFdiv_core_binary] divides at. *)
Definition div_exp (m1 e1 m2 e2 : Z) : Z :=
  Z.min (fexp prec emax (Zdigits2 m1 + e1 - (Zdigits2 m2 + e2))) (e1 - e2).

(** The value of a positive float, in units of [2 ^ -1074]. *)
Definition val (f : spec_float) : Z :=
  match f with
  | S754_finite false m e => Zpos m * 2 ^ (e + 1074)
  | _ => 0
  end.

(** The quotient the program computes for a point at the distance
    [delta], in units of [2 ^ -1074], from the edge, for the pixel
    size [P]. *)
Definition coord (P : spec_float) (delta : Z) : spec_float :=
  SF64div (round (4 * delta) (-1074)) P.

(** The sticky number of the quotient of a value by the pixel size. *)
Definition quot (mp : positive) (ep : Z) (v : Z) : Z :=
  TQ (v * 2 ^ (971 - ep)) (Zpos mp).

(** The farthest in-bounds point checked against a raster side [n]:
    the pixel size [p] is a positive float, and the quotient of the
    largest difference [far] by it is a float whose integer part is at
    most [n]. *)
Definition edge_ok (far p : float) (n : Z) : bool :=
  match Prim2SF p, Prim2SF (far / p) with
  | S754_finite false _ _, S754_finite false mq eq =>
      (eq <=? 918) && (Z.shiftl (Zpos mq) eq <=? n)
  | _, _ => false
  end.

(** The largest raster side the projection is verified for: up to it
    [float64] holds every side [n] and every [n + 1/2] exactly. *)
Definition maxSide : Z := 2 ^ 52 - 1.

Definition east_ok (n : Z) : bool :=
  edge_ok (lon1 - lon0) (lon1_sub_lon0 / Float64.ofInt n) n.

Definition south_ok (n : Z) : bool :=
  edge_ok (lat0 - lat1) (lat0_sub_lat1 / Float64.ofInt n) n.

(* ===================================================================== *)
(** ** Cities and the handler *)
(* ===================================================================== *)

Record City := mkCity {
  ID : Z; Name : string; Lat : float; Lon : float; R : Z; G : Z; B : Z }.

(** [Handler].  [Cities] is the list of the [City] objects in load order;
    a pointer [*City] is the position of its object in that list, so
    [CitiesWithRain], a slice of pointers, is a list of positions and both
    slices share the objects. *)
Record Handler := mkHandler { Cities : list City; CitiesWithRain : list nat }.

(** What [HandleGet] serialises: the objects [CitiesWithRain] points to. *)
Definition current (h : Handler) : list City :=
  omap (λ i, Cities h !! i) (CitiesWithRain h).

Definition setColor (c : City) (r g b : Z) : City :=
  mkCity (ID c) (Name c) (Lat c) (Lon c) r g b.

Definition marker (x y : Z) : image.Rectangle :=
  image.Rect (sub64 x 5) (sub64 y 5) (add64 x 5) (add64 y 5).

(** Body of [for _, city := range h.Cities] for the city at position [i]. *)
Definition visitCity (lonPx latPx : float) (st : image.NRGBA * Handler) (i : nat)
  : option (image.NRGBA * Handler) :=
  let '(bitmap, h) := st in
  city ← Cities h !! i;
  let x := pixelX lonPx (Lon city) in
  let y := pixelY latPx (Lat city) in
  '(r, g, b) ← getAvgColor bitmap x y;
  if isRaining r g b then
    bitmap ← draw.Draw bitmap (marker x y) (color.mkNRGBA r g b 255);
    Some (bitmap, mkHandler (<[i := setColor city r g b]> (Cities h))
                            (CitiesWithRain h ++ [i]))
  else
    bitmap ← draw.Draw bitmap (marker x y) (color.mkNRGBA 0 0 0 255);
    Some (bitmap, h).

Definition visitCities (lonPx latPx : float) (st : image.NRGBA * Handler)
  (ptrs : list nat) : option (image.NRGBA * Handler) :=
  foldl (λ acc i, st ← acc; visitCity lonPx latPx st i) (Some st) ptrs.

(** The section of [BackgroundLoop] that runs under the write lock, from
    [h.CitiesWithRain = []*City{}] to the end of the loop over the cities. *)
Definition classify (bitmap : image.NRGBA) (h : Handler)
  : option (image.NRGBA * Handler) :=
  visitCities (lonPixelSize bitmap) (latPixelSize bitmap)
    (bitmap, mkHandler (Cities h) [])
    (seq 0 (length (Cities h))).

(* ===================================================================== *)
(** ** The clock and the key of the ten-minute bucket *)
(* ===================================================================== *)

Module time.

(** A [time.Time] in UTC: the instant in nanoseconds, and the calendar
    fields [Format] prints. *)
Record Time := mkTime {
  unixNano : Z; year : Z; month : Z; day : Z; hour : Z; minute : Z }.

(** [time.Hour], a [Duration] in nanoseconds. *)
Definition Hour : Z := 3600 * 1000000000.
Definition Minute : Z := 60 * 1000000000.

(** [func (t Time) Sub(u Time) Duration], which saturates. *)
Definition Sub (t u : Z) : Z :=
  let d := t - u in
  if d <? minInt64 then minInt64
  else if maxInt64 <? d then maxInt64
  else d.

(** [time.Since(t)] when the clock reads [clock]. *)
Definition Since (clock t : Z) : Z := Sub clock t.

Definition digit (n : Z) : ascii := ascii_of_nat (48 + Z.to_nat (n mod 10)).

Fixpoint digits (fuel : nat) (n : Z) (acc : string) : string :=
  match fuel with
  | O => acc
  | S fuel =>
      let acc := String (digit n) acc in
      if n <? 10 then acc else digits fuel (n / 10) acc
  end.

Fixpoint zeros (n : nat) : string :=
  match n with O => EmptyString | S n => String "0"%char (zeros n) end.

(** [appendInt(b, x, width)]: decimal, padded with zeros to [width]. *)
Definition appendInt (x : Z) (width : nat) : string :=
  let d := digits 20 (Z.abs x) EmptyString in
  let padded := zeros (width - String.length d) +:+ d in
  if x <? 0 then String "-"%char padded else padded.

(** [t.Format("20060102.1504")]. *)
Definition Format (t : Time) : string :=
  appendInt (year t) 4 +:+ appendInt (month t) 2 +:+ appendInt (day t) 2
    +:+ "." +:+ appendInt (hour t) 2 +:+ appendInt (minute t) 2.

End time.

(** [dateTxt := formattedDate[:len(format)-1] + "0"], with
    [format = "20060102.1504"]. *)
Definition dateTxt (now : time.Time) : string :=
  String.substring 0 12 (time.Format now) +:+ "0".

(** [fmt.Sprintf("radar_a_mesta_%s.png", dateTxt)]. *)
Definition artifact (dateTxt : string) : string :=
  "radar_a_mesta_" +:+ dateTxt +:+ ".png".

(* ===================================================================== *)
(** ** The world one iteration runs in *)
(* ===================================================================== *)

Inductive logged :=
  | LogStarting
  | LogError (op : string) (name : string)
  | LogDeleting (name : string)
  | LogAlreadyExists
  | LogDownloading (dateTxt : string)
  | LogCannotDownloadFile (status : Z)
  | LogDownloaded
  | LogSkipping
  | LogNotRaining
  | LogFatal (op : string).

Inductive event :=
  | EvLog (m : logged)
  | EvRemove (name : string)
  | EvGet (dateTxt : string)
  | EvCreate (name : string).

(** The working directory maps a file name to its modification time; the
    handler is the shared state; the trace records what the process did. *)
Record world := mkWorld {
  files : gmap string Z;
  handler : Handler;
  trace : list event }.

Definition emit (e : event) (w : world) : world :=
  mkWorld (files w) (handler w) (trace w ++ [e]).

Definition setFiles (fs : gmap string Z) (w : world) : world :=
  mkWorld fs (handler w) (trace w).

Definition setHandler (h : Handler) (w : world) : world :=
  mkWorld (files w) h (trace w).

(** [*http.Response], as far as the program reads it. *)
Record Response := mkResponse { StatusCode : Z; Body : list Z }.

(** What the outside does during one iteration. *)
Record tick := mkTick {
  (** the entries [os.ReadDir(".")] returned *)
  dirEntries : list string;
  (** whether [file.Info()] fails for an entry *)
  infoFails : string → bool;
  (** whether [os.Remove] fails for an entry *)
  removeFails : string → bool;
  (** the clock when [time.Since] is called for an entry *)
  clockAt : string → Z;
  (** [time.Now().UTC()] *)
  now : time.Time;
  (** the two results of [http.Get]: the response, [None] for [nil],
      and whether the error is not [nil] *)
  getResp : option Response;
  getErr : bool;
  (** [imaging.Decode] followed by [imaging.Clone]; [None] is an error *)
  decode : list Z → option image.NRGBA;
  (** whether [os.Create] fails, and the modification time it leaves *)
  createFails : bool;
  createTime : Z;
  (** whether [imaging.Encode] fails *)
  encodeFails : bool }.

(** How a piece of the program ends: it returns, the process exits
    through [log.Fatal], or the process dies of a run-time panic. *)
Inductive result (A : Type) :=
  | Returns (a : A) (w : world)
  | Exits (w : world)
  | Panics (w : world).
Arguments Returns {A} a w.
Arguments Exits {A} w.
Arguments Panics {A} w.

(* ===================================================================== *)
(** ** The janitor *)
(* ===================================================================== *)

Definition artifactPrefix : string := "radar_a_mesta_".

(** [strings.HasPrefix(s, p)]. *)
Definition HasPrefix (s p : string) : bool := String.prefix p s.

(** Body of [for _, file := range files]. *)
Definition sweepEntry (t : tick) (w : world) (name : string) : world :=
  if negb (HasPrefix name artifactPrefix) then w
  else
    match (if infoFails t name then None else files w !! name) with
    | None => emit (EvLog (LogError "Info" name)) w
    | Some modTime =>
        if time.Since (clockAt t name) modTime <? time.Hour then w
        else
          let w := emit (EvLog (LogDeleting name)) w in
          let w := emit (EvRemove name) w in
          if removeFails t name || bool_decide (files w !! name = None)
          then emit (EvLog (LogError "Remove" name)) w
          else setFiles (delete name (files w)) w
    end.

(** The first part of an iteration: delete the old pictures. *)
Definition sweep (t : tick) (w : world) : world :=
  foldl (sweepEntry t) w (dirEntries t).

(* ===================================================================== *)
(** ** [downloadRadar] *)
(* ===================================================================== *)

(** [func downloadRadar(dateTxt string) []byte]; the result [None] is the
    [nil] slice.  In the branch taken on an error the status code is read
    through [resp], which is a nil pointer when the request failed. *)
Definition downloadRadar (t : tick) (dateTxt : string) (w : world)
  : result (option (list Z)) :=
  let w := emit (EvLog (LogDownloading dateTxt)) w in
  let w := emit (EvGet dateTxt) w in
  if getErr t || negb (bool_decide (StatusCode <$> getResp t = Some 200)) then
    match getResp t with
    | None => Panics w
    | Some resp =>
        Returns None (emit (EvLog (LogCannotDownloadFile (StatusCode resp))) w)
    end
  else
    match getResp t with
    | None => Panics w
    | Some resp => Returns (Some (Body resp)) (emit (EvLog LogDownloaded) w)
    end.

(* ===================================================================== *)
(** ** One iteration of [BackgroundLoop] *)
(* ===================================================================== *)

(** The function literal run by every iteration. *)
Definition cycle (t : tick) (w : world) : result unit :=
  let w := emit (EvLog LogStarting) w in
  let w := sweep t w in
  let dateTxt := dateTxt (now t) in
  let p := artifact dateTxt in
  if bool_decide (is_Some (files w !! p)) then
    Returns tt (emit (EvLog LogAlreadyExists) w)
  else
    match downloadRadar t dateTxt w with
    | Panics w => Panics w
    | Exits w => Exits w
    | Returns None w => Returns tt (emit (EvLog LogSkipping) w)
    | Returns (Some content) w =>
        match decode t content with
        | None => Exits (emit (EvLog (LogFatal "Decode")) w)
        | Some bitmap =>
            match classify bitmap (handler w) with
            | None => Panics w
            | Some (bitmap, h) =>
                let w := setHandler h w in
                let w := if bool_decide (CitiesWithRain h = [])
                         then emit (EvLog LogNotRaining) w else w in
                let w := emit (EvCreate p) w in
                if createFails t then Exits (emit (EvLog (LogFatal "Create")) w)
                else
                  let w := setFiles (<[p := createTime t]> (files w)) w in
                  if encodeFails t then Exits (emit (EvLog (LogFatal "Encode")) w)
                  else Returns tt w
            end
        end
    end.

(** [BackgroundLoop] over the iterations the outside drives: it goes on
    as long as the function literal returns. *)
Fixpoint BackgroundLoop (ts : list tick) (w : world) : result unit :=
  match ts with
  | [] => Returns tt w
  | t :: ts =>
      match cycle t w with
      | Returns _ w => BackgroundLoop ts w
      | r => r
      end
  end.

(** The world a piece of the program ends in. *)
Definition ending {A : Type} (r : result A) : world :=
  match r with Returns _ w | Exits w | Panics w => w end.

(** Number of requests sent to the radar server. *)
Definition isGet (e : event) : bool :=
  match e with EvGet _ => true | _ => false end.

Definition fetches (tr : list event) : nat := length (List.filter isGet tr).

(* ===================================================================== *)
(** ** [LoadCities] *)
(* ===================================================================== *)

(** What [os.Open] and [reader.ReadAll] hand to the loop: an error of
    one of the two, or the records of the file, each a list of fields. *)
Inductive csvFile :=
  | OpenFails
  | ReadAllFails
  | Records (records : list (list string)).

Section LoadCities.

(** [cast.ToInt] and [cast.ToFloat64] of [github.com/spf13/cast]. *)
Variables (ToInt : string → Z) (ToFloat64 : string → float).

(** [&City{ID: cast.ToInt(record[0]), Name: record[1],
    Lat: cast.ToFloat64(record[2]), Lon: cast.ToFloat64(record[3])}];
    [None] is the panic of an index out of range. *)
Definition newCity (record : list string) : option City :=
  id ← record !! 0%nat;
  name ← record !! 1%nat;
  lat ← record !! 2%nat;
  lon ← record !! 3%nat;
  Some (mkCity (ToInt id) name (ToFloat64 lat) (ToFloat64 lon) 0 0 0).

(** [for _, record := range records { ...; h.Cities = append(h.Cities, city) }]:
    the handler the loop ends with, and whether it ended in a panic. *)
Fixpoint loadRecords (records : list (list string)) (h : Handler) : Handler * bool :=
  match records with
  | [] => (h, false)
  | record :: records =>
      match newCity record with
      | None => (h, true)
      | Some city =>
          loadRecords records (mkHandler (Cities h ++ [city]) (CitiesWithRain h))
      end
  end.

(** [func (h *Handler) LoadCities()]. *)
Definition LoadCities (file : csvFile) (w : world) : result unit :=
  match file with
  | OpenFails => Exits (emit (EvLog (LogFatal "Open")) w)
  | ReadAllFails => Exits (emit (EvLog (LogFatal "ReadAll")) w)
  | Records records =>
      let '(h, panicked) := loadRecords records (handler w) in
      if panicked then Panics (setHandler h w) else Returns tt (setHandler h w)
  end.

End LoadCities.

(* ===================================================================== *)
(** ** The lock: the writer and the readers, interleaved *)
(* ===================================================================== *)

(** The handler together with its [sync.RWMutex]: whether the write lock
    is held, and how many read locks are. *)
Record shared := mkShared { hdl : Handler; writing : bool; reading : nat }.

(** Where the function literal of [BackgroundLoop] stands, from the
    moment the picture is decoded. *)
Inductive wpc :=
  (** about to call [h.m.Lock()] *)
  | WBefore (bitmap : image.NRGBA)
  (** holds the lock, about to run [h.CitiesWithRain = []*City{}] *)
  | WReset (bitmap : image.NRGBA)
  (** in the loop, the cities at [rest] still to visit *)
  | WLoop (lonPx latPx : float) (bitmap : image.NRGBA) (rest : list nat)
  (** picture written, the deferred [h.m.Unlock()] pending *)
  | WUnlock
  (** lock released *)
  | WDone
  (** the process died through [log.Fatal], which runs no deferred call:
      the lock stays held.  A panic in the loop is given the same end;
      on a cloned picture no visit panics. *)
  | WDead.

(** Where a call of [HandleGet] stands. *)
Inductive rpc :=
  (** about to call [h.m.RLock()] *)
  | RBefore
  (** holds a read lock, about to evaluate [h.CitiesWithRain] *)
  | RLocked
  (** encoding: the pointers at [rest] still to follow, [out] written *)
  | REncode (rest : list nat) (out : list City)
  (** returned, read lock released; the caller received [out] *)
  | RDone (out : list City).

Definition setHdl (h : Handler) (s : shared) : shared :=
  mkShared h (writing s) (reading s).

(** Steps of the writer. *)
Inductive wstep : shared * wpc → shared * wpc → Prop :=
  | w_lock s b :
      writing s = false → reading s = 0%nat →
      wstep (s, WBefore b) (mkShared (hdl s) true (reading s), WReset b)
  | w_reset s b :
      wstep (s, WReset b)
            (setHdl (mkHandler (Cities (hdl s)) []) s,
             WLoop (lonPixelSize b) (latPixelSize b) b
                   (seq 0 (length (Cities (hdl s)))))
  | w_visit s lonPx latPx b i rest b' h' :
      visitCity lonPx latPx (b, hdl s) i = Some (b', h') →
      wstep (s, WLoop lonPx latPx b (i :: rest))
            (setHdl h' s, WLoop lonPx latPx b' rest)
  | w_panic s lonPx latPx b i rest :
      visitCity lonPx latPx (b, hdl s) i = None →
      wstep (s, WLoop lonPx latPx b (i :: rest)) (s, WDead)
  | w_persist s lonPx latPx b :
      wstep (s, WLoop lonPx latPx b []) (s, WUnlock)
  | w_fatal s lonPx latPx b :
      wstep (s, WLoop lonPx latPx b []) (s, WDead)
  | w_unlock s :
      wstep (s, WUnlock) (mkShared (hdl s) false (reading s), WDone).

(** Steps of a reader. *)
Inductive rstep : shared * rpc → shared * rpc → Prop :=
  | r_lock s :
      writing s = false →
      rstep (s, RBefore) (mkShared (hdl s) (writing s) (S (reading s)), RLocked)
  | r_slice s :
      rstep (s, RLocked) (s, REncode (CitiesWithRain (hdl s)) [])
  | r_city s i rest out :
      rstep (s, REncode (i :: rest) out)
            (s, REncode rest (out ++ option_list (Cities (hdl s) !! i)))
  | r_unlock s out :
      rstep (s, REncode [] out)
            (mkShared (hdl s) (writing s) (pred (reading s)), RDone out).

(** The process: the shared state, the writer, the readers. *)
Definition config : Type := shared * wpc * list rpc.

Inductive step : config → config → Prop :=
  | step_writer s w rs s' w' :
      wstep (s, w) (s', w') → step (s, w, rs) (s', w', rs)
  | step_reader s w rs k r s' r' :
      rs !! k = Some r → rstep (s, r) (s', r') →
      step (s, w, rs) (s', w, <[k := r']> rs).

(** The writer has decoded [bitmap]; [n] requests are about to be served. *)
Definition init (h0 : Handler) (bitmap : image.NRGBA) (n : nat) : config :=
  (mkShared h0 false 0, WBefore bitmap, replicate n RBefore).

Definition wlocked (w : wpc) : bool :=
  match w with WBefore _ | WDone => false | _ => true end.

Definition rlocked (r : rpc) : bool :=
  match r with RLocked | REncode _ _ => true | _ => false end.

Definition locked_count (rs : list rpc) : nat :=
  length (List.filter rlocked rs).

(* ===================================================================== *)
(** ** Sample data *)
(* ===================================================================== *)

Module Sample.

(** A 9x9 picture of one colour. *)
Definition raster (c : color.NRGBA) : image.NRGBA := image.uniform 9 9 c.

(** Olive, [R = G = 128]: the channels add up to 256. *)
Definition olive : color.NRGBA := color.mkNRGBA 128 128 0 255.

(** A blue of the radar palette. *)
Definition blue : color.NRGBA := color.mkNRGBA 0 108 192 255.

(** A city that falls on the pixel (4, 4) of a 9x9 picture, and one far
    to the north-west of it. *)
Definition centre : City := mkCity 1 "Centre" 50.13 16.0 0 0 0.
Definition away : City := mkCity 2 "Away" 60.0 0.0 0 0 0.

Definition cities : Handler := mkHandler [centre; away] [].

Definition noon : time.Time := time.mkTime 1714566840000000000 2024 5 1 12 34.
Definition noon' : time.Time := time.mkTime 1714566900000000000 2024 5 1 12 35.

Definition start : world := mkWorld ∅ cities [].

(** An iteration in which nothing fails and the server sends [body]. *)
Definition quiet (at_ : time.Time) (resp : option Response) (err : bool)
    (pic : image.NRGBA) : tick :=
  mkTick [] (λ _, false) (λ _, false) (λ _, time.unixNano at_) at_
         resp err (λ _, Some pic) false (time.unixNano at_) false.

(** An iteration in which the picture cannot be written. *)
Definition diskFull (at_ : time.Time) (resp : option Response)
    (pic : image.NRGBA) : tick :=
  mkTick [] (λ _, false) (λ _, false) (λ _, time.unixNano at_) at_
         resp false (λ _, Some pic) true (time.unixNano at_) false.

Definition ok : option Response := Some (mkResponse 200 [137; 80; 78; 71]).
Definition notFound : option Response := Some (mkResponse 404 []).

(** Two iterations of one bucket, and the world between them. *)
Definition first : tick := quiet noon ok false (raster blue).
Definition second : tick := quiet noon' ok false (raster olive).

Definition afterFirst : world :=
  Eval vm_compute in
    match cycle first start with Returns _ w => w | _ => start end.

(** An old picture in the directory, and an iteration that lists it. *)
Definition oldName : string := "radar_a_mesta_20240501.1100.png".

Definition attic (modTime : Z) : world :=
  mkWorld {[ oldName := modTime ]} cities [].

Definition listing (clock : Z) (rmFails : bool) : tick :=
  mkTick [oldName] (λ _, false) (λ _, rmFails) (λ _, clock) noon
         notFound false (λ _, None) false clock false.


End Sample.

(** The bodies below are unfolded by name in the proofs, never by
    simplification. *)
Arguments image.NRGBAAt : simpl never.
Arguments image.SetNRGBA : simpl never.
Arguments draw.Draw : simpl never.
Arguments getAvgColor : simpl never.
Arguments sumWindow : simpl never.
Arguments isRaining : simpl never.
Arguments pixelX : simpl never.
Arguments pixelY : simpl never.
Arguments marker : simpl never.
Arguments visitCity : simpl never.
Arguments visitCities : simpl never.
Arguments classify : simpl never.
Arguments lonPixelSize : simpl never.
Arguments latPixelSize : simpl never.
Arguments dateTxt : simpl never.
Arguments artifact : simpl never.
Arguments sweep : simpl never.
Arguments sweepEntry : simpl never.
Arguments downloadRadar : simpl never.
Arguments cycle : simpl never.
Arguments time.Since : simpl never.
Arguments fetches : simpl never.

(* ===================================================================== *)
(** * Facts about the embedding *)
(* ===================================================================== *)

(** ** Loops that may panic *)

Section FoldOption.
Context {A B : Type} (f : A → B → option A) (P : A → Prop).

Lemma foldl_option_None (l : list B) :
  foldl (λ acc b, a ← acc; f a b) None l = None.
Proof. induction l as [|b l IH]; [done|]. simpl. exact IH. Qed.

(** A loop whose body keeps an invariant and never panics under it
    runs to its end and keeps the invariant. *)
Lemma foldl_option_inv (l : list B) (a : A) :
  (∀ a b, P a → b ∈ l → ∃ a', f a b = Some a' ∧ P a') →
  P a →
  ∃ a', foldl (λ acc b, a ← acc; f a b) (Some a) l = Some a' ∧ P a'.
Proof.
  revert a. induction l as [|b l IH]; intros a Hstep Ha.
  - exists a. done.
  - destruct (Hstep a b Ha) as (a1 & Hf & Ha1); [left|].
    simpl. rewrite Hf.
    apply IH; [|done].
    intros a2 b2 Ha2 Hin. apply Hstep; [done|by right].
Qed.

Lemma foldl_option_snoc (l : list B) (b : B) (o : option A) :
  foldl (λ acc b, a ← acc; f a b) o (l ++ [b])
  = (a ← foldl (λ acc b, a ← acc; f a b) o l; f a b).
Proof. by rewrite foldl_app. Qed.
End FoldOption.

(** ** Fixed-width integers *)


Lemma u8_small (z : Z) : 0 ≤ z < 256 → u8 z = z.
Proof. intros H. unfold u8. by apply Z.mod_small. Qed.

Lemma u32_small (z : Z) : 0 ≤ z < 2 ^ 32 → u32 z = z.
Proof. intros H. unfold u32. by apply Z.mod_small. Qed.

Lemma wrap64_small (z : Z) : - 2 ^ 63 ≤ z < 2 ^ 63 → wrap64 z = z.
Proof. intros H. unfold wrap64. rewrite Z.mod_small; lia. Qed.

Lemma wrap64_range (z : Z) : - 2 ^ 63 ≤ wrap64 z < 2 ^ 63.
Proof.
  unfold wrap64.
  pose proof (Z.mod_pos_bound (z + 2 ^ 63) (2 ^ 64)). lia.
Qed.

(** The [uint8] test is the integer test away from multiples of 256. *)
Lemma isRaining_mod (r g b : Z) :
  isRaining r g b = true ↔ (r + g + b) mod 256 ≠ 0.
Proof.
  unfold isRaining, u8.
  rewrite Zplus_mod_idemp_l.
  pose proof (Z.mod_pos_bound (r + g + b) 256).
  rewrite Z.ltb_lt. lia.
Qed.


(** ** Pixel access *)

Lemma PointIn_spec (x y : Z) (r : image.Rectangle) :
  image.PointIn x y r = true ↔
  image.MinX r ≤ x < image.MaxX r ∧ image.MinY r ≤ y < image.MaxY r.
Proof. unfold image.PointIn. rewrite !andb_true_iff. lia. Qed.

Lemma index_Some (l : list Z) (i : Z) :
  0 ≤ i < Z.of_nat (length l) → is_Some (image.index l i).
Proof.
  intros H. unfold image.index.
  destruct (i <? 0) eqn:E; [lia|].
  apply lookup_lt_is_Some. lia.
Qed.

Lemma store_Some (l : list Z) (i v : Z) :
  0 ≤ i < Z.of_nat (length l) →
  ∃ l', image.store l i v = Some l' ∧ length l' = length l.
Proof.
  intros H. unfold image.store.
  destruct (i <? 0) eqn:E; [lia|].
  destruct (Z.to_nat i <? length l)%nat eqn:E2.
  - eexists. split; [done|]. by rewrite length_insert.
  - apply Nat.ltb_ge in E2. lia.
Qed.

Lemma PixOffset_range (p : image.NRGBA) (x y : Z) :
  image.cloned p → image.PointIn x y (image.Bounds p) = true →
  0 ≤ image.PixOffset p x y ∧
  image.PixOffset p x y + 3 < Z.of_nat (length (image.Pix p)).
Proof.
  intros (Hx & Hy & Hw & Hh & Hs & Hl & _) Hin.
  apply PointIn_spec in Hin. unfold image.PixOffset.
  rewrite Hx, Hy, Hs, Hl in *. nia.
Qed.

(** Reading a pixel of a picture never panics. *)
Lemma NRGBAAt_total (p : image.NRGBA) (x y : Z) :
  image.cloned p → is_Some (image.NRGBAAt p x y).
Proof.
  intros Hp. unfold image.NRGBAAt.
  destruct (image.PointIn x y (image.Bounds p)) eqn:Hin; simpl; [|done].
  pose proof (PixOffset_range p x y Hp Hin) as [H0 H3].
  destruct (index_Some (image.Pix p) (image.PixOffset p x y)) as [r ->]; [lia|].
  destruct (index_Some (image.Pix p) (image.PixOffset p x y + 1)) as [g ->]; [lia|].
  destruct (index_Some (image.Pix p) (image.PixOffset p x y + 2)) as [b ->]; [lia|].
  destruct (index_Some (image.Pix p) (image.PixOffset p x y + 3)) as [a ->]; [lia|].
  done.
Qed.

(** Outside the bounds the colour read is the zero colour. *)
Lemma NRGBAAt_outside (p : image.NRGBA) (x y : Z) :
  image.PointIn x y (image.Bounds p) = false →
  image.NRGBAAt p x y = Some color.zero.
Proof. intros H. unfold image.NRGBAAt. by rewrite H. Qed.

(** Two pictures have the same shape. *)
Definition sameShape (p q : image.NRGBA) : Prop :=
  image.Bounds q = image.Bounds p ∧ image.Stride q = image.Stride p ∧
  length (image.Pix q) = length (image.Pix p).

Lemma sameShape_refl (p : image.NRGBA) : sameShape p p.
Proof. done. Qed.

Lemma sameShape_trans (p q r : image.NRGBA) :
  sameShape p q → sameShape q r → sameShape p r.
Proof. intros (?&?&?) (?&?&?). repeat split; congruence. Qed.

Lemma sameShape_cloned (p q : image.NRGBA) :
  sameShape p q → image.cloned p → image.cloned q.
Proof.
  intros (Hb & Hs & Hl). unfold image.cloned. rewrite Hb, Hs, Hl. done.
Qed.

Lemma SetNRGBA_total (p : image.NRGBA) (x y : Z) (c : color.NRGBA) :
  image.cloned p → ∃ q, image.SetNRGBA p x y c = Some q ∧ sameShape p q.
Proof.
  intros Hp. unfold image.SetNRGBA.
  destruct (image.PointIn x y (image.Bounds p)) eqn:Hin; simpl.
  2:{ exists p. done. }
  pose proof (PixOffset_range p x y Hp Hin) as [H0 H3].
  destruct (store_Some (image.Pix p) (image.PixOffset p x y) (color.R c))
    as (l1 & -> & E1); [lia|]. simpl.
  destruct (store_Some l1 (image.PixOffset p x y + 1) (color.G c))
    as (l2 & -> & E2); [lia|]. simpl.
  destruct (store_Some l2 (image.PixOffset p x y + 2) (color.B c))
    as (l3 & -> & E3); [lia|]. simpl.
  destruct (store_Some l3 (image.PixOffset p x y + 3) (color.A c))
    as (l4 & -> & E4); [lia|]. simpl.
  eexists. split; [done|]. repeat split; simpl. congruence.
Qed.

(** Drawing a marker never panics and keeps the shape of the picture. *)
Lemma Draw_total (p : image.NRGBA) (r : image.Rectangle) (c : color.NRGBA) :
  image.cloned p → ∃ q, draw.Draw p r c = Some q ∧ sameShape p q.
Proof.
  intros Hp. unfold draw.Draw.
  destruct (image.Empty (draw.clip p r)); [by exists p|].
  apply (foldl_option_inv _ (λ q, sameShape p q)); [|done].
  intros q y Hq _. unfold draw.fillRow.
  apply (foldl_option_inv _ (λ q, sameShape p q)); [|done].
  intros q' x Hq' _.
  destruct (SetNRGBA_total q' x y c) as (q'' & E & Hs).
  { by eapply sameShape_cloned. }
  exists q''. split; [done|]. by eapply sameShape_trans.
Qed.

(** ** Sampling *)

(** The whole 9x9 window around [(x, y)] lies outside the picture. *)
Definition outside (p : image.NRGBA) (x y : Z) : Prop :=
  ∀ xx yy, xx ∈ window → yy ∈ window →
    image.PointIn (add64 x xx) (add64 y yy) (image.Bounds p) = false.

Lemma addSample_total (p : image.NRGBA) (x y xx yy : Z) (t : totals) :
  image.cloned p → is_Some (addSample p x y xx yy t).
Proof.
  intros Hp. unfold addSample. destruct t as [[[tR tG] tB] n].
  destruct (NRGBAAt_total p (add64 x xx) (add64 y yy) Hp) as [c ->]. simpl.
  by destruct (color.RGBA c) as [[[r g] b] a].
Qed.

Lemma sumWindow_total (p : image.NRGBA) (x y : Z) :
  image.cloned p → ∃ t, sumWindow p x y = Some t.
Proof.
  intros Hp.
  destruct (foldl_option_inv (λ t xx, sumColumn p x y xx t) (λ _, True)
              window (0, 0, 0, 0)) as (t & E & _); [|done|by exists t].
  intros t xx _ _.
  destruct (foldl_option_inv (λ t yy, addSample p x y xx yy t) (λ _, True)
              window t) as (t' & E & _); [|done|by exists t'].
  intros t' yy _ _.
  destruct (addSample_total p x y xx yy t' Hp) as [t'' E]. by exists t''.
Qed.

(** [getAvgColor] returns on every picture and every coordinate. *)
Lemma getAvgColor_total (p : image.NRGBA) (x y : Z) :
  image.cloned p → ∃ r g b, getAvgColor p x y = Some (r, g, b).
Proof.
  intros Hp. unfold getAvgColor.
  destruct (sumWindow_total p x y Hp) as [[[[tR tG] tB] n] E]. rewrite E. simpl.
  by eexists _, _, _.
Qed.


Definition blackTotals (t : totals) : Prop :=
  let '(tR, tG, tB, _) := t in tR = 0 ∧ tG = 0 ∧ tB = 0.

Lemma addSample_outside (p : image.NRGBA) (x y xx yy : Z) (t : totals) :
  image.PointIn (add64 x xx) (add64 y yy) (image.Bounds p) = false →
  blackTotals t →
  ∃ t', addSample p x y xx yy t = Some t' ∧ blackTotals t'.
Proof.
  intros Hout Ht. unfold addSample. destruct t as [[[tR tG] tB] n].
  destruct Ht as (-> & -> & ->).
  rewrite (NRGBAAt_outside _ _ _ Hout). simpl.
  eexists. split; [done|]. done.
Qed.

Lemma sumWindow_outside (p : image.NRGBA) (x y : Z) :
  outside p x y → ∃ t, sumWindow p x y = Some t ∧ blackTotals t.
Proof.
  intros Hout.
  apply (foldl_option_inv (λ t xx, sumColumn p x y xx t) blackTotals); [|done].
  intros t xx Ht Hxx.
  apply (foldl_option_inv (λ t yy, addSample p x y xx yy t) blackTotals); [|done].
  intros t' yy Ht' Hyy. by apply addSample_outside; [apply Hout|].
Qed.

(** A window that misses the picture averages to black. *)
Lemma getAvgColor_outside (p : image.NRGBA) (x y : Z) :
  outside p x y → getAvgColor p x y = Some (0, 0, 0).
Proof.
  intros Hout. unfold getAvgColor.
  destruct (sumWindow_outside p x y Hout) as (t & E & Ht). rewrite E.
  destruct t as [[[tR tG] tB] n]. destruct Ht as (-> & -> & ->). done.
Qed.

(** ** The loop over the cities *)


Lemma visitCities_nil (lonPx latPx : float) (st : image.NRGBA * Handler) :
  visitCities lonPx latPx st [] = Some st.
Proof. done. Qed.

Lemma visitCities_cons (lonPx latPx : float) (st : image.NRGBA * Handler)
    (i : nat) (l : list nat) :
  visitCities lonPx latPx st (i :: l)
  = (st' ← visitCity lonPx latPx st i; visitCities lonPx latPx st' l).
Proof.
  unfold visitCities. cbn.
  destruct (visitCity lonPx latPx st i) as [st'|]; simpl; [done|].
  apply foldl_option_None.
Qed.

Lemma visitCities_app (lonPx latPx : float) (st : image.NRGBA * Handler)
    (l1 l2 : list nat) :
  visitCities lonPx latPx st (l1 ++ l2)
  = (st' ← visitCities lonPx latPx st l1; visitCities lonPx latPx st' l2).
Proof.
  revert st. induction l1 as [|i l1 IH]; intros st; [done|].
  rewrite <- app_comm_cons, !visitCities_cons.
  destruct (visitCity lonPx latPx st i) as [st'|]; simpl; [apply IH|done].
Qed.

(** What one visit does, read off the code. *)
Lemma visitCity_inv (lonPx latPx : float) (b b' : image.NRGBA) (h h' : Handler)
    (i : nat) :
  visitCity lonPx latPx (b, h) i = Some (b', h') →
  ∃ city r g v,
    Cities h !! i = Some city ∧
    getAvgColor b (pixelX lonPx (Lon city)) (pixelY latPx (Lat city))
      = Some (r, g, v) ∧
    h' = (if isRaining r g v
          then mkHandler (<[i := setColor city r g v]> (Cities h))
                         (CitiesWithRain h ++ [i])
          else h).
Proof.
  unfold visitCity. intros H.
  destruct (Cities h !! i) as [city|] eqn:Ec; [|done]. cbn in H.
  destruct (getAvgColor b _ _) as [[[r g] v]|] eqn:Eavg; [|done]. cbn in H.
  exists city, r, g, v. split; [done|]. split; [done|].
  destruct (isRaining r g v).
  - destruct (draw.Draw b _ _); [|done]. cbn in H. congruence.
  - destruct (draw.Draw b _ _); [|done]. cbn in H. congruence.
Qed.

(** A visit to a valid position of a picture never panics. *)
Lemma visitCity_total (lonPx latPx : float) (b : image.NRGBA) (h : Handler)
    (i : nat) :
  image.cloned b → (i < length (Cities h))%nat →
  ∃ b' h', visitCity lonPx latPx (b, h) i = Some (b', h') ∧
           sameShape b b' ∧ length (Cities h') = length (Cities h).
Proof.
  intros Hb Hi. unfold visitCity.
  destruct (lookup_lt_is_Some_2 (Cities h) i Hi) as [city ->]. cbn.
  destruct (getAvgColor_total b (pixelX lonPx (Lon city))
              (pixelY latPx (Lat city)) Hb) as (r & g & v & ->). cbn.
  destruct (isRaining r g v).
  - destruct (Draw_total b (marker (pixelX lonPx (Lon city))
                (pixelY latPx (Lat city))) (color.mkNRGBA r g v 255) Hb)
      as (b' & -> & Hs). cbn.
    eexists _, _. split; [done|]. split; [done|]. cbn. apply length_insert.
  - destruct (Draw_total b (marker (pixelX lonPx (Lon city))
                (pixelY latPx (Lat city))) (color.mkNRGBA 0 0 0 255) Hb)
      as (b' & -> & Hs). cbn.
    eexists _, _. done.
Qed.

Lemma visitCities_total (lonPx latPx : float) (l : list nat) (b : image.NRGBA)
    (h : Handler) :
  image.cloned b → (∀ i, i ∈ l → (i < length (Cities h))%nat) →
  ∃ b' h', visitCities lonPx latPx (b, h) l = Some (b', h') ∧
           sameShape b b' ∧ length (Cities h') = length (Cities h).
Proof.
  revert b h. induction l as [|i l IH]; intros b h Hb Hl.
  - by exists b, h.
  - destruct (visitCity_total lonPx latPx b h i Hb) as (b1 & h1 & E & Hs & Hlen).
    { apply Hl. left. }
    destruct (IH b1 h1) as (b2 & h2 & E2 & Hs2 & Hlen2).
    { by eapply sameShape_cloned. }
    { intros j Hj. rewrite Hlen. apply Hl. by right. }
    exists b2, h2. rewrite visitCities_cons, E. cbn.
    split; [done|]. split; [by eapply sameShape_trans|congruence].
Qed.

(** The locked section never panics on a picture. *)
Lemma classify_total (bitmap : image.NRGBA) (h : Handler) :
  image.cloned bitmap →
  ∃ b' h', classify bitmap h = Some (b', h') ∧ sameShape bitmap b'.
Proof.
  intros Hb. unfold classify.
  destruct (visitCities_total (lonPixelSize bitmap) (latPixelSize bitmap)
              (seq 0 (length (Cities h))) bitmap (mkHandler (Cities h) []) Hb)
    as (b' & h' & E & Hs & _).
  { intros i Hi. apply elem_of_seq in Hi. cbn. lia. }
  by exists b', h'.
Qed.




(** Visits to other positions leave a city and its membership alone. *)
Lemma visitCity_frame (lonPx latPx : float) (b b' : image.NRGBA) (h h' : Handler)
    (i j : nat) :
  visitCity lonPx latPx (b, h) j = Some (b', h') → i ≠ j →
  Cities h' !! i = Cities h !! i ∧ (i ∈ CitiesWithRain h' ↔ i ∈ CitiesWithRain h).
Proof.
  intros H Hne.
  destruct (visitCity_inv _ _ _ _ _ _ _ H) as (city & r & g & v & Ec & Eavg & ->).
  destruct (isRaining r g v); [|done]. cbn. split.
  - by apply list_lookup_insert_ne.
  - rewrite elem_of_app, list_elem_of_singleton.
    split; [intros [?|?]; [done|congruence]|by left].
Qed.

Lemma visitCities_frame (lonPx latPx : float) (l : list nat) (b b' : image.NRGBA)
    (h h' : Handler) (i : nat) :
  visitCities lonPx latPx (b, h) l = Some (b', h') → i ∉ l →
  Cities h' !! i = Cities h !! i ∧ (i ∈ CitiesWithRain h' ↔ i ∈ CitiesWithRain h).
Proof.
  revert b h. induction l as [|j l IH]; intros b h H Hni.
  - by injection H as <- <-.
  - rewrite visitCities_cons in H.
    destruct (visitCity lonPx latPx (b, h) j) as [[b1 h1]|] eqn:E; [|done].
    cbn in H. apply not_elem_of_cons in Hni as [Hne Hni].
    destruct (IH _ _ H Hni) as [E1 E2].
    destruct (visitCity_frame _ _ _ _ _ _ i j E Hne) as [E3 E4].
    split; [congruence|]. by rewrite E2.
Qed.

(** Membership in the published list is the verdict of the visit: the
    city at position [i] is a member exactly when the colour averaged on
    the picture as the loop found it at [i] passes the test, and then the
    city carries that colour. *)
Lemma classify_member (bitmap b' : image.NRGBA) (h h' : Handler) (i : nat)
    (city : City) :
  classify bitmap h = Some (b', h') →
  Cities h !! i = Some city →
  ∃ b_i h_i r g v,
    visitCities (lonPixelSize bitmap) (latPixelSize bitmap)
      (bitmap, mkHandler (Cities h) []) (seq 0 i) = Some (b_i, h_i) ∧
    getAvgColor b_i (pixelX (lonPixelSize bitmap) (Lon city))
                    (pixelY (latPixelSize bitmap) (Lat city)) = Some (r, g, v) ∧
    (i ∈ CitiesWithRain h' ↔ isRaining r g v = true) ∧
    (isRaining r g v = true → Cities h' !! i = Some (setColor city r g v)).
Proof.
  intros Hc Hi. unfold classify in Hc.
  pose proof (lookup_lt_Some _ _ _ Hi) as Hlt.
  replace (seq 0 (length (Cities h)))
    with (seq 0 i ++ i :: seq (S i) (length (Cities h) - S i)) in Hc.
  2:{ change (i :: seq (S i) (length (Cities h) - S i))
        with (seq i (S (length (Cities h) - S i))).
      rewrite <- seq_app. f_equal. lia. }
  rewrite visitCities_app in Hc.
  destruct (visitCities _ _ _ (seq 0 i)) as [[b_i h_i]|] eqn:Epre; [|done].
  cbn in Hc. rewrite visitCities_cons in Hc.
  destruct (visitCity _ _ (b_i, h_i) i) as [[b1 h1]|] eqn:Ei; [|done].
  cbn in Hc.
  destruct (visitCities_frame _ _ _ _ _ _ _ i Epre) as [Ecity Emem].
  { rewrite elem_of_seq. lia. }
  destruct (visitCities_frame _ _ _ _ _ _ _ i Hc) as [Ecity' Emem'].
  { rewrite elem_of_seq. lia. }
  cbn in Ecity, Emem.
  destruct (visitCity_inv _ _ _ _ _ _ _ Ei) as (c & r & g & v & Ec & Eavg & ->).
  rewrite Ecity, Hi in Ec. injection Ec as <-.
  exists b_i, h_i, r, g, v. split; [done|]. split; [done|].
  rewrite Emem', Ecity'.
  destruct (isRaining r g v) eqn:Erain; cbn.
  - split.
    + split; [done|]. intros _. apply elem_of_app. right. left.
    + intros _. apply list_lookup_insert_eq.
      apply lookup_lt_Some with city. congruence.
  - split; [|done]. rewrite Emem. split; [|done].
    intros Hin. by apply elem_of_nil in Hin.
Qed.

(** ** The janitor *)

(** The janitor removes [name]: it is a picture, its [Info] and its
    [Remove] succeed, and it is at least one hour old. *)
Definition doomed (t : tick) (fs : gmap string Z) (name : string) : bool :=
  HasPrefix name artifactPrefix && negb (infoFails t name) &&
  negb (removeFails t name) &&
  match fs !! name with
  | Some modTime => negb (time.Since (clockAt t name) modTime <? time.Hour)
  | None => false
  end.

(** Saturation does not change the comparison with one hour. *)
Lemma Since_lt_Hour (clock modTime : Z) :
  (time.Since clock modTime <? time.Hour) = (clock - modTime <? time.Hour).
Proof.
  unfold time.Since, time.Sub, time.Hour, minInt64, maxInt64.
  destruct (clock - modTime <? - 2 ^ 63) eqn:E1.
  { symmetry. apply Z.ltb_lt. apply Z.ltb_lt in E1. lia. }
  destruct (2 ^ 63 - 1 <? clock - modTime) eqn:E2; [|done].
  apply Z.ltb_lt in E2. transitivity false; [done|].
  symmetry. apply Z.ltb_ge. lia.
Qed.

Lemma doomed_ext (t : tick) (fs fs' : gmap string Z) (name : string) :
  fs !! name = fs' !! name → doomed t fs name = doomed t fs' name.
Proof. intros E. unfold doomed. by rewrite E. Qed.

Lemma sweepEntry_handler (t : tick) (w : world) (name : string) :
  handler (sweepEntry t w name) = handler w.
Proof.
  unfold sweepEntry.
  destruct (negb (HasPrefix name artifactPrefix)); [done|].
  destruct (if infoFails t name then None else files w !! name); [|done].
  destruct (_ <? _); [done|].
  destruct (_ || _); done.
Qed.

Lemma sweepEntry_files (t : tick) (w : world) (name : string) :
  files (sweepEntry t w name)
  = if doomed t (files w) name then delete name (files w) else files w.
Proof.
  unfold sweepEntry, doomed.
  destruct (HasPrefix name artifactPrefix); cbn; [|done].
  destruct (infoFails t name); cbn; [done|].
  destruct (files w !! name) as [modTime|] eqn:E; cbn.
  2:{ by rewrite andb_false_r. }
  destruct (_ <? _); cbn; [by rewrite andb_false_r|].
  rewrite andb_true_r.
  by destruct (removeFails t name).
Qed.

Lemma sweepEntry_trace (t : tick) (w : world) (name : string) :
  ∃ l, trace (sweepEntry t w name) = trace w ++ l ∧ fetches l = 0%nat.
Proof.
  unfold sweepEntry.
  destruct (negb (HasPrefix name artifactPrefix)).
  { exists []. by rewrite app_nil_r. }
  destruct (if infoFails t name then None else files w !! name).
  2:{ by eexists [_]. }
  destruct (_ <? _).
  { exists []. by rewrite app_nil_r. }
  destruct (_ || _); cbn; rewrite <- ?app_assoc; by eexists.
Qed.

Lemma foldl_sweepEntry_handler (t : tick) (l : list string) (w : world) :
  handler (foldl (sweepEntry t) w l) = handler w.
Proof.
  revert w. induction l as [|n l IH]; intros w; [done|].
  cbn. rewrite IH. apply sweepEntry_handler.
Qed.

Lemma foldl_sweepEntry_trace (t : tick) (l : list string) (w : world) :
  ∃ l', trace (foldl (sweepEntry t) w l) = trace w ++ l' ∧ fetches l' = 0%nat.
Proof.
  revert w. induction l as [|n l IH]; intros w.
  - exists []. by rewrite app_nil_r.
  - cbn. destruct (IH (sweepEntry t w n)) as (l2 & -> & F2).
    destruct (sweepEntry_trace t w n) as (l1 & -> & F1).
    exists (l1 ++ l2). rewrite app_assoc. split; [done|].
    unfold fetches in *. rewrite List.filter_app, length_app. lia.
Qed.

(** What the janitor leaves of the directory, file by file. *)
Lemma foldl_sweepEntry_lookup (t : tick) (l : list string) (w : world)
    (name : string) :
  files (foldl (sweepEntry t) w l) !! name
  = if doomed t (files w) name && bool_decide (name ∈ l) then None
    else files w !! name.
Proof.
  revert w. induction l as [|n l IH]; intros w.
  - cbn. by rewrite andb_false_r.
  - cbn. rewrite IH, sweepEntry_files.
    destruct (decide (name = n)) as [->|Hne].
    + rewrite (bool_decide_eq_true_2 (n ∈ n :: l)) by left.
      rewrite andb_true_r.
      destruct (doomed t (files w) n) eqn:Ed.
      * rewrite lookup_delete_eq.
        by destruct (doomed t (delete n (files w)) n && bool_decide (n ∈ l)).
      * rewrite Ed. done.
    + assert ((if doomed t (files w) n then delete n (files w) else files w)
                !! name = files w !! name) as E.
      { destruct (doomed t (files w) n); [by apply lookup_delete_ne|done]. }
      rewrite (doomed_ext t _ (files w) name E), E.
      replace (bool_decide (name ∈ n :: l)) with (bool_decide (name ∈ l)); [done|].
      apply bool_decide_ext. rewrite elem_of_cons.
      split; [by right|intros [?|?]; [congruence|done]].
Qed.

Lemma sweep_handler (t : tick) (w : world) : handler (sweep t w) = handler w.
Proof. apply foldl_sweepEntry_handler. Qed.

Lemma sweep_lookup (t : tick) (w : world) (name : string) :
  files (sweep t w) !! name
  = if doomed t (files w) name && bool_decide (name ∈ dirEntries t) then None
    else files w !! name.
Proof. apply foldl_sweepEntry_lookup. Qed.

Lemma sweep_fetches (t : tick) (w : world) :
  fetches (trace (sweep t w)) = fetches (trace w).
Proof.
  destruct (foldl_sweepEntry_trace t (dirEntries t) w) as (l & E & F).
  unfold sweep. rewrite E. unfold fetches in *.
  rewrite List.filter_app, length_app. lia.
Qed.

Lemma fetches_snoc (tr : list event) (e : event) :
  fetches (tr ++ [e]) = (fetches tr + (if isGet e then 1 else 0))%nat.
Proof.
  unfold fetches. rewrite List.filter_app, length_app. cbn. by destruct (isGet e).
Qed.

(** A failing [Remove] is logged and the sweep goes on. *)
Lemma foldl_sweepEntry_logs (t : tick) (l : list string) (w : world)
    (name : string) (modTime : Z) :
  name ∈ l →
  HasPrefix name artifactPrefix = true →
  infoFails t name = false →
  removeFails t name = true →
  files w !! name = Some modTime →
  time.Hour ≤ clockAt t name - modTime →
  EvLog (LogError "Remove" name) ∈ trace (foldl (sweepEntry t) w l).
Proof.
  intros Hin Hpre Hinfo Hrm. revert w.
  induction l as [|n l IH]; intros w Hf Hage; [by apply elem_of_nil in Hin|].
  cbn. destruct (decide (name = n)) as [<-|Hne].
  - destruct (foldl_sweepEntry_trace t l (sweepEntry t w name)) as (l' & -> & _).
    apply elem_of_app. left. unfold sweepEntry.
    rewrite Hpre, Hinfo, Hf. cbn.
    rewrite Since_lt_Hour. destruct (_ <? _) eqn:E; [apply Z.ltb_lt in E; lia|].
    rewrite Hrm. cbn. apply elem_of_app. right. left.
  - apply elem_of_cons in Hin as [?|Hin]; [done|].
    apply IH; [done| |done].
    rewrite sweepEntry_files.
    destruct (doomed t (files w) n); [by rewrite lookup_delete_ne|done].
Qed.

(** ** One iteration *)

(** The world after the janitor, as the cache check sees it. *)
Definition swept (t : tick) (w : world) : world :=
  sweep t (emit (EvLog LogStarting) w).

Lemma swept_handler (t : tick) (w : world) : handler (swept t w) = handler w.
Proof. unfold swept. by rewrite sweep_handler. Qed.

Lemma swept_lookup (t : tick) (w : world) (name : string) :
  files (swept t w) !! name
  = if doomed t (files w) name && bool_decide (name ∈ dirEntries t) then None
    else files w !! name.
Proof. unfold swept. by rewrite sweep_lookup. Qed.

Lemma swept_fetches (t : tick) (w : world) :
  fetches (trace (swept t w)) = fetches (trace w).
Proof.
  unfold swept. rewrite sweep_fetches. cbn [emit trace].
  rewrite fetches_snoc. cbn. lia.
Qed.

(** The artifact of the bucket is there: the iteration stops at once. *)
Lemma cycle_hit (t : tick) (w : world) :
  is_Some (files (swept t w) !! artifact (dateTxt (now t))) →
  cycle t w = Returns tt (emit (EvLog LogAlreadyExists) (swept t w)).
Proof.
  intros H. unfold cycle. fold (swept t w).
  by rewrite bool_decide_eq_true_2.
Qed.

(** The artifact is missing: the iteration goes through the download. *)
Lemma cycle_miss (t : tick) (w : world) :
  files (swept t w) !! artifact (dateTxt (now t)) = None →
  cycle t w =
    match downloadRadar t (dateTxt (now t)) (swept t w) with
    | Panics w => Panics w
    | Exits w => Exits w
    | Returns None w => Returns tt (emit (EvLog LogSkipping) w)
    | Returns (Some content) w =>
        match decode t content with
        | None => Exits (emit (EvLog (LogFatal "Decode")) w)
        | Some bitmap =>
            match classify bitmap (handler w) with
            | None => Panics w
            | Some (bitmap, h) =>
                let w := setHandler h w in
                let w := if bool_decide (CitiesWithRain h = [])
                         then emit (EvLog LogNotRaining) w else w in
                let w := emit (EvCreate (artifact (dateTxt (now t)))) w in
                if createFails t then Exits (emit (EvLog (LogFatal "Create")) w)
                else
                  let w := setFiles (<[artifact (dateTxt (now t)) := createTime t]>
                                       (files w)) w in
                  if encodeFails t then Exits (emit (EvLog (LogFatal "Encode")) w)
                  else Returns tt w
            end
        end
    end.
Proof.
  intros H. unfold cycle. fold (swept t w).
  rewrite bool_decide_eq_false_2; [done|].
  rewrite H. by intros [? ?].
Qed.

(** The three ways [downloadRadar] ends. *)
Lemma downloadRadar_nil (t : tick) (d : string) (w : world) :
  getResp t = None →
  downloadRadar t d w = Panics (emit (EvGet d) (emit (EvLog (LogDownloading d)) w)).
Proof. intros E. unfold downloadRadar. rewrite E. by destruct (_ || _). Qed.

Lemma downloadRadar_refused (t : tick) (d : string) (w : world) (resp : Response) :
  getResp t = Some resp → getErr t = true ∨ StatusCode resp ≠ 200 →
  downloadRadar t d w
  = Returns None (emit (EvLog (LogCannotDownloadFile (StatusCode resp)))
                   (emit (EvGet d) (emit (EvLog (LogDownloading d)) w))).
Proof.
  intros E H. unfold downloadRadar. rewrite E. cbn.
  destruct (getErr t); cbn; [done|].
  destruct H as [?|H]; [done|].
  rewrite bool_decide_eq_false_2; [done|]. congruence.
Qed.

Lemma downloadRadar_ok (t : tick) (d : string) (w : world) (resp : Response) :
  getResp t = Some resp → getErr t = false → StatusCode resp = 200 →
  downloadRadar t d w
  = Returns (Some (Body resp))
      (emit (EvLog LogDownloaded)
         (emit (EvGet d) (emit (EvLog (LogDownloading d)) w))).
Proof.
  intros E He Hs. unfold downloadRadar. rewrite E, He. cbn.
  rewrite bool_decide_eq_true_2; [done|]. congruence.
Qed.





Lemma visitCities_shape (lonPx latPx : float) (l : list nat) (b b' : image.NRGBA)
    (h h' : Handler) :
  image.cloned b →
  visitCities lonPx latPx (b, h) l = Some (b', h') → sameShape b b'.
Proof.
  revert b h. induction l as [|i l IH]; intros b h Hb H.
  - by injection H as <- <-.
  - rewrite visitCities_cons in H.
    destruct (visitCity lonPx latPx (b, h) i) as [[b1 h1]|] eqn:E; [|done].
    cbn in H.
    assert (sameShape b b1) as Hs.
    { destruct (visitCity_inv _ _ _ _ _ _ _ E) as (c & _ & _ & _ & Ec & _ & _).
      destruct (visitCity_total lonPx latPx b h i Hb) as (b2 & h2 & E2 & Hs & _).
      { by eapply lookup_lt_Some. }
      congruence. }
    eapply sameShape_trans; [done|].
    eapply IH; [|done]. by eapply sameShape_cloned.
Qed.

Lemma outside_shape (p q : image.NRGBA) (x y : Z) :
  sameShape p q → outside p x y → outside q x y.
Proof. intros (Hb & _ & _) H xx yy Hx Hy. rewrite Hb. by apply H. Qed.

(** ** Floating point: signs *)






(** ** Floating point: mantissas *)

Lemma digits2_pos_bounds (m : positive) :
  2 ^ (Zpos (digits2_pos m) - 1) ≤ Zpos m < 2 ^ Zpos (digits2_pos m).
Proof.
  induction m as [m IH|m IH|]; cbn [digits2_pos].
  - rewrite Pos2Z.inj_succ, Z.pow_succ_r by lia.
    replace (Z.succ (Zpos (digits2_pos m)) - 1) with (Zpos (digits2_pos m)) by lia.
    replace (Zpos (digits2_pos m)) with (Z.succ (Zpos (digits2_pos m) - 1)) at 1 by lia.
    rewrite Z.pow_succ_r by lia. lia.
  - rewrite Pos2Z.inj_succ, Z.pow_succ_r by lia.
    replace (Z.succ (Zpos (digits2_pos m)) - 1) with (Zpos (digits2_pos m)) by lia.
    replace (Zpos (digits2_pos m)) with (Z.succ (Zpos (digits2_pos m) - 1)) at 1 by lia.
    rewrite Z.pow_succ_r by lia. lia.
  - cbn. lia.
Qed.

(** A valid finite float: at most 53 digits, a canonical exponent. *)
Lemma valid_finite (s : bool) (m : positive) (e : Z) :
  valid_binary (S754_finite s m e) = true →
  emin ≤ e ≤ emax - prec ∧ Zpos m < 2 ^ 53 ∧ (emin < e → 2 ^ 52 ≤ Zpos m).
Proof.
  cbn. unfold bounded, canonical_mantissa, fexp, SpecFloat.emin, emax, prec.
  rewrite andb_true_iff, Z.eqb_eq, Z.leb_le. intros [Hc He].
  pose proof (digits2_pos_bounds m) as [Hlo Hhi].
  assert (Zpos (digits2_pos m) ≤ 53) as Hd by lia.
  split; [lia|]. split.
  - eapply Z.lt_le_trans; [exact Hhi|]. apply Z.pow_le_mono_r; lia.
  - intros Hn. assert (Zpos (digits2_pos m) = 53) as Hd' by lia.
    rewrite Hd' in Hlo. exact Hlo.
Qed.

Lemma shl_align_fst (m : positive) (e e' : Z) :
  e' ≤ e → Zpos (fst (shl_align m e e')) = Zpos m * 2 ^ (e - e').
Proof.
  intros H. unfold shl_align.
  destruct (e' - e) as [|d|d] eqn:E; [|lia|].
  - replace (e - e') with 0 by lia. cbn. lia.
  - cbn [fst]. change (Pos.iter xO m d) with (shift_pos d m).
    rewrite shift_pos_correct, Zpower_pos_nat, Zpower_nat_Z, positive_nat_Z.
    replace (e - e') with (Zpos d) by lia. lia.
Qed.

(** The order of two valid positive floats is the order of their
    mantissas once aligned. *)
Lemma aligned_le (mx my : positive) (ex ey : Z) (sx sy : bool) :
  valid_binary (S754_finite sx mx ex) = true →
  valid_binary (S754_finite sy my ey) = true →
  ey < ex ∨ (ey = ex ∧ Zpos my ≤ Zpos mx) →
  Zpos (fst (shl_align my ey (Z.min ex ey)))
  ≤ Zpos (fst (shl_align mx ex (Z.min ex ey))).
Proof.
  intros Hx Hy H.
  apply valid_finite in Hx as (Hex & Hmx & Hnx).
  apply valid_finite in Hy as (Hey & Hmy & Hny).
  rewrite !shl_align_fst by lia.
  destruct H as [Hlt|[-> Hle]].
  - rewrite Z.min_r by lia. replace (ey - ey) with 0 by lia.
    assert (2 ^ 1 ≤ 2 ^ (ex - ey)) by (apply Z.pow_le_mono_r; lia).
    specialize (Hnx ltac:(lia)). nia.
  - rewrite Z.min_id. replace (ex - ex) with 0 by lia. lia.
Qed.

Lemma compare_cont_le (m1 m2 : positive) :
  Pos.compare_cont Eq m1 m2 ≠ Gt → Zpos m1 ≤ Zpos m2.
Proof. intros H. apply Pos2Z.pos_le_pos. exact H. Qed.


(** ** Floating point: rounding *)

Lemma pow2_pos (n : Z) : 0 ≤ n → 0 < 2 ^ n.
Proof. intros. by apply Z.pow_pos_nonneg. Qed.

Lemma SH_0 (t : Z) : SH t 0 = t.
Proof.
  unfold SH. change (2 ^ (0 + 1)) with 2.
  pose proof (Z.div_mod t 2 ltac:(lia)). pose proof (Z.mod_pos_bound t 2 ltac:(lia)).
  destruct (t mod 2 =? 0) eqn:E; [apply Z.eqb_eq in E|apply Z.eqb_neq in E]; lia.
Qed.

Lemma SH_nonneg (t n : Z) : 0 ≤ t → 0 ≤ n → 0 ≤ SH t n.
Proof.
  intros Ht Hn. unfold SH.
  pose proof (pow2_pos (n + 1) ltac:(lia)).
  pose proof (Z.div_pos t (2 ^ (n + 1)) Ht ltac:(lia)).
  destruct (_ =? 0); lia.
Qed.

Lemma SH_mono (t t' n : Z) : 0 ≤ n → t ≤ t' → SH t n ≤ SH t' n.
Proof.
  intros Hn Hle. unfold SH.
  pose proof (pow2_pos (n + 1) ltac:(lia)) as Hp.
  pose proof (Z.div_mod t (2 ^ (n + 1)) ltac:(lia)).
  pose proof (Z.div_mod t' (2 ^ (n + 1)) ltac:(lia)).
  pose proof (Z.mod_pos_bound t (2 ^ (n + 1)) Hp).
  pose proof (Z.mod_pos_bound t' (2 ^ (n + 1)) Hp).
  pose proof (Z.div_le_mono t t' (2 ^ (n + 1)) Hp Hle).
  destruct (t mod _ =? 0) eqn:E; [apply Z.eqb_eq in E|apply Z.eqb_neq in E];
  destruct (t' mod _ =? 0) eqn:E'; [apply Z.eqb_eq in E'|apply Z.eqb_neq in E'| |];
    try lia; rewrite ?Z.eqb_eq, ?Z.eqb_neq in *; nia.
Qed.

(** Shifting twice is shifting once by the sum. *)
Lemma SH_SH (t n k : Z) : 0 ≤ n → 0 ≤ k → SH (SH t n) k = SH t (n + k).
Proof.
  intros Hn Hk. unfold SH.
  pose proof (pow2_pos (n + 1) ltac:(lia)) as Hp.
  pose proof (pow2_pos k ltac:(lia)) as Hpk.
  set (q := t / 2 ^ (n + 1)). set (r := t mod 2 ^ (n + 1)).
  set (b := if r =? 0 then 0 else 1).
  assert (0 ≤ b ≤ 1) as Hb by (unfold b; destruct (r =? 0); lia).
  replace (2 ^ (k + 1)) with (2 * 2 ^ k) by (rewrite Z.pow_add_r by lia; lia).
  replace (2 ^ (n + k + 1)) with (2 ^ (n + 1) * 2 ^ k)
    by (rewrite <- Z.pow_add_r by lia; f_equal; lia).
  assert ((2 * q + b) / (2 * 2 ^ k) = q / 2 ^ k) as ->.
  { rewrite <- Z.div_div by lia. f_equal.
    symmetry. apply (Z.div_unique _ _ _ b); lia. }
  rewrite <- (Z.div_div t) by lia. fold q.
  assert ((2 * q + b) mod (2 * 2 ^ k) = 2 * (q mod 2 ^ k) + b) as ->.
  { rewrite Z.rem_mul_r by lia.
    replace ((2 * q + b) / 2) with q by (apply (Z.div_unique _ _ _ b); lia).
    replace ((2 * q + b) mod 2) with b
      by (apply (Z.mod_unique _ _ q); lia). lia. }
  rewrite (Z.rem_mul_r t) by lia. fold q r.
  pose proof (Z.mod_pos_bound q (2 ^ k) Hpk).
  pose proof (Z.mod_pos_bound t (2 ^ (n + 1)) Hp) as Hr. fold r in Hr.
  f_equal.
  destruct (2 * (q mod 2 ^ k) + b =? 0) eqn:E1;
    destruct (r + 2 ^ (n + 1) * (q mod 2 ^ k) =? 0) eqn:E2;
    rewrite ?Z.eqb_eq, ?Z.eqb_neq in *; try done.
  - exfalso. apply E2. assert (b = 0) by lia.
    unfold b in *. destruct (r =? 0) eqn:E3; [|lia].
    apply Z.eqb_eq in E3. nia.
  - exfalso. apply E1. assert (r = 0) by nia. assert (q mod 2 ^ k = 0) by nia.
    unfold b. rewrite (proj2 (Z.eqb_eq r 0)) by done. lia.
Qed.

Lemma rne_mono (t t' : Z) : t ≤ t' → rne t ≤ rne t'.
Proof.
  intros Hle. unfold rne.
  pose proof (Z.div_mod t 4 ltac:(lia)). pose proof (Z.div_mod t' 4 ltac:(lia)).
  pose proof (Z.mod_pos_bound t 4 ltac:(lia)).
  pose proof (Z.mod_pos_bound t' 4 ltac:(lia)).
  pose proof (Z.div_le_mono t t' 4 ltac:(lia) Hle).
  destruct (Z.eq_dec (t / 4) (t' / 4)) as [Eq|Ne].
  - rewrite Eq.
    destruct (t mod 4 =? 3) eqn:A; destruct (t' mod 4 =? 3) eqn:A';
    destruct (t mod 4 =? 2) eqn:B; destruct (t' mod 4 =? 2) eqn:B';
    destruct (Z.odd (t' / 4)); cbn;
    rewrite ?Z.eqb_eq, ?Z.eqb_neq in *; lia.
  - destruct (_ || _); destruct (_ || _); lia.
Qed.

Lemma rne_bounds (t : Z) : t / 4 ≤ rne t ≤ t / 4 + 1.
Proof. unfold rne. destruct (_ || _); lia. Qed.

Lemma rne_exact (m : Z) : rne (4 * m) = m.
Proof.
  unfold rne. rewrite (Z.mul_comm 4 m), Z.div_mul, Z.mod_mul by lia.
  cbn. lia.
Qed.

(** *** The rounding of [SpecFloat], on sticky numbers *)

Lemma code_rec_of_loc (m : Z) (l : location) :
  code_rec (shr_record_of_loc m l) = 4 * m + code_loc l.
Proof. destruct l as [|[]]; unfold code_rec; cbn [shr_record_of_loc shr_m shr_r shr_s code_loc]; lia. Qed.

Lemma shr_m_of_loc (m : Z) (l : location) : shr_m (shr_record_of_loc m l) = m.
Proof. by destruct l as [|[]]. Qed.

Lemma code_rec_div (mrs : shr_record) : code_rec mrs / 4 = shr_m mrs.
Proof.
  unfold code_rec. symmetry.
  apply (Z.div_unique _ _ _ ((if shr_r mrs then 2 else 0) + (if shr_s mrs then 1 else 0)));
    destruct (shr_r mrs), (shr_s mrs); lia.
Qed.

Lemma round_nearest_even_rne (mrs : shr_record) :
  round_nearest_even (shr_m mrs) (loc_of_shr_record mrs) = rne (code_rec mrs).
Proof.
  unfold rne. rewrite code_rec_div.
  assert (code_rec mrs mod 4
          = (if shr_r mrs then 2 else 0) + (if shr_s mrs then 1 else 0)) as ->.
  { unfold code_rec. symmetry. apply (Z.mod_unique _ _ (shr_m mrs));
      destruct (shr_r mrs), (shr_s mrs); lia. }
  destruct mrs as [m [] []]; cbn [shr_r shr_s shr_m loc_of_shr_record round_nearest_even].
  - change (2 + 1 =? 3) with true. done.
  - change (2 + 0 =? 3) with false. change (2 + 0 =? 2) with true.
    cbn [orb andb]. destruct m as [|[p|p|]|[p|p|]]; cbn [Z.odd]; try reflexivity; lia.
  - change (0 + 1 =? 3) with false. change (0 + 1 =? 2) with false.
    cbn [orb andb]. lia.
  - change (0 + 0 =? 3) with false. change (0 + 0 =? 2) with false.
    cbn [orb andb]. lia.
Qed.

Lemma shr_1_code (mrs : shr_record) :
  0 ≤ shr_m mrs →
  0 ≤ shr_m (shr_1 mrs) ∧ code_rec (shr_1 mrs) = SH (code_rec mrs) 1.
Proof.
  destruct mrs as [m r s]. cbn [shr_m]. intros Hm.
  set (c := (if r then 2 else 0) + (if s then 1 else 0)).
  assert (0 ≤ c < 4) as Hc by (unfold c; destruct r, s; lia).
  assert (code_rec {| shr_m := m; shr_r := r; shr_s := s |} = 4 * m + c) as ->
    by (unfold code_rec, c; cbn [shr_m shr_r shr_s]; lia).
  unfold SH. change (2 ^ (1 + 1)) with 4.
  replace ((4 * m + c) / 4) with m by (apply (Z.div_unique _ _ _ c); lia).
  replace ((4 * m + c) mod 4) with c by (apply (Z.mod_unique _ _ m); lia).
  destruct (c =? 0) eqn:E; [apply Z.eqb_eq in E|apply Z.eqb_neq in E];
    unfold c in *; clear c;
    destruct m as [|[p|p|]|p]; try lia; unfold code_rec;
    cbn [shr_1 shr_m shr_r shr_s orb]; destruct r, s; cbn [orb] in *; lia.
Qed.

Lemma iter_shr_1_code (p : positive) (mrs : shr_record) :
  0 ≤ shr_m mrs →
  0 ≤ shr_m (SpecFloat.iter_pos shr_1 p mrs) ∧
  code_rec (SpecFloat.iter_pos shr_1 p mrs) = SH (code_rec mrs) (Zpos p).
Proof.
  revert mrs. induction p as [p IH|p IH|]; intros mrs Hm; cbn [SpecFloat.iter_pos].
  - destruct (shr_1_code mrs Hm) as [H1 E1].
    destruct (IH _ H1) as [H2 E2]. destruct (IH _ H2) as [H3 E3].
    split; [done|]. rewrite E3, E2, E1, !SH_SH by lia. f_equal. lia.
  - destruct (IH _ Hm) as [H2 E2]. destruct (IH _ H2) as [H3 E3].
    split; [done|]. rewrite E3, E2, !SH_SH by lia. f_equal. lia.
  - apply shr_1_code. done.
Qed.

Lemma shr_fexp_code (m e : Z) (l : location) :
  0 ≤ m →
  ∃ mrs, shr_fexp prec emax m e l = (mrs, e + drop m e) ∧
         0 ≤ shr_m mrs ∧
         code_rec mrs = SH (4 * m + code_loc l) (drop m e).
Proof.
  intros Hm. unfold shr_fexp, shr, drop.
  destruct (fexp prec emax (Zdigits2 m + e) - e) as [|p|p] eqn:E.
  - exists (shr_record_of_loc m l).
    rewrite shr_m_of_loc, code_rec_of_loc.
    change (Z.max 0 0) with 0. rewrite Z.add_0_r, SH_0. done.
  - destruct (iter_shr_1_code p (shr_record_of_loc m l)) as [H1 E1].
    { by rewrite shr_m_of_loc. }
    exists (SpecFloat.iter_pos shr_1 p (shr_record_of_loc m l)).
    rewrite Z.max_r by lia. split; [done|].
    split; [done|]. rewrite E1, code_rec_of_loc. done.
  - exists (shr_record_of_loc m l).
    rewrite shr_m_of_loc, code_rec_of_loc, Z.max_l, Z.add_0_r, SH_0 by lia. done.
Qed.

(** [binary_round_aux] on a sticky number. *)
Lemma binary_round_aux_pack (m e : Z) (l : location) :
  0 ≤ m →
  binary_round_aux prec emax false m e l
  = pack (rne (SH (4 * m + code_loc l) (drop m e))) (e + drop m e).
Proof.
  intros Hm. unfold binary_round_aux.
  destruct (shr_fexp_code m e l Hm) as (mrs & -> & _ & Ec).
  rewrite round_nearest_even_rne, Ec. done.
Qed.

(** *** Digits *)

Lemma Zdigits2_nonneg (m : Z) : 0 ≤ Zdigits2 m.
Proof. destruct m; cbn; lia. Qed.

Lemma Zdigits2_bounds (m : Z) :
  0 < m → 2 ^ (Zdigits2 m - 1) ≤ m < 2 ^ Zdigits2 m.
Proof. destruct m as [|p|p]; try lia. intros _. apply digits2_pos_bounds. Qed.

Lemma Zdigits2_unique (m d : Z) :
  2 ^ (d - 1) ≤ m < 2 ^ d → 0 < m → Zdigits2 m = d.
Proof.
  intros [Hlo Hhi] Hm.
  pose proof (Zdigits2_bounds m Hm) as [Hlo' Hhi'].
  pose proof (Zdigits2_nonneg m).
  assert (0 < d).
  { destruct (Z_lt_le_dec 0 d); [done|].
    assert (2 ^ d ≤ 2 ^ 0) by (apply Z.pow_le_mono_r; lia).
    destruct (Z_lt_le_dec d 0); [rewrite Z.pow_neg_r in Hhi by lia|]; lia. }
  destruct (Z_lt_le_dec (Zdigits2 m) d).
  - assert (2 ^ Zdigits2 m ≤ 2 ^ (d - 1)) by (apply Z.pow_le_mono_r; lia). lia.
  - destruct (Z_lt_le_dec d (Zdigits2 m)); [|lia].
    assert (2 ^ d ≤ 2 ^ (Zdigits2 m - 1)) by (apply Z.pow_le_mono_r; lia). lia.
Qed.

Lemma Zdigits2_mono (m m' : Z) : 0 ≤ m ≤ m' → Zdigits2 m ≤ Zdigits2 m'.
Proof.
  intros [H0 Hle].
  destruct (Z.eq_dec m 0) as [->|Hne]; [apply Zdigits2_nonneg|].
  pose proof (Zdigits2_bounds m ltac:(lia)) as [Hlo _].
  pose proof (Zdigits2_bounds m' ltac:(lia)) as [_ Hhi].
  destruct (Z_lt_le_dec (Zdigits2 m') (Zdigits2 m)); [|lia].
  pose proof (Zdigits2_nonneg m').
  assert (2 ^ Zdigits2 m' ≤ 2 ^ (Zdigits2 m - 1)) by (apply Z.pow_le_mono_r; lia).
  lia.
Qed.

(** Dropping [k] low bits of a number that keeps a bit takes [k] digits. *)
Lemma Zdigits2_div (m k : Z) :
  0 ≤ k → 0 < m / 2 ^ k → Zdigits2 (m / 2 ^ k) = Zdigits2 m - k.
Proof.
  intros Hk Hq.
  pose proof (pow2_pos k Hk) as Hp.
  assert (0 < m) as Hm.
  { destruct (Z_lt_le_dec 0 m); [done|].
    assert (m / 2 ^ k ≤ 0 / 2 ^ k) by (apply Z.div_le_mono; lia).
    rewrite Z.div_0_l in * by lia. lia. }
  pose proof (Zdigits2_bounds m Hm) as [Hlo Hhi].
  pose proof (Zdigits2_nonneg m).
  assert (k < Zdigits2 m) as Hkd.
  { destruct (Z_lt_le_dec k (Zdigits2 m)); [done|].
    assert (2 ^ Zdigits2 m ≤ 2 ^ k) by (apply Z.pow_le_mono_r; lia).
    rewrite Z.div_small in Hq by lia. lia. }
  apply Zdigits2_unique; [|done].
  split.
  - apply Z.div_le_lower_bound; [done|].
    rewrite <- Z.pow_add_r by lia.
    replace (k + (Zdigits2 m - k - 1)) with (Zdigits2 m - 1) by lia. done.
  - apply Z.div_lt_upper_bound; [done|].
    rewrite <- Z.pow_add_r by lia.
    replace (k + (Zdigits2 m - k)) with (Zdigits2 m) by lia. done.
Qed.

Lemma fexp_eq (x : Z) : fexp prec emax x = Z.max (x - 53) (-1074).
Proof. reflexivity. Qed.

Lemma SH_div4 (t n : Z) : 0 ≤ n → SH t n / 4 = t / 4 / 2 ^ n.
Proof.
  intros Hn. unfold SH.
  pose proof (pow2_pos n Hn).
  set (b := if _ =? 0 then 0 else 1).
  assert (0 ≤ b ≤ 1) by (unfold b; destruct (_ =? 0); lia).
  change 4 with (2 * 2) at 1. rewrite <- Z.div_div by lia.
  replace ((2 * (t / 2 ^ (n + 1)) + b) / 2) with (t / 2 ^ (n + 1))
    by (apply (Z.div_unique _ _ _ b); lia).
  rewrite !Z.div_div by lia. f_equal.
  rewrite Z.pow_add_r by lia. lia.
Qed.

(** *** Rounding does not depend on the exponent the real is given at *)

Lemma binary_round_aux_round (m e : Z) (l : location) :
  0 ≤ m →
  binary_round_aux prec emax false m e l = round (4 * m + code_loc l) e.
Proof.
  intros Hm. rewrite binary_round_aux_pack by done. unfold round.
  replace ((4 * m + code_loc l) / 4) with m; [done|].
  apply (Z.div_unique _ _ _ (code_loc l)); destruct l as [|[]]; cbn; lia.
Qed.

Lemma round_coarse (t k e : Z) :
  0 ≤ k → 0 < SH t k / 4 →
  e + k ≤ fexp prec emax (Zdigits2 (SH t k / 4) + (e + k)) →
  round (SH t k) (e + k) = round t e.
Proof.
  intros Hk Hpos Hfine. unfold round.
  rewrite SH_div4 in * by done.
  pose proof (Zdigits2_div (t / 4) k Hk Hpos) as Hd.
  assert (drop (t / 4) e = drop (t / 4 / 2 ^ k) (e + k) + k) as Hdrop.
  { unfold drop. rewrite Hd in *.
    replace (Zdigits2 (t / 4) - k + (e + k)) with (Zdigits2 (t / 4) + e) in * by lia.
    lia. }
  assert (0 ≤ drop (t / 4 / 2 ^ k) (e + k)) by (unfold drop; lia).
  rewrite Hdrop, SH_SH by lia.
  replace (k + drop (t / 4 / 2 ^ k) (e + k))
    with (drop (t / 4 / 2 ^ k) (e + k) + k) by lia.
  f_equal. lia.
Qed.

(** *** Rounding is monotone *)

Lemma drop_nonneg (m e : Z) : 0 ≤ drop m e.
Proof. unfold drop. lia. Qed.

Lemma weight_mono (t t' e : Z) : 0 ≤ t ≤ t' → weight t e ≤ weight t' e.
Proof.
  intros [H0 Hle]. unfold weight.
  assert (0 ≤ t / 4) as HM by (apply Z.div_pos; lia).
  assert (t / 4 ≤ t' / 4) as HMle by (apply Z.div_le_mono; lia).
  pose proof (Zdigits2_mono (t / 4) (t' / 4) ltac:(lia)) as Hd.
  pose proof (Zdigits2_nonneg (t / 4)) as Hd0.
  set (n := drop (t / 4) e). set (n' := drop (t' / 4) e).
  assert (0 ≤ n) as Hn by apply drop_nonneg.
  assert (n ≤ n') as Hnn by (unfold n, n', drop; rewrite !fexp_eq; lia).
  pose proof (pow2_pos n Hn) as Hpn.
  destruct (Z.eq_dec n n') as [<-|Hne].
  - apply Z.mul_le_mono_nonneg_r; [lia|]. apply rne_mono, SH_mono; [done|lia].
  - assert (n' = Zdigits2 (t' / 4) - 53 ∧ Zdigits2 (t / 4) < Zdigits2 (t' / 4))
      as [Hn' Hdd] by (unfold n, n', drop in *; rewrite !fexp_eq in *; lia).
    assert (0 < t' / 4) as HM'.
    { destruct (Z.eq_dec (t' / 4) 0) as [E|]; [|lia]. rewrite E in *. cbn in *. lia. }
    pose proof (Zdigits2_bounds (t' / 4) HM') as [Hlo' _].
    pose proof (pow2_pos n' ltac:(lia)) as Hpn'.
    (* the larger number rounds to at least 2 ^ (d' - 1) *)
    transitivity (2 ^ (Zdigits2 (t' / 4) - 1)).
    + (* the smaller one rounds to at most that *)
      assert (t / 4 < 2 ^ (Zdigits2 (t' / 4) - 1)) as Hup.
      { destruct (Z.eq_dec (t / 4) 0) as [->|]; [apply pow2_pos; lia|].
        pose proof (Zdigits2_bounds (t / 4) ltac:(lia)) as [_ Hhi].
        eapply Z.lt_le_trans; [exact Hhi|]. apply Z.pow_le_mono_r; lia. }
      replace (Zdigits2 (t' / 4) - 1) with (n + (Zdigits2 (t' / 4) - 1 - n)) in * by lia.
      rewrite Z.pow_add_r in * by lia.
      set (K := 2 ^ (Zdigits2 (t' / 4) - 1 - n)) in *.
      assert (t / 4 / 2 ^ n < K) by (apply Z.div_lt_upper_bound; lia).
      pose proof (rne_bounds (SH t n)) as [_ Hr]. rewrite SH_div4 in Hr by done.
      nia.
    + replace (Zdigits2 (t' / 4) - 1) with (52 + n') by lia.
      rewrite Z.pow_add_r by lia.
      apply Z.mul_le_mono_nonneg_r; [lia|].
      pose proof (rne_bounds (SH t' n')) as [Hr _]. rewrite SH_div4 in Hr by lia.
      etransitivity; [|exact Hr].
      apply Z.div_le_lower_bound; [done|].
      replace (Zdigits2 (t' / 4) - 1) with (n' + 52) in Hlo' by lia.
      rewrite Z.pow_add_r in Hlo' by lia. lia.
Qed.

Lemma weight_nonneg (t e : Z) : 0 ≤ t → 0 ≤ weight t e.
Proof.
  intros Ht. unfold weight.
  pose proof (drop_nonneg (t / 4) e) as Hn.
  pose proof (pow2_pos _ Hn).
  pose proof (rne_bounds (SH t (drop (t / 4) e))) as [Hr _].
  rewrite SH_div4 in Hr by done.
  assert (0 ≤ t / 4 / 2 ^ drop (t / 4) e).
  { apply Z.div_pos; [apply Z.div_pos|]; lia. }
  nia.
Qed.

(** What [pack] returns. *)
Lemma pack_cases (m e : Z) :
  0 ≤ m ≤ 2 ^ 53 → -1074 ≤ e →
  (m = 0 ∧ pack m e = S754_zero false) ∨
  (∃ p e', m = Zpos p * 2 ^ (e' - e) ∧ e ≤ e' ∧ Zpos p < 2 ^ 53 ∧
           pack m e = if e' <=? 971 then S754_finite false p e'
                      else S754_infinity false).
Proof.
  intros [Hm0 Hm] He. unfold pack.
  destruct (shr_fexp_code m e loc_Exact Hm0) as (mrs & -> & Hs & Ec).
  pose proof (code_rec_div mrs) as Hdiv. rewrite Ec in Hdiv.
  pose proof (drop_nonneg m e) as Hn.
  rewrite SH_div4 in Hdiv by done. cbn [code_loc] in Hdiv.
  rewrite Z.add_0_r, (Z.mul_comm 4 m), Z.div_mul in Hdiv by lia.
  destruct (Z.eq_dec m 0) as [->|Hne].
  { left. split; [done|]. rewrite Z.div_0_l in Hdiv.
    - by rewrite <- Hdiv.
    - pose proof (pow2_pos _ Hn). lia. }
  right.
  pose proof (Zdigits2_bounds m ltac:(lia)) as [Hlo Hhi].
  pose proof (Zdigits2_nonneg m) as Hd0.
  destruct (Z.eq_dec m (2 ^ 53)) as [->|Hne'].
  - assert (Zdigits2 (2 ^ 53) = 54) as Hd by reflexivity.
    assert (drop (2 ^ 53) e = 1) as Hdr by (unfold drop; rewrite fexp_eq, Hd; lia).
    rewrite Hdr in *. change (2 ^ 53 / 2 ^ 1) with (2 ^ 52) in Hdiv.
    rewrite <- Hdiv. exists (2 ^ 52)%positive, (e + 1).
    split; [|split; [lia|split; reflexivity]].
    replace (e + 1 - e) with 1 by lia. reflexivity.
  - assert (Zdigits2 m ≤ 53) as Hd.
    { destruct (Z_lt_le_dec 53 (Zdigits2 m)); [|lia].
      assert (2 ^ 53 ≤ 2 ^ (Zdigits2 m - 1)) by (apply Z.pow_le_mono_r; lia). lia. }
    assert (drop m e = 0) as Hdr by (unfold drop; rewrite fexp_eq; lia).
    rewrite Hdr in *. change (2 ^ 0) with 1 in Hdiv. rewrite Z.div_1_r in Hdiv.
    rewrite <- Hdiv. destruct m as [|p|p]; try lia.
    exists p, (e + 0). split; [|split; [lia|split; [lia|done]]].
    replace (e + 0 - e) with 0 by lia. lia.
Qed.

(** What [round] returns, in terms of [weight]. *)
Lemma round_cases (t e : Z) :
  0 ≤ t →
  (weight t e = 0 ∧ round t e = S754_zero false) ∨
  (∃ p e', weight t e = Zpos p * 2 ^ (e' - e) ∧ e ≤ e' ∧ Zpos p < 2 ^ 53 ∧
           round t e = if e' <=? 971 then S754_finite false p e'
                       else S754_infinity false).
Proof.
  intros Ht. unfold round, weight.
  set (n := drop (t / 4) e).
  assert (0 ≤ n) as Hn by apply drop_nonneg.
  pose proof (pow2_pos n Hn) as Hpn.
  assert (0 ≤ t / 4) as HM by (apply Z.div_pos; lia).
  pose proof (rne_bounds (SH t n)) as [Hr1 Hr2].
  rewrite SH_div4 in Hr1, Hr2 by done.
  assert (0 ≤ t / 4 / 2 ^ n) as Hq by (apply Z.div_pos; lia).
  assert (t / 4 / 2 ^ n < 2 ^ 53) as Hlt.
  { destruct (Z.eq_dec (t / 4) 0) as [E|Hne].
    - rewrite E, Z.div_0_l by lia. done.
    - pose proof (Zdigits2_bounds (t / 4) ltac:(lia)) as [_ Hhi].
      pose proof (Zdigits2_nonneg (t / 4)).
      apply Z.div_lt_upper_bound; [done|].
      rewrite <- Z.pow_add_r by lia.
      eapply Z.lt_le_trans; [exact Hhi|]. apply Z.pow_le_mono_r; [lia|].
      unfold n, drop. rewrite fexp_eq. lia. }
  destruct (pack_cases (rne (SH t n)) (e + n))
    as [[E ->]|(p & e' & E & He' & Hp & ->)].
  - lia.
  - unfold n, drop. rewrite fexp_eq. lia.
  - left. rewrite E. done.
  - right. exists p, e'. split; [|split; [lia|split; [done|done]]].
    rewrite E, <- Z.mul_assoc, <- Z.pow_add_r by lia. do 2 f_equal. lia.
Qed.

(** A form of [round_coarse] for numbers that may lose all their bits:
    it is enough that both exponents lead to the same target. *)
Lemma round_coarse_target (t k e : Z) :
  0 ≤ k →
  fexp prec emax (Zdigits2 (SH t k / 4) + (e + k))
    = fexp prec emax (Zdigits2 (t / 4) + e) →
  e + k ≤ fexp prec emax (Zdigits2 (t / 4) + e) →
  round (SH t k) (e + k) = round t e.
Proof.
  intros Hk Htarget Hfine. unfold round, drop. rewrite Htarget.
  set (T := fexp prec emax (Zdigits2 (t / 4) + e)) in *.
  rewrite (Z.max_r 0 (T - (e + k))), (Z.max_r 0 (T - e)) by lia.
  rewrite SH_SH by lia. f_equal; [f_equal; f_equal|]; lia.
Qed.

(** *** Quotients as sticky numbers *)

Lemma TQ_nonneg (N D : Z) : 0 ≤ N → 0 < D → 0 ≤ TQ N D.
Proof.
  intros HN HD. unfold TQ.
  pose proof (Z.div_pos (2 * N) D ltac:(lia) HD). destruct (_ =? 0); lia.
Qed.

Lemma TQ_mono (N N' D : Z) : 0 < D → N ≤ N' → TQ N D ≤ TQ N' D.
Proof.
  intros HD Hle. unfold TQ.
  pose proof (Z.div_mod (2 * N) D ltac:(lia)).
  pose proof (Z.div_mod (2 * N') D ltac:(lia)).
  pose proof (Z.mod_pos_bound (2 * N) D HD).
  pose proof (Z.mod_pos_bound (2 * N') D HD).
  pose proof (Z.div_le_mono (2 * N) (2 * N') D HD ltac:(lia)).
  destruct ((2 * N) mod D =? 0) eqn:E; [apply Z.eqb_eq in E|apply Z.eqb_neq in E];
  destruct ((2 * N') mod D =? 0) eqn:E'; [apply Z.eqb_eq in E'|apply Z.eqb_neq in E'| |];
    try lia; rewrite ?Z.eqb_eq, ?Z.eqb_neq in *; nia.
Qed.

Lemma TQ_div4 (N D : Z) : 0 < D → TQ N D / 4 = N / D.
Proof.
  intros HD. unfold TQ.
  set (b := if _ =? 0 then 0 else 1).
  assert (0 ≤ b ≤ 1) by (unfold b; destruct (_ =? 0); lia).
  change 4 with (2 * 2). rewrite <- Z.div_div by lia.
  replace ((2 * (2 * N / D) + b) / 2) with (2 * N / D)
    by (apply (Z.div_unique _ _ _ b); lia).
  rewrite Z.div_div by lia. rewrite (Z.mul_comm D 2).
  apply Z.div_mul_cancel_l; lia.
Qed.

(** The sticky number of a quotient at a higher exponent. *)
Lemma TQ_SH (N D k : Z) :
  0 < D → 0 ≤ k → SH (TQ (N * 2 ^ k) D) k = TQ N D.
Proof.
  intros HD Hk. unfold SH, TQ.
  pose proof (pow2_pos k Hk) as Hp.
  set (A := 2 * (N * 2 ^ k) / D). set (rho := (2 * (N * 2 ^ k)) mod D).
  set (b := if rho =? 0 then 0 else 1).
  assert (0 ≤ b ≤ 1) as Hb by (unfold b; destruct (rho =? 0); lia).
  pose proof (Z.div_mod (2 * (N * 2 ^ k)) D ltac:(lia)) as Hdm. fold A rho in Hdm.
  pose proof (Z.mod_pos_bound (2 * (N * 2 ^ k)) D HD) as Hrho. fold rho in Hrho.
  replace (2 ^ (k + 1)) with (2 * 2 ^ k) by (rewrite Z.pow_add_r by lia; lia).
  assert ((2 * A + b) / (2 * 2 ^ k) = A / 2 ^ k) as ->.
  { rewrite <- Z.div_div by lia. f_equal.
    symmetry. apply (Z.div_unique _ _ _ b); lia. }
  assert ((2 * A + b) mod (2 * 2 ^ k) = 2 * (A mod 2 ^ k) + b) as ->.
  { rewrite Z.rem_mul_r by lia.
    replace ((2 * A + b) / 2) with A by (apply (Z.div_unique _ _ _ b); lia).
    replace ((2 * A + b) mod 2) with b by (apply (Z.mod_unique _ _ A); lia). lia. }
  assert (A / 2 ^ k = 2 * N / D) as HA.
  { unfold A. rewrite Z.div_div by lia.
    replace (2 * (N * 2 ^ k)) with (2 * N * 2 ^ k) by lia.
    apply Z.div_mul_cancel_r; lia. }
  rewrite HA. f_equal.
  pose proof (Z.div_mod A (2 ^ k) ltac:(lia)) as HAm.
  pose proof (Z.mod_pos_bound A (2 ^ k) Hp) as HAr.
  pose proof (Z.div_mod (2 * N) D ltac:(lia)) as HNm.
  pose proof (Z.mod_pos_bound (2 * N) D HD) as HNr.
  rewrite HA in HAm.
  (* 2N 2^k = (q 2^k + a) D + rho  and  2N = q D + r *)
  assert (2 ^ k * ((2 * N) mod D) = D * (A mod 2 ^ k) + rho) as Hkey.
  { apply (Z.add_reg_l (D * 2 ^ k * (2 * N / D))).
    replace (D * 2 ^ k * (2 * N / D) + 2 ^ k * ((2 * N) mod D))
      with ((D * (2 * N / D) + (2 * N) mod D) * 2 ^ k) by ring.
    rewrite <- HNm.
    replace (D * 2 ^ k * (2 * N / D) + (D * (A mod 2 ^ k) + rho))
      with (D * (2 ^ k * (2 * N / D) + A mod 2 ^ k) + rho) by ring.
    rewrite <- HAm. lia. }
  destruct (2 * (A mod 2 ^ k) + b =? 0) eqn:E1;
    destruct ((2 * N) mod D =? 0) eqn:E2;
    rewrite ?Z.eqb_eq, ?Z.eqb_neq in *; try done.
  - exfalso. apply E2. assert (b = 0) by lia. assert (A mod 2 ^ k = 0) by lia.
    unfold b in *. destruct (rho =? 0) eqn:E3; [|lia].
    apply Z.eqb_eq in E3. nia.
  - exfalso. apply E1. rewrite E2 in Hkey.
    assert (rho = 0) by nia. assert (A mod 2 ^ k = 0) by nia.
    unfold b. rewrite (proj2 (Z.eqb_eq rho 0)) by done. lia.
Qed.

Lemma new_location_code (D r : Z) :
  0 < D → 0 ≤ r < D → code_loc (new_location D r) = code_rem D r.
Proof.
  intros HD Hr. unfold new_location, code_rem.
  destruct (Z.even D) eqn:Ev.
  - unfold new_location_even.
    destruct (r =? 0) eqn:E0; [done|].
    destruct (Z.compare_spec (2 * r) D) as [E|E|E]; cbn [code_loc].
    + destruct (2 * r <? D) eqn:E1; [apply Z.ltb_lt in E1; lia|].
      by rewrite (proj2 (Z.eqb_eq _ _) E).
    + by rewrite (proj2 (Z.ltb_lt _ _) E).
    + destruct (2 * r <? D) eqn:E1; [apply Z.ltb_lt in E1; lia|].
      destruct (2 * r =? D) eqn:E2; [apply Z.eqb_eq in E2; lia|done].
  - unfold new_location_odd.
    destruct (r =? 0) eqn:E0; [done|].
    assert (2 * r ≠ D) as Hne.
    { intros <-. rewrite Z.even_mul in Ev. done. }
    destruct (Z.compare_spec (2 * r + 1) D) as [E|E|E]; cbn [code_loc].
    + rewrite (proj2 (Z.ltb_lt (2 * r) D)) by lia. done.
    + rewrite (proj2 (Z.ltb_lt (2 * r) D)) by lia. done.
    + destruct (2 * r <? D) eqn:E1; [apply Z.ltb_lt in E1; lia|].
      destruct (2 * r =? D) eqn:E2; [apply Z.eqb_eq in E2; lia|done].
Qed.

Lemma TQ_code (N D q r : Z) :
  0 < D → N = D * q + r → 0 ≤ r < D → TQ N D = 4 * q + code_rem D r.
Proof.
  intros HD -> Hr. unfold TQ, code_rem.
  destruct (r =? 0) eqn:E0; [apply Z.eqb_eq in E0|apply Z.eqb_neq in E0].
  { subst r. replace (2 * (D * q + 0)) with (2 * q * D) by lia.
    rewrite Z.div_mul, Z.mod_mul by lia. cbn. lia. }
  destruct (2 * r <? D) eqn:E1; [apply Z.ltb_lt in E1|apply Z.ltb_ge in E1].
  { replace (2 * (D * q + r) / D) with (2 * q)
      by (apply (Z.div_unique _ _ _ (2 * r)); lia).
    replace ((2 * (D * q + r)) mod D) with (2 * r)
      by (apply (Z.mod_unique _ _ (2 * q)); lia).
    rewrite (proj2 (Z.eqb_neq (2 * r) 0)) by lia. lia. }
  replace (2 * (D * q + r) / D) with (2 * q + 1)
    by (apply (Z.div_unique _ _ _ (2 * r - D)); lia).
  replace ((2 * (D * q + r)) mod D) with (2 * r - D)
    by (apply (Z.mod_unique _ _ (2 * q + 1)); lia).
  destruct (2 * r =? D) eqn:E2; [apply Z.eqb_eq in E2|apply Z.eqb_neq in E2].
  - rewrite (proj2 (Z.eqb_eq (2 * r - D) 0)) by lia. lia.
  - rewrite (proj2 (Z.eqb_neq (2 * r - D) 0)) by lia. lia.
Qed.

(** *** Division *)

Lemma Zdigits2_mul_pow2 (m s : Z) :
  0 < m → 0 ≤ s → Zdigits2 (m * 2 ^ s) = Zdigits2 m + s.
Proof.
  intros Hm Hs. pose proof (pow2_pos s Hs).
  pose proof (Zdigits2_bounds m Hm) as [Hlo Hhi].
  assert (0 < Zdigits2 m).
  { destruct m; try lia. cbn. lia. }
  apply Zdigits2_unique; [|nia].
  replace (Zdigits2 m + s - 1) with (Zdigits2 m - 1 + s) by lia.
  rewrite !Z.pow_add_r by lia. nia.
Qed.

Lemma Zdigits2_lt_pow2 (m k : Z) : 0 ≤ k → 0 ≤ m < 2 ^ k → Zdigits2 m ≤ k.
Proof.
  intros Hk [H0 Hlt].
  destruct (Z.eq_dec m 0) as [->|]; [done|].
  pose proof (Zdigits2_bounds m ltac:(lia)) as [Hlo _].
  destruct (Z_lt_le_dec k (Zdigits2 m)); [|lia].
  assert (2 ^ k ≤ 2 ^ (Zdigits2 m - 1)) by (apply Z.pow_le_mono_r; lia). lia.
Qed.

(** A quotient that is at least one has at least the difference of the
    digits of its operands. *)
Lemma quotient_digits (N D : Z) :
  0 < D → 1 ≤ N / D → Zdigits2 N - Zdigits2 D ≤ Zdigits2 (N / D).
Proof.
  intros HD HQ.
  assert (0 < N) as HN.
  { destruct (Z_lt_le_dec 0 N); [done|].
    assert (N / D ≤ 0 / D) by (apply Z.div_le_mono; lia).
    rewrite Z.div_0_l in * by lia. lia. }
  pose proof (Zdigits2_bounds N HN) as [HNlo _].
  pose proof (Zdigits2_bounds D HD) as [_ HDhi].
  pose proof (Zdigits2_bounds (N / D) ltac:(lia)) as [_ HQhi].
  pose proof (Zdigits2_nonneg D). pose proof (Zdigits2_nonneg (N / D)).
  pose proof (Z.div_mod N D ltac:(lia)). pose proof (Z.mod_pos_bound N D HD).
  destruct (Z_lt_le_dec (Zdigits2 (N / D)) (Zdigits2 N - Zdigits2 D)); [|lia].
  exfalso.
  assert (2 ^ Zdigits2 (N / D) ≤ 2 ^ (Zdigits2 N - Zdigits2 D - 1))
    by (apply Z.pow_le_mono_r; lia).
  assert (2 ^ (Zdigits2 N - 1)
          = 2 ^ (Zdigits2 N - Zdigits2 D - 1) * 2 ^ Zdigits2 D) as E.
  { rewrite <- Z.pow_add_r by lia. f_equal. lia. }
  pose proof (pow2_pos (Zdigits2 N - Zdigits2 D - 1) ltac:(lia)).
  nia.
Qed.

Lemma div_core (m1 m2 : positive) (e1 e2 : Z) :
  ∃ q l,
    SFdiv_core_binary prec emax (Zpos m1) e1 (Zpos m2) e2
      = (q, div_exp (Zpos m1) e1 (Zpos m2) e2, l) ∧
    0 ≤ q ∧
    4 * q + code_loc l
      = TQ (Zpos m1 * 2 ^ (e1 - e2 - div_exp (Zpos m1) e1 (Zpos m2) e2)) (Zpos m2).
Proof.
  unfold SFdiv_core_binary. fold (div_exp (Zpos m1) e1 (Zpos m2) e2).
  set (e' := div_exp (Zpos m1) e1 (Zpos m2) e2).
  assert (0 ≤ e1 - e2 - e') as Hs by (unfold e', div_exp; lia).
  set (m' := match e1 - e2 - e' with
             | Z0 => Zpos m1 | Zpos _ => Z.shiftl (Zpos m1) (e1 - e2 - e') | Zneg _ => 0
             end).
  assert (m' = Zpos m1 * 2 ^ (e1 - e2 - e')) as Hm'.
  { unfold m'. destruct (e1 - e2 - e') as [|s|s] eqn:E; [cbn; lia| |lia].
    rewrite Z.shiftl_mul_pow2 by lia. done. }
  pose proof (Z_div_mod m' (Zpos m2) ltac:(lia)) as Hdm.
  destruct (Z.div_eucl m' (Zpos m2)) as [q r]. destruct Hdm as [Hdm Hr].
  exists q, (new_location (Zpos m2) r). split; [done|].
  pose proof (pow2_pos _ Hs).
  split; [nia|].
  rewrite new_location_code by lia. rewrite <- Hm'.
  symmetry. apply TQ_code; [lia|done|done].
Qed.

(** Division of two positive floats: one rounding of the quotient,
    whatever the exponent it is taken at. *)
Lemma SFdiv_round (m1 m2 : positive) (e1 e2 c : Z) :
  c ≤ div_exp (Zpos m1) e1 (Zpos m2) e2 →
  SF64div (S754_finite false m1 e1) (S754_finite false m2 e2)
  = round (TQ (Zpos m1 * 2 ^ (e1 - e2 - c)) (Zpos m2)) c.
Proof.
  intros Hc. unfold SF64div, SFdiv.
  destruct (div_core m1 m2 e1 e2) as (q & l & -> & Hq & Hcode).
  cbn [xorb]. rewrite binary_round_aux_round, Hcode by done.
  set (e' := div_exp (Zpos m1) e1 (Zpos m2) e2) in *.
  set (k := e' - c). assert (0 ≤ k) as Hk by (unfold k; lia).
  assert (0 ≤ e1 - e2 - e') as Hs by (unfold e', div_exp; lia).
  set (N := Zpos m1 * 2 ^ (e1 - e2 - e')).
  pose proof (pow2_pos _ Hs) as Hps. pose proof (pow2_pos k Hk) as Hpk.
  assert (0 < N) as HN by (unfold N; nia).
  assert (Zpos m1 * 2 ^ (e1 - e2 - c) = N * 2 ^ k) as ->.
  { unfold N, k. rewrite <- Z.mul_assoc, <- Z.pow_add_r by lia.
    do 2 f_equal. lia. }
  rewrite <- (TQ_SH N (Zpos m2) k) by lia.
  set (tc := TQ (N * 2 ^ k) (Zpos m2)).
  assert (e' = c + k) as Hek by (unfold k; lia).
  rewrite Hek at 1.
  assert (tc / 4 = N * 2 ^ k / Zpos m2) as Htc by (apply TQ_div4; lia).
  assert (SH tc k / 4 = N / Zpos m2) as Ht.
  { unfold tc. rewrite TQ_SH by lia. apply TQ_div4. lia. }
  assert (N * 2 ^ k / Zpos m2 / 2 ^ k = N / Zpos m2) as Hqq.
  { rewrite Z.div_div by lia. apply Z.div_mul_cancel_r; lia. }
  pose proof (Z.div_pos N (Zpos m2) ltac:(lia) ltac:(lia)) as Hq0.
  assert (Zdigits2 (Zpos m1) + (e1 - e2 - e') = Zdigits2 N) as HdN.
  { unfold N. rewrite Zdigits2_mul_pow2 by lia. done. }
  apply round_coarse_target; [done| |]; rewrite ?Ht, ?Htc.
  - destruct (Z.eq_dec (N / Zpos m2) 0) as [E0|Hne].
    + (* the quotient has no integer part: both targets are the bottom *)
      assert (e' ≤ -1074) as He'.
      { destruct (Z_lt_le_dec (-1074) e'); [exfalso|lia].
        pose proof (Zdigits2_bounds N HN) as [HNlo _].
        pose proof (Zdigits2_bounds (Zpos m2) ltac:(lia)) as [_ HDhi].
        assert (N < Zpos m2).
        { destruct (Z_lt_le_dec N (Zpos m2)); [done|].
          assert (1 ≤ N / Zpos m2) by (apply Z.div_le_lower_bound; lia). lia. }
        assert (2 ^ Zdigits2 (Zpos m2) ≤ 2 ^ (Zdigits2 N - 1)); [|lia].
        apply Z.pow_le_mono_r; [lia|].
        unfold e', div_exp in *. rewrite fexp_eq in *. lia. }
      rewrite E0. change (Zdigits2 0) with 0.
      assert (N < Zpos m2).
      { destruct (Z_lt_le_dec N (Zpos m2)); [done|].
        assert (1 ≤ N / Zpos m2) by (apply Z.div_le_lower_bound; lia). lia. }
      assert (N * 2 ^ k / Zpos m2 < 2 ^ k)
        by (apply Z.div_lt_upper_bound; nia).
      pose proof (Z.div_pos (N * 2 ^ k) (Zpos m2) ltac:(nia) ltac:(lia)).
      pose proof (Zdigits2_lt_pow2 (N * 2 ^ k / Zpos m2) k Hk ltac:(lia)).
      pose proof (Zdigits2_nonneg (N * 2 ^ k / Zpos m2)).
      rewrite !fexp_eq. unfold k in *. lia.
    + f_equal.
      rewrite <- Hqq at 1. rewrite Zdigits2_div by (rewrite ?Hqq; lia). lia.
  - destruct (Z.eq_dec (N / Zpos m2) 0) as [E0|Hne].
    + assert (N < Zpos m2).
      { destruct (Z_lt_le_dec N (Zpos m2)); [done|].
        assert (1 ≤ N / Zpos m2) by (apply Z.div_le_lower_bound; lia). lia. }
      assert (N * 2 ^ k / Zpos m2 < 2 ^ k)
        by (apply Z.div_lt_upper_bound; nia).
      pose proof (Z.div_pos (N * 2 ^ k) (Zpos m2) ltac:(nia) ltac:(lia)).
      pose proof (Zdigits2_lt_pow2 (N * 2 ^ k / Zpos m2) k Hk ltac:(lia)).
      assert (e' ≤ -1074) as He'.
      { destruct (Z_lt_le_dec (-1074) e'); [exfalso|lia].
        pose proof (Zdigits2_bounds N HN) as [HNlo _].
        pose proof (Zdigits2_bounds (Zpos m2) ltac:(lia)) as [_ HDhi].
        assert (2 ^ Zdigits2 (Zpos m2) ≤ 2 ^ (Zdigits2 N - 1)); [|lia].
        apply Z.pow_le_mono_r; [lia|].
        unfold e', div_exp in *. rewrite fexp_eq in *. lia. }
      rewrite fexp_eq. unfold k in *. lia.
    + pose proof (quotient_digits N (Zpos m2) ltac:(lia) ltac:(lia)) as Hqd.
      assert (Zdigits2 (N * 2 ^ k / Zpos m2) = Zdigits2 (N / Zpos m2) + k) as ->.
      { rewrite <- Hqq at 1. rewrite Zdigits2_div by (rewrite ?Hqq; lia). lia. }
      unfold e', div_exp in *. rewrite !fexp_eq in *. unfold k in *. lia.
Qed.

(** *** Subtraction *)

Lemma TQ_1 (N : Z) : TQ N 1 = 4 * N.
Proof. unfold TQ. rewrite Z.div_1_r, Z.mod_1_r. cbn. lia. Qed.

Lemma round_0 (c : Z) : round 0 c = S754_zero false.
Proof.
  destruct (round_cases 0 c ltac:(lia)) as [[_ ->]|(p & e' & E & He & _ & _)];
    [done|exfalso].
  unfold weight in E. change (0 / 4) with 0 in E.
  pose proof (drop_nonneg 0 c) as Hn. pose proof (pow2_pos _ Hn).
  assert (SH 0 (drop 0 c) = 0) as E0.
  { unfold SH. rewrite Z.div_0_l, Z.mod_0_l by lia. done. }
  rewrite E0 in E. change (rne 0) with 0 in E.
  pose proof (pow2_pos (e' - c) ltac:(lia)). lia.
Qed.

(** [binary_round] is the rounding of the integer it is given. *)
Lemma binary_round_round (m : positive) (e c : Z) :
  c ≤ e → c ≤ -1074 →
  binary_round prec emax false m e = round (4 * (Zpos m * 2 ^ (e - c))) c.
Proof.
  intros Hce Hc. unfold binary_round.
  set (E' := fexp prec emax (Zpos (digits2_pos m) + e)).
  assert (-1074 ≤ E') as HE' by (unfold E'; rewrite fexp_eq; lia).
  assert (∃ mz ez, shl_align m e E' = (mz, ez) ∧ ez = Z.min e E' ∧
                   Zpos mz = Zpos m * 2 ^ (e - ez)) as (mz & ez & -> & Hez & Hmz).
  { unfold shl_align. destruct (E' - e) as [|d|d] eqn:E.
    - exists m, e. split; [done|]. split; [lia|].
      rewrite Z.sub_diag. cbn. lia.
    - exists m, e. split; [done|]. split; [lia|].
      rewrite Z.sub_diag. cbn. lia.
    - exists (Pos.iter xO m d), E'. split; [done|]. split; [lia|].
      change (Pos.iter xO m d) with (shift_pos d m).
      rewrite shift_pos_correct, Zpower_pos_nat, Zpower_nat_Z, positive_nat_Z.
      replace (e - E') with (Zpos d) by lia. lia. }
  rewrite binary_round_aux_round by lia. cbn [code_loc]. rewrite Z.add_0_r.
  set (k := ez - c). assert (0 ≤ k) as Hk by (unfold k; lia).
  pose proof (pow2_pos k Hk) as Hpk.
  assert (4 * (Zpos m * 2 ^ (e - c)) = TQ (Zpos mz * 2 ^ k) 1) as ->.
  { rewrite TQ_1, Hmz, <- Z.mul_assoc, <- Z.pow_add_r by lia.
    do 3 f_equal. unfold k. lia. }
  assert (4 * Zpos mz = SH (TQ (Zpos mz * 2 ^ k) 1) k) as ->
    by (rewrite TQ_SH, TQ_1 by lia; done).
  assert (ez = c + k) as Hek by (unfold k; lia). rewrite Hek at 1.
  assert (Zdigits2 (Zpos mz) + ez = Zpos (digits2_pos m) + e) as Hd.
  { rewrite Hmz. rewrite Zdigits2_mul_pow2 by lia. cbn [Zdigits2]. lia. }
  apply round_coarse_target; [done| |];
    rewrite ?TQ_SH, !TQ_1 by lia;
    rewrite ?(Z.mul_comm 4), !Z.div_mul by lia.
  - f_equal. rewrite Zdigits2_mul_pow2 by lia. lia.
  - rewrite Zdigits2_mul_pow2 by lia.
    replace (Zdigits2 (Zpos mz) + k + c) with (Zpos (digits2_pos m) + e) by lia.
    fold E'. lia.
Qed.

(** The difference of two positive floats is the rounding of the
    difference of their values. *)
Lemma SFsub_round (mx my : positive) (ex ey : Z) :
  -1074 ≤ ex → -1074 ≤ ey →
  val (S754_finite false my ey) ≤ val (S754_finite false mx ex) →
  SF64sub (S754_finite false mx ex) (S754_finite false my ey)
  = round (4 * (val (S754_finite false mx ex) - val (S754_finite false my ey)))
          (-1074).
Proof.
  intros Hex Hey Hle. unfold SF64sub, SFsub. cbn [cond_Zopp val] in *.
  set (ez := Z.min ex ey).
  rewrite !shl_align_fst by (unfold ez; lia).
  pose proof (pow2_pos (ez + 1074) ltac:(unfold ez; lia)) as Hp.
  assert (Zpos mx * 2 ^ (ex + 1074) = Zpos mx * 2 ^ (ex - ez) * 2 ^ (ez + 1074)) as Ex.
  { rewrite <- Z.mul_assoc, <- Z.pow_add_r by (unfold ez; lia). do 2 f_equal. lia. }
  assert (Zpos my * 2 ^ (ey + 1074) = Zpos my * 2 ^ (ey - ez) * 2 ^ (ez + 1074)) as Ey.
  { rewrite <- Z.mul_assoc, <- Z.pow_add_r by (unfold ez; lia). do 2 f_equal. lia. }
  rewrite Ex, Ey in *.
  set (X := Zpos mx * 2 ^ (ex - ez)) in *. set (Y := Zpos my * 2 ^ (ey - ez)) in *.
  assert (Y ≤ X) as HYX by nia.
  destruct (X - Y) as [|d|d] eqn:Ed; [| |lia].
  - cbn [binary_normalize]. replace (X * 2 ^ (ez + 1074) - Y * 2 ^ (ez + 1074)) with 0 by nia.
    symmetry. apply round_0.
  - cbn [binary_normalize].
    rewrite (binary_round_round d ez (-1074)) by (unfold ez; lia).
    do 2 f_equal. replace (ez - -1074) with (ez + 1074) by lia. nia.
Qed.

(** The order of positive floats is the order of their values. *)
Lemma SFleb_val (mx my : positive) (ex ey : Z) :
  valid_binary (S754_finite false mx ex) = true →
  valid_binary (S754_finite false my ey) = true →
  SFleb (S754_finite false my ey) (S754_finite false mx ex) = true →
  val (S754_finite false my ey) ≤ val (S754_finite false mx ex).
Proof.
  intros Hx Hy Hle. unfold SFleb in Hle. cbn in Hle.
  assert (ey < ex ∨ (ey = ex ∧ Zpos my ≤ Zpos mx)) as H.
  { destruct (ey ?= ex) eqn:E; try done.
    - apply Z.compare_eq in E. right. split; [done|].
      apply compare_cont_le. intros HH. by rewrite HH in Hle.
    - left. exact E. }
  clear Hle.
  pose proof (aligned_le mx my ex ey false false Hx Hy H) as Hal.
  apply valid_finite in Hx as (Hex & _). apply valid_finite in Hy as (Hey & _).
  unfold SpecFloat.emin, emax, prec in *.
  rewrite (shl_align_fst my), (shl_align_fst mx) in Hal by lia.
  cbn [val]. set (ez := Z.min ex ey) in *.
  pose proof (pow2_pos (ez + 1074) ltac:(unfold ez; lia)) as Hp.
  replace (ey + 1074) with (ey - ez + (ez + 1074)) by lia.
  replace (ex + 1074) with (ex - ez + (ez + 1074)) by lia.
  rewrite (Z.pow_add_r 2 (ey - ez)), (Z.pow_add_r 2 (ex - ez)) by (unfold ez; lia).
  nia.
Qed.

(** *** Below a float that does not overflow *)

Lemma round_below (t t' c : Z) (p' : positive) (e' : Z) :
  0 ≤ t ≤ t' →
  round t' c = S754_finite false p' e' → e' ≤ 918 →
  weight t c ≤ weight t' c ∧
  ((round t c = S754_zero false ∧ weight t c = 0) ∨
   ∃ p e, round t c = S754_finite false p e ∧
          weight t c = Zpos p * 2 ^ (e - c) ∧ c ≤ e).
Proof.
  intros [Ht Hle] Hr' He'.
  pose proof (weight_mono t t' c ltac:(lia)) as Hw.
  split; [done|].
  destruct (round_cases t' c ltac:(lia))
    as [[_ E]|(q' & f' & Ew' & Hf' & Hq' & E)]; rewrite E in Hr'; [done|].
  destruct (f' <=? 971) eqn:Ef; [|done]. injection Hr' as -> ->.
  destruct (round_cases t c Ht) as [[Ew ->]|(q & f & Ew & Hf & Hq & ->)];
    [by left|right].
  destruct (f <=? 971) eqn:Ef2.
  { exists q, f. done. }
  exfalso. apply Z.leb_gt in Ef2.
  pose proof (pow2_pos (e' - c) ltac:(lia)).
  assert (2 ^ (53 + (e' - c)) ≤ 2 ^ (f - c)) by (apply Z.pow_le_mono_r; lia).
  rewrite Z.pow_add_r in * by lia. nia.
Qed.

Lemma round_self (t c : Z) (p : positive) (e : Z) :
  0 ≤ t → round t c = S754_finite false p e →
  weight t c = Zpos p * 2 ^ (e - c) ∧ c ≤ e.
Proof.
  intros Ht Hr.
  destruct (round_cases t c Ht) as [[_ E]|(q & f & Ew & Hf & Hq & E)];
    rewrite E in Hr; [done|].
  destruct (f <=? 971); [|done]. by injection Hr as -> ->.
Qed.

(** The integer part of a float known by its weight. *)
Lemma trunc_weight (f : spec_float) (W c : Z) :
  c ≤ 0 →
  (f = S754_zero false ∧ W = 0) ∨
  (∃ p e, f = S754_finite false p e ∧ W = Zpos p * 2 ^ (e - c) ∧ c ≤ e) →
  Float64.truncSF f = Some (W / 2 ^ (- c)).
Proof.
  intros Hc [[-> ->]|(p & e & -> & -> & He)]; cbn [Float64.truncSF].
  { by rewrite Z.div_0_l by (pose proof (pow2_pos (- c) ltac:(lia)); lia). }
  f_equal. pose proof (pow2_pos (- c) ltac:(lia)).
  destruct (Z_le_gt_dec 0 e).
  - rewrite Z.shiftl_mul_pow2 by done.
    replace (e - c) with (e + - c) by lia.
    rewrite Z.pow_add_r, Z.mul_assoc, Z.div_mul by lia. done.
  - rewrite Z.shiftl_div_pow2 by lia.
    replace (- c) with (e - c + - e) by lia.
    rewrite Z.pow_add_r by lia.
    pose proof (pow2_pos (e - c) ltac:(lia)). pose proof (pow2_pos (- e) ltac:(lia)).
    rewrite (Z.mul_comm (2 ^ (e - c))).
    rewrite Z.div_mul_cancel_r by lia. done.
Qed.

(** *** A pixel coordinate as a function of the distance to the edge *)

Lemma coord_round (mp : positive) (ep dmax : Z) (mA : positive) (eA : Z) (d : Z) :
  valid_binary (S754_finite false mp ep) = true →
  round (4 * dmax) (-1074) = S754_finite false mA eA → eA ≤ 918 →
  0 ≤ d ≤ dmax →
  coord (S754_finite false mp ep) d
  = round (quot mp ep (weight (4 * d) (-1074))) (-2045).
Proof.
  intros Hp HA HeA Hd. unfold coord, quot.
  apply valid_finite in Hp as (Hep & _). unfold SpecFloat.emin, emax, prec in Hep.
  destruct (round_below (4 * d) (4 * dmax) (-1074) mA eA ltac:(lia) HA HeA)
    as [_ [[-> ->]|(p & e & -> & -> & He)]].
  - change (SF64div (S754_zero false) (S754_finite false mp ep))
      with (S754_zero false).
    rewrite Z.mul_0_l.
    change (TQ 0 (Zpos mp)) with 0.
    symmetry. apply round_0.
  - rewrite (SFdiv_round p mp e ep (-2045)).
    + do 2 f_equal. rewrite <- Z.mul_assoc, <- Z.pow_add_r by lia.
      do 2 f_equal. lia.
    + unfold div_exp. rewrite fexp_eq. lia.
Qed.

Lemma quot_mono (mp : positive) (ep v v' : Z) :
  ep ≤ 971 → v ≤ v' → quot mp ep v ≤ quot mp ep v'.
Proof.
  intros Hep Hv. unfold quot. apply TQ_mono; [lia|].
  pose proof (pow2_pos (971 - ep) ltac:(lia)). nia.
Qed.

(** Between the edge and the farthest point the integer part of the
    quotient grows with the distance. *)
Lemma coord_mono (mp : positive) (ep dmax : Z) (mA mQ : positive) (eA eQ : Z) :
  valid_binary (S754_finite false mp ep) = true →
  round (4 * dmax) (-1074) = S754_finite false mA eA → eA ≤ 918 →
  coord (S754_finite false mp ep) dmax = S754_finite false mQ eQ → eQ ≤ 918 →
  ∀ d d', 0 ≤ d ≤ d' → d' ≤ dmax →
    ∃ z z',
      Float64.truncSF (coord (S754_finite false mp ep) d) = Some z ∧
      Float64.truncSF (coord (S754_finite false mp ep) d') = Some z' ∧
      0 ≤ z ≤ z' ∧ z' ≤ Z.shiftl (Zpos mQ) eQ.
Proof.
  intros Hp HA HeA HQ HeQ d d' Hd Hd'.
  pose proof (valid_finite _ _ _ Hp) as (Hep & _).
  unfold SpecFloat.emin, emax, prec in Hep.
  rewrite (coord_round mp ep dmax mA eA dmax Hp HA HeA) in HQ by lia.
  rewrite (coord_round mp ep dmax mA eA d Hp HA HeA) by lia.
  rewrite (coord_round mp ep dmax mA eA d' Hp HA HeA) by lia.
  set (v := weight (4 * d) (-1074)). set (v' := weight (4 * d') (-1074)).
  set (vmax := weight (4 * dmax) (-1074)) in *.
  assert (0 ≤ v) as Hv0 by (apply weight_nonneg; lia).
  assert (v ≤ v') as Hvv by (apply weight_mono; lia).
  assert (v' ≤ vmax) as Hvm by (apply weight_mono; lia).
  pose proof (pow2_pos (971 - ep) ltac:(lia)) as Hpw.
  assert (0 ≤ quot mp ep v) as Hq0 by (apply TQ_nonneg; nia).
  pose proof (quot_mono mp ep v v' ltac:(lia) Hvv) as Hq1.
  pose proof (quot_mono mp ep v' vmax ltac:(lia) Hvm) as Hq2.
  destruct (round_below (quot mp ep v) (quot mp ep vmax) (-2045) mQ eQ
              ltac:(lia) HQ HeQ) as [Hw1 Hr1].
  destruct (round_below (quot mp ep v') (quot mp ep vmax) (-2045) mQ eQ
              ltac:(lia) HQ HeQ) as [Hw2 Hr2].
  pose proof (weight_mono (quot mp ep v) (quot mp ep v') (-2045) ltac:(lia)) as Hw3.
  pose proof (weight_nonneg (quot mp ep v) (-2045) Hq0) as Hw0.
  destruct (round_self (quot mp ep vmax) (-2045) mQ eQ ltac:(lia) HQ) as [Ewm Hem].
  pose proof (trunc_weight _ _ (-2045) ltac:(lia) Hr1) as Ht1.
  pose proof (trunc_weight _ _ (-2045) ltac:(lia) Hr2) as Ht2.
  pose proof (trunc_weight (S754_finite false mQ eQ) _ (-2045) ltac:(lia)
                (or_intror (ex_intro _ mQ (ex_intro _ eQ (conj eq_refl (conj Ewm Hem))))))
    as Htm.
  cbn [Float64.truncSF] in Htm. injection Htm as Htm.
  eexists _, _. split; [exact Ht1|]. split; [exact Ht2|].
  pose proof (pow2_pos (- -2045) ltac:(lia)) as Hpp.
  rewrite Htm. split; [split|].
  - apply Z.div_pos; lia.
  - apply Z.div_le_mono; lia.
  - apply Z.div_le_mono; lia.
Qed.

(** *** How far a rounding goes *)

Lemma rne_code (q k : Z) :
  0 ≤ k ≤ 3 →
  rne (4 * q + k) = q + (if (k =? 3) || ((k =? 2) && Z.odd q) then 1 else 0).
Proof.
  intros Hk. unfold rne.
  replace ((4 * q + k) / 4) with q.
  2:{ rewrite (Z.mul_comm 4), Z.div_add_l, Z.div_small by lia. lia. }
  replace ((4 * q + k) mod 4) with k.
  2:{ rewrite Z.add_comm, (Z.mul_comm 4), Z.mod_add, Z.mod_small by lia. done. }
  done.
Qed.

(** The nearest integer to [N / D] is not more than one half below. *)
Lemma rne_TQ_lower (N D : Z) :
  0 ≤ N → 0 < D → 2 * N ≤ (2 * rne (TQ N D) + 1) * D.
Proof.
  intros HN HD.
  pose proof (Z.div_mod N D ltac:(lia)) as E.
  pose proof (Z.mod_pos_bound N D HD) as Hr.
  rewrite (TQ_code N D (N / D) (N mod D) HD E Hr).
  set (q := N / D) in *. set (r := N mod D) in *.
  clearbody q r.
  assert (0 ≤ code_rem D r ≤ 3) as Hc.
  { unfold code_rem. repeat case_match; lia. }
  rewrite rne_code by done. unfold code_rem in *.
  destruct (Z.eqb_spec r 0) as [Hr0|Hr0].
  { change (0 =? 3) with false. change (0 =? 2) with false. cbn [orb andb]. nia. }
  destruct (Z.ltb_spec (2 * r) D).
  { change (1 =? 3) with false. change (1 =? 2) with false. cbn [orb andb]. nia. }
  destruct (Z.eqb_spec (2 * r) D).
  { change (2 =? 3) with false. change (2 =? 2) with true. cbn [orb andb].
    destruct (Z.odd q); nia. }
  change (3 =? 3) with true. cbn [orb]. nia.
Qed.

Lemma SH_exact (x d : Z) : 0 ≤ d → SH (4 * x * 2 ^ d) d = 4 * x.
Proof.
  intros Hd. unfold SH. pose proof (pow2_pos d Hd).
  replace (4 * x * 2 ^ d) with (2 * x * 2 ^ (d + 1))
    by (rewrite Z.pow_add_r by lia; lia).
  pose proof (pow2_pos (d + 1) ltac:(lia)).
  rewrite Z.div_mul, Z.mod_mul by lia. cbn. lia.
Qed.

(** A value that a float holds is its own rounding. *)
Lemma weight_exact (m k c : Z) :
  0 < m < 2 ^ 53 → 0 ≤ k → -1074 ≤ k + c →
  weight (4 * (m * 2 ^ k)) c = m * 2 ^ k.
Proof.
  intros Hm Hk Hc. unfold weight.
  pose proof (pow2_pos k Hk) as Hpk.
  replace (4 * (m * 2 ^ k) / 4) with (m * 2 ^ k)
    by (rewrite (Z.mul_comm 4), Z.div_mul by lia; done).
  set (d := drop (m * 2 ^ k) c).
  assert (0 ≤ d ≤ k) as Hd.
  { unfold d, drop. rewrite fexp_eq, Zdigits2_mul_pow2 by lia.
    pose proof (Zdigits2_lt_pow2 m 53 ltac:(lia) ltac:(lia)). lia. }
  replace (4 * (m * 2 ^ k)) with (4 * (m * 2 ^ (k - d)) * 2 ^ d).
  2:{ rewrite <- !Z.mul_assoc, <- Z.pow_add_r by lia. do 3 f_equal. lia. }
  rewrite SH_exact, rne_exact by lia.
  rewrite <- Z.mul_assoc, <- Z.pow_add_r by lia. do 2 f_equal. lia.
Qed.

Lemma TQ_exact (K D : Z) : 0 < D → TQ (K * D) D = 4 * K.
Proof.
  intros HD. rewrite (TQ_code (K * D) D K 0 HD) by lia.
  unfold code_rem. cbn. lia.
Qed.

(** The quotient of two normal floats: its rounding is positive and at
    most a part in [2 ^ 53] below the quotient. *)
Lemma div_lower (mA mB X : Z) :
  2 ^ 52 ≤ mA < 2 ^ 53 → 2 ^ 52 ≤ mB < 2 ^ 53 → 1024 ≤ X →
  0 < weight (TQ (mA * 2 ^ X) mB) (-2045) ∧
  2 ^ 53 * (mA * 2 ^ X)
    ≤ (2 ^ 53 + 1) * weight (TQ (mA * 2 ^ X) mB) (-2045) * mB.
Proof.
  intros HA HB HX.
  pose proof (pow2_pos X ltac:(lia)) as HpX.
  pose proof (pow2_pos (X - 1) ltac:(lia)) as HpX1.
  set (N := mA * 2 ^ X). set (t := TQ N mB).
  assert (t / 4 = N / mB) as Ev by (apply TQ_div4; lia).
  assert (2 ^ (X - 1) ≤ N / mB < 2 ^ (X + 1)) as Hv.
  { split.
    - apply Z.div_le_lower_bound; [lia|].
      assert (2 ^ X = 2 * 2 ^ (X - 1)) as EX
        by (rewrite <- Z.pow_succ_r by lia; f_equal; lia).
      unfold N. rewrite EX. assert (mB ≤ 2 * mA) by lia.
      generalize dependent (2 ^ (X - 1)). intros P. nia.
    - apply Z.div_lt_upper_bound; [lia|].
      rewrite Z.pow_add_r by lia. unfold N. change (2 ^ 1) with 2.
      assert (mA < 2 * mB) by lia.
      generalize dependent (2 ^ X). intros P. nia. }
  set (v := N / mB) in *.
  set (dv := Zdigits2 v).
  pose proof (Zdigits2_bounds v ltac:(lia)) as Hdv. fold dv in Hdv.
  assert (X ≤ dv ≤ X + 1) as Hdvx.
  { split.
    - destruct (Z_lt_le_dec dv X) as [Hlt|]; [|lia]. exfalso.
      assert (2 ^ dv ≤ 2 ^ (X - 1)) by (apply Z.pow_le_mono_r; lia). lia.
    - destruct (Z_lt_le_dec (X + 1) dv) as [Hlt|]; [|lia]. exfalso.
      assert (2 ^ (X + 1) ≤ 2 ^ (dv - 1)) by (apply Z.pow_le_mono_r; lia). lia. }
  unfold weight. rewrite Ev. fold v.
  set (d := drop v (-2045)).
  assert (d = dv - 53) as Ed.
  { unfold d, drop. rewrite fexp_eq. fold dv. lia. }
  assert (0 < d ≤ X) as Hd by lia.
  pose proof (pow2_pos d ltac:(lia)) as Hpd.
  set (N0 := mA * 2 ^ (X - d)).
  assert (N = N0 * 2 ^ d) as EN.
  { unfold N, N0. rewrite <- Z.mul_assoc, <- Z.pow_add_r by lia.
    do 2 f_equal. lia. }
  unfold t. rewrite EN, TQ_SH by lia.
  pose proof (pow2_pos (X - d) ltac:(lia)).
  pose proof (rne_TQ_lower N0 mB ltac:(unfold N0; nia) ltac:(lia)) as Hlow.
  pose proof (rne_bounds (TQ N0 mB)) as [Hrb _].
  rewrite TQ_div4 in Hrb by lia.
  assert (2 ^ 52 ≤ N0 / mB) as Hn.
  { assert (N0 / mB = v / 2 ^ d) as ->.
    { unfold v. rewrite EN.
      rewrite Z.div_div, (Z.mul_comm mB), <- Z.div_div by lia.
      by rewrite Z.div_mul by lia. }
    apply Z.div_le_lower_bound; [lia|].
    replace (2 ^ d * 2 ^ 52) with (2 ^ (dv - 1)); [lia|].
    rewrite <- Z.pow_add_r by lia. f_equal. lia. }
  set (M := rne (TQ N0 mB)) in *.
  split; [nia|].
  rewrite <- EN.
  assert (2 * N ≤ (2 * M + 1) * mB * 2 ^ d) as H2 by (rewrite EN; nia).
  nia.
Qed.

(** *** The far edge *)

(** [float64(n)] is exact for a side below [2 ^ 53]. *)
Lemma ofInt_exact (n : Z) :
  1 ≤ n < 2 ^ 53 →
  ∃ mn en,
    Prim2SF (Float64.ofInt n) = S754_finite false mn en ∧
    2 ^ 52 ≤ Zpos mn < 2 ^ 53 ∧ -52 ≤ en ≤ 0 ∧
    Zpos mn = n * 2 ^ (- en).
Proof.
  intros Hn. unfold Float64.ofInt.
  destruct (Z.ltb_spec n 0); [lia|].
  pose proof (Prim2SF_valid (of_uint63 (Uint63.of_Z n))) as Hv.
  rewrite of_uint63_spec in Hv |- *.
  rewrite Uint63.of_Z_spec, Z.mod_small in Hv |- *
    by (change Uint63.wB with (2 ^ 63); lia).
  destruct n as [|pn|pn]; [lia| |lia].
  cbn [binary_normalize] in Hv |- *.
  rewrite (binary_round_round pn 0 (-1074)) in Hv |- * by lia.
  change (0 - -1074) with 1074 in *.
  pose proof (weight_exact (Zpos pn) 1074 (-1074) ltac:(lia) ltac:(lia) ltac:(lia))
    as Hw.
  pose proof (pow2_pos 1074 ltac:(lia)) as Hp.
  destruct (round_cases (4 * (Zpos pn * 2 ^ 1074)) (-1074) ltac:(lia))
    as [[W0 _]|(P & E & EW & HE & HP & Er)]; [nia|].
  rewrite Hw in EW.
  replace (E - -1074) with (E + 1074) in EW by lia.
  pose proof (pow2_pos (E + 1074) ltac:(lia)) as HpE.
  assert (E < 53) as HE53.
  { destruct (Z_lt_le_dec E 53); [done|]. exfalso.
    assert (2 ^ (53 + 1074) ≤ 2 ^ (E + 1074)) as Hle
      by (apply Z.pow_le_mono_r; lia).
    rewrite (Z.pow_add_r 2 53 1074) in Hle by lia.
    change (2 ^ 53) with 9007199254740992 in *.
    generalize dependent (2 ^ (E + 1074)). generalize dependent (2 ^ 1074).
    intros a Ha b Hb. nia. }
  rewrite Er in Hv |- *.
  destruct (Z.leb_spec E 971); [|lia].
  apply valid_finite in Hv as (_ & _ & Hnorm).
  assert (-53 < E) as HElow.
  { destruct (Z_lt_le_dec (-53) E); [done|]. exfalso.
    assert (2 ^ (E + 1074) ≤ 2 ^ 1021) as Hle by (apply Z.pow_le_mono_r; lia).
    assert (2 ^ 1074 = 2 ^ 53 * 2 ^ 1021) as E2
      by (rewrite <- Z.pow_add_r by lia; done).
    pose proof (pow2_pos 1021 ltac:(lia)) as Hq. rewrite E2 in EW.
    change (2 ^ 53) with 9007199254740992 in *.
    generalize dependent (2 ^ (E + 1074)). generalize dependent (2 ^ 1021).
    intros a Ha b Hb. nia. }
  specialize (Hnorm ltac:(unfold SpecFloat.emin, emax, prec; lia)).
  assert (E ≤ 0) as HE0.
  { destruct (Z_lt_le_dec 0 E); [|lia]. exfalso.
    assert (2 ^ (1 + 1074) ≤ 2 ^ (E + 1074)) as Hle
      by (apply Z.pow_le_mono_r; lia).
    rewrite (Z.pow_add_r 2 1 1074) in Hle by lia.
    change (2 ^ 53) with 9007199254740992 in *.
    change (2 ^ 52) with 4503599627370496 in *. change (2 ^ 1) with 2 in *.
    clear HElow.
    generalize dependent (2 ^ (E + 1074)). generalize dependent (2 ^ 1074).
    intros a Ha b Hb. nia. }
  exists P, E. split; [done|]. split; [lia|]. split; [lia|].
  assert (2 ^ 1074 = 2 ^ (- E) * 2 ^ (E + 1074)) as E3.
  { rewrite <- Z.pow_add_r by lia. f_equal. lia. }
  rewrite E3 in EW. nia.
Qed.

(** The far edge of an axis: the span [s] divided by the side [n] is
    the pixel size [p]; the largest difference [far] has the value of
    the span, and its quotient by [p] has an integer part of at most
    [n]. *)
Lemma far_edge (far s : float) (mS : positive) (eS n : Z) :
  Prim2SF s = S754_finite false mS eS →
  Prim2SF far = S754_finite false mS eS →
  -52 ≤ eS ≤ 0 →
  1 ≤ n ≤ maxSide →
  edge_ok far (s / Float64.ofInt n) n = true.
Proof.
  intros Es Ef HeS Hn. unfold maxSide in Hn.
  change (2 ^ 52) with 4503599627370496 in Hn.
  pose proof (Prim2SF_valid s) as Vs. rewrite Es in Vs.
  apply valid_finite in Vs as (_ & HmS & HnS).
  specialize (HnS ltac:(unfold SpecFloat.emin, emax, prec; lia)).
  destruct (ofInt_exact n) as (mn & en & En & Hmn & Hen & Hval);
    [change (2 ^ 53) with 9007199254740992; lia|].
  pose proof (Prim2SF_valid (s / Float64.ofInt n)) as Vp.
  unfold edge_ok. rewrite !div_spec, Es, Ef, En in *.
  assert (-2045 ≤ div_exp (Zpos mS) eS (Zpos mn) en) as Hc1
    by (unfold div_exp; rewrite fexp_eq; lia).
  rewrite (SFdiv_round mS mn eS en (-2045) Hc1) in *.
  replace (eS - en - -2045) with (eS - en + 2045) in * by lia.
  set (Xp := eS - en + 2045) in *.
  destruct (div_lower (Zpos mS) (Zpos mn) Xp) as [HWp Hlow];
    [lia|lia|unfold Xp; lia|].
  pose proof (pow2_pos Xp ltac:(unfold Xp; lia)) as HpXp.
  set (tp := TQ (Zpos mS * 2 ^ Xp) (Zpos mn)) in *.
  assert (0 ≤ tp) as Htp by (apply TQ_nonneg; nia).
  destruct (round_cases tp (-2045) Htp)
    as [[W0 _]|(P & E & EW & HE & HP & Er)]; [lia|].
  replace (E - -2045) with (E + 2045) in EW by lia.
  pose proof (pow2_pos (E + 2045) ltac:(lia)) as HpE.
  (* the pixel size is at most [2 ^ (eS - en + 1)] *)
  assert (weight tp (-2045) ≤ 2 ^ (Xp + 1)) as HWup.
  { pose proof (weight_exact 1 (Xp + 1) (-2045) ltac:(lia)
                  ltac:(unfold Xp; lia) ltac:(unfold Xp; lia)) as Hx.
    rewrite Z.mul_1_l in Hx. rewrite <- Hx.
    apply weight_mono. split; [done|].
    rewrite <- (TQ_exact (2 ^ (Xp + 1)) (Zpos mn)) by lia.
    apply TQ_mono; [lia|].
    rewrite Z.pow_add_r by (unfold Xp; lia). change (2 ^ 1) with 2.
    change (2 ^ 53) with 9007199254740992 in *.
    change (2 ^ 52) with 4503599627370496 in *. nia. }
  assert (E ≤ eS - en + 1) as HEup.
  { destruct (Z_le_gt_dec E (eS - en + 1)); [done|exfalso].
    assert (2 ^ (Xp + 2) ≤ 2 ^ (E + 2045)) as Hle
      by (apply Z.pow_le_mono_r; unfold Xp; lia).
    rewrite (Z.pow_add_r 2 Xp 2) in Hle by (unfold Xp; lia).
    rewrite (Z.pow_add_r 2 Xp 1) in HWup by (unfold Xp; lia).
    change (2 ^ 2) with 4 in Hle. change (2 ^ 1) with 2 in HWup.
    rewrite EW in HWup. nia. }
  rewrite Er in *.
  destruct (Z.leb_spec E 971) as [_|]; [|lia].
  apply valid_finite in Vp as (_ & _ & HnP).
  assert (-1074 < E) as HElow.
  { destruct (Z_lt_le_dec (-1074) E); [done|exfalso].
    assert (2 ^ (E + 2045) ≤ 2 ^ 971) as Hle by (apply Z.pow_le_mono_r; lia).
    assert (2 ^ 1993 ≤ 2 ^ Xp) as Hge
      by (apply Z.pow_le_mono_r; unfold Xp; lia).
    assert (2 ^ 1993 = 2 ^ 1022 * 2 ^ 971) as E2
      by (rewrite <- Z.pow_add_r by lia; done).
    assert (2 ^ 160 < 2 ^ 1022) as E3 by (apply Z.pow_lt_mono_r; lia).
    pose proof (pow2_pos 971 ltac:(lia)) as Hq.
    rewrite EW in Hlow. rewrite E2 in Hge.
    assert (2 ^ 53 * (Zpos mS * 2 ^ Xp)
            ≤ 2 ^ 54 * 2 ^ 53 * 2 ^ 53 * 2 ^ (E + 2045)) as Hlow'.
    { etransitivity; [exact Hlow|].
      change (2 ^ 54) with 18014398509481984.
      change (2 ^ 53) with 9007199254740992 in *.
      generalize dependent (2 ^ (E + 2045)). intros b. intros. nia. }
    change (2 ^ 54 * 2 ^ 53 * 2 ^ 53) with (2 ^ 160) in Hlow'.
    assert (2 ^ Xp ≤ 2 ^ 53 * (Zpos mS * 2 ^ Xp)) as H1.
    { change (2 ^ 53) with 9007199254740992 in *.
      change (2 ^ 52) with 4503599627370496 in *. nia. }
    assert (2 ^ 160 * 2 ^ (E + 2045) ≤ 2 ^ 160 * 2 ^ 971) as H2
      by (apply Z.mul_le_mono_nonneg_l; [apply Z.pow_nonneg; lia|done]).
    assert (2 ^ 160 * 2 ^ 971 < 2 ^ 1022 * 2 ^ 971) as H3
      by (apply Z.mul_lt_mono_pos_r; done).
    lia. }
  specialize (HnP ltac:(unfold SpecFloat.emin, emax, prec; lia)).
  (* the quotient of the span by the pixel size *)
  assert (-2045 ≤ div_exp (Zpos mS) eS (Zpos P) E) as Hc2
    by (unfold div_exp; rewrite fexp_eq; lia).
  rewrite (SFdiv_round mS P eS E (-2045) Hc2).
  replace (eS - E - -2045) with (eS - E + 2045) by lia.
  set (Xq := eS - E + 2045).
  destruct (div_lower (Zpos mS) (Zpos P) Xq) as [HWq _];
    [lia|lia|unfold Xq; lia|].
  pose proof (pow2_pos Xq ltac:(unfold Xq; lia)) as HpXq.
  set (tq := TQ (Zpos mS * 2 ^ Xq) (Zpos P)) in *.
  assert (0 ≤ tq) as Htq by (apply TQ_nonneg; nia).
  assert (weight tq (-2045) ≤ (2 * n + 1) * 2 ^ 2044) as HWqup.
  { pose proof (weight_exact (2 * n + 1) 2044 (-2045)
                  ltac:(change (2 ^ 53) with 9007199254740992; lia)
                  ltac:(lia) ltac:(lia)) as Hx.
    rewrite <- Hx. apply weight_mono. split; [done|].
    rewrite <- (TQ_exact ((2 * n + 1) * 2 ^ 2044) (Zpos P)) by lia.
    apply TQ_mono; [lia|].
    (* cancel the common powers of two *)
    assert (2 ^ Xp = 2 ^ (eS + 2045) * 2 ^ (- en)) as EXp.
    { rewrite <- Z.pow_add_r by lia. f_equal. unfold Xp. lia. }
    rewrite EW, EXp, Hval in Hlow.
    pose proof (pow2_pos (- en) ltac:(lia)) as Hg.
    pose proof (pow2_pos (eS + 2045) ltac:(lia)) as HY.
    pose proof (pow2_pos 2044 ltac:(lia)) as H44.
    assert (2 ^ 53 * (Zpos mS * 2 ^ (eS + 2045))
            ≤ (2 ^ 53 + 1) * (Zpos P * 2 ^ (E + 2045)) * n) as Hlow'.
    { apply (Z.mul_le_mono_pos_r _ _ (2 ^ (- en)) Hg). lia. }
    assert (2 * (Zpos mS * 2 ^ (eS + 2045))
            ≤ (2 * n + 1) * (Zpos P * 2 ^ (E + 2045))) as Hlow2.
    { change (2 ^ 53) with 9007199254740992 in *.
      generalize dependent (Zpos P * 2 ^ (E + 2045)). intros b.
      generalize dependent (Zpos mS * 2 ^ (eS + 2045)). intros a. intros.
      nia. }
    apply (Z.mul_le_mono_pos_r _ _ (2 ^ (E + 2045)) HpE).
    assert (2 ^ Xq * 2 ^ (E + 2045) = 2 ^ (eS + 2045) * (2 * 2 ^ 2044)) as EXq.
    { change (2 * 2 ^ 2044) with (2 ^ 1 * 2 ^ 2044).
      rewrite <- !Z.pow_add_r by (unfold Xq; lia). f_equal. unfold Xq. lia. }
    replace (Zpos mS * 2 ^ Xq * 2 ^ (E + 2045))
      with (Zpos mS * (2 ^ Xq * 2 ^ (E + 2045))) by lia.
    rewrite EXq.
    replace (Zpos mS * (2 ^ (eS + 2045) * (2 * 2 ^ 2044)))
      with (2 * (Zpos mS * 2 ^ (eS + 2045)) * 2 ^ 2044) by lia.
    replace ((2 * n + 1) * 2 ^ 2044 * Zpos P * 2 ^ (E + 2045))
      with ((2 * n + 1) * (Zpos P * 2 ^ (E + 2045)) * 2 ^ 2044) by lia.
    apply Z.mul_le_mono_nonneg_r; lia. }
  destruct (round_cases tq (-2045) Htq)
    as [[W0 _]|(mq & eq & EWq & Heq & Hmq & Erq)]; [lia|].
  replace (eq - -2045) with (eq + 2045) in EWq by lia.
  pose proof (pow2_pos (eq + 2045) ltac:(lia)) as Hpq.
  assert (eq ≤ 51) as Heq51.
  { destruct (Z_le_gt_dec eq 51); [done|exfalso].
    assert (2 ^ (52 + 2045) ≤ 2 ^ (eq + 2045)) as Hle
      by (apply Z.pow_le_mono_r; lia).
    assert (2 ^ (52 + 2045) = 2 ^ 53 * 2 ^ 2044) as E2
      by (rewrite <- Z.pow_add_r by lia; done).
    pose proof (pow2_pos 2044 ltac:(lia)) as H44.
    rewrite EWq in HWqup. rewrite E2 in Hle.
    change (2 ^ 53) with 9007199254740992 in *.
    generalize dependent (2 ^ (eq + 2045)). intros b.
    generalize dependent (2 ^ 2044). intros a. intros. nia. }
  rewrite Erq.
  destruct (Z.leb_spec eq 971) as [_|]; [|lia].
  destruct (Z.leb_spec eq 918) as [_|]; [|lia]. cbn [andb].
  apply Z.leb_le.
  assert (Float64.truncSF (S754_finite false mq eq)
          = Some (weight tq (-2045) / 2 ^ (- -2045))) as Ht.
  { apply trunc_weight; [lia|]. right. exists mq, eq.
    split; [done|]. split; [|lia]. rewrite EWq. reflexivity. }
  cbn [Float64.truncSF] in Ht. injection Ht as ->.
  change (- -2045) with 2045.
  pose proof (pow2_pos 2045 ltac:(lia)) as H45.
  pose proof (pow2_pos 2044 ltac:(lia)) as H44.
  assert (2 ^ 2045 = 2 * 2 ^ 2044) as E45
    by (change (2 * 2 ^ 2044) with (2 ^ 1 * 2 ^ 2044);
        rewrite <- Z.pow_add_r by lia; done).
  apply Z.lt_succ_r, Z.div_lt_upper_bound; [done|].
  rewrite E45. generalize dependent (2 ^ 2044). intros a. intros. nia.
Qed.

(** The east and the south edge of every raster side. *)
Lemma east_edge (n : Z) : 1 ≤ n ≤ maxSide → east_ok n = true.
Proof.
  intros Hn.
  by apply (far_edge _ _ 5349697138109074 (-49)); [reflexivity|reflexivity| |].
Qed.

Lemma south_edge (n : Z) : 1 ≤ n ≤ maxSide → south_ok n = true.
Proof.
  intros Hn.
  by apply (far_edge _ _ 4579115648152272 (-50)); [reflexivity|reflexivity| |].
Qed.

(** *** Operands between two positive floats *)

Lemma between_finite (lo x hi : float) (ml mh : positive) (el eh : Z) :
  Prim2SF lo = S754_finite false ml el →
  Prim2SF hi = S754_finite false mh eh →
  (lo <=? x)%float = true → (x <=? hi)%float = true →
  ∃ m e, Prim2SF x = S754_finite false m e.
Proof.
  intros El Eh H1 H2. rewrite leb_spec in H1, H2. rewrite El in H1. rewrite Eh in H2.
  destruct (Prim2SF x) as [s|s| |s m e]; try done.
  - by destruct s.
  - destruct s; [done|]. by exists m, e.
Qed.

Lemma le_val (x y : float) (mx my : positive) (ex ey : Z) :
  Prim2SF x = S754_finite false mx ex →
  Prim2SF y = S754_finite false my ey →
  (x <=? y)%float = true →
  val (Prim2SF x) ≤ val (Prim2SF y).
Proof.
  intros Ex Ey H. rewrite leb_spec in H.
  pose proof (Prim2SF_valid x) as Vx. pose proof (Prim2SF_valid y) as Vy.
  rewrite Ex in *. rewrite Ey in *. by apply SFleb_val.
Qed.

(** The quotient of a difference of positive floats by the pixel size. *)
Lemma sub_div_coord (a b p : float) (ma mb : positive) (ea eb : Z) :
  Prim2SF a = S754_finite false ma ea →
  Prim2SF b = S754_finite false mb eb →
  val (Prim2SF b) ≤ val (Prim2SF a) →
  Prim2SF (a - b) = round (4 * (val (Prim2SF a) - val (Prim2SF b))) (-1074) ∧
  Prim2SF ((a - b) / p) = coord (Prim2SF p) (val (Prim2SF a) - val (Prim2SF b)).
Proof.
  intros Ea Eb Hv.
  pose proof (Prim2SF_valid a) as Va. pose proof (Prim2SF_valid b) as Vb.
  unfold coord. rewrite div_spec, sub_spec. rewrite Ea in *. rewrite Eb in *.
  apply valid_finite in Va as (Ha & _). apply valid_finite in Vb as (Hb & _).
  unfold SpecFloat.emin, emax, prec in *.
  rewrite SFsub_round by (lia || done). done.
Qed.

Lemma clamp_small (z : Z) :
  0 ≤ z ≤ maxSide → Float64.clamp (Some z) = z.
Proof.
  intros H. unfold Float64.clamp, minInt64, maxInt64, maxSide in *.
  destruct (Z.leb_spec (- 2 ^ 63) z); [|lia].
  destruct (Z.leb_spec z (2 ^ 63 - 1)); [done|lia].
Qed.

(** Along one axis: the integer part of the quotient grows with the
    distance from the edge, from zero up to the raster side. *)
Lemma axis_mono (amax bmin a b a' b' p : float) (n : Z)
    (mA mB ma mb ma' mb' mF : positive) (eA eB ea eb ea' eb' eF : Z) :
  Prim2SF amax = S754_finite false mA eA →
  Prim2SF bmin = S754_finite false mB eB →
  Prim2SF a = S754_finite false ma ea →
  Prim2SF b = S754_finite false mb eb →
  Prim2SF a' = S754_finite false ma' ea' →
  Prim2SF b' = S754_finite false mb' eb' →
  Prim2SF (amax - bmin) = S754_finite false mF eF → eF ≤ 918 →
  0 ≤ val (Prim2SF a) - val (Prim2SF b) →
  val (Prim2SF a) - val (Prim2SF b) ≤ val (Prim2SF a') - val (Prim2SF b') →
  val (Prim2SF a') - val (Prim2SF b') ≤ val (Prim2SF amax) - val (Prim2SF bmin) →
  edge_ok (amax - bmin) p n = true → n ≤ maxSide →
  0 ≤ Float64.toInt ((a - b) / p) ∧
  Float64.toInt ((a - b) / p) ≤ Float64.toInt ((a' - b') / p) ∧
  Float64.toInt ((a' - b') / p) ≤ n.
Proof.
  intros EA EB Ea Eb Ea' Eb' EF HeF Hd0 Hd Hd' Hok Hn.
  destruct (sub_div_coord amax bmin p _ _ _ _ EA EB ltac:(lia)) as [Rmax Cmax].
  destruct (sub_div_coord a b p _ _ _ _ Ea Eb ltac:(lia)) as [_ C].
  destruct (sub_div_coord a' b' p _ _ _ _ Ea' Eb' ltac:(lia)) as [_ C'].
  unfold edge_ok in Hok. pose proof (Prim2SF_valid p) as Vp.
  destruct (Prim2SF p) as [| | |[] mp ep] eqn:Ep; try done.
  rewrite Cmax in Hok.
  destruct (coord _ _) as [| | |[] mQ eQ] eqn:EQ in Hok; try done.
  apply andb_true_iff in Hok as [HeQ HQ].
  apply Z.leb_le in HeQ, HQ.
  rewrite EF in Rmax. symmetry in Rmax.
  destruct (coord_mono mp ep _ mF mQ eF eQ Vp Rmax HeF EQ HeQ
              (val (Prim2SF a) - val (Prim2SF b))
              (val (Prim2SF a') - val (Prim2SF b')) ltac:(lia) Hd')
    as (z & z' & T & T' & Hz & Hz').
  unfold Float64.toInt. rewrite C, C', T, T'.
  rewrite !clamp_small by lia. lia.
Qed.

(** On a raster without columns or rows the pixel size is infinite and
    every quotient is zero. *)
Lemma axis_flat (amax bmin a b p : float)
    (mA mB ma mb mF : positive) (eA eB ea eb eF : Z) :
  Prim2SF amax = S754_finite false mA eA →
  Prim2SF bmin = S754_finite false mB eB →
  Prim2SF a = S754_finite false ma ea →
  Prim2SF b = S754_finite false mb eb →
  Prim2SF (amax - bmin) = S754_finite false mF eF → eF ≤ 918 →
  0 ≤ val (Prim2SF a) - val (Prim2SF b) →
  val (Prim2SF a) - val (Prim2SF b) ≤ val (Prim2SF amax) - val (Prim2SF bmin) →
  Prim2SF p = S754_infinity false →
  Float64.toInt ((a - b) / p) = 0.
Proof.
  intros EA EB Ea Eb EF HeF Hd0 Hd Ep.
  destruct (sub_div_coord amax bmin p _ _ _ _ EA EB ltac:(lia)) as [Rmax _].
  destruct (sub_div_coord a b p _ _ _ _ Ea Eb ltac:(lia)) as [_ C].
  rewrite EF in Rmax. symmetry in Rmax.
  unfold Float64.toInt. rewrite C. unfold coord. rewrite Ep.
  destruct (round_below (4 * (val (Prim2SF a) - val (Prim2SF b)))
              (4 * (val (Prim2SF amax) - val (Prim2SF bmin))) (-1074)
              mF eF ltac:(lia) Rmax HeF) as [_ [[-> _]|(q & e & -> & _)]];
    reflexivity.
Qed.

(** Three floats in their order between two positive floats. *)
Lemma chain_finite (lo x x' hi : float) (ml mh : positive) (el eh : Z) :
  Prim2SF lo = S754_finite false ml el →
  Prim2SF hi = S754_finite false mh eh →
  (lo <=? x)%float = true → (x <=? x')%float = true → (x' <=? hi)%float = true →
  ∃ m e m' e',
    Prim2SF x = S754_finite false m e ∧ Prim2SF x' = S754_finite false m' e' ∧
    val (Prim2SF lo) ≤ val (Prim2SF x) ∧
    val (Prim2SF x) ≤ val (Prim2SF x') ∧
    val (Prim2SF x') ≤ val (Prim2SF hi).
Proof.
  intros El Eh H1 H2 H3.
  pose proof H1 as L1. pose proof H2 as L2. pose proof H3 as L3.
  rewrite leb_spec in L1, L2, L3. rewrite El in L1. rewrite Eh in L3.
  destruct (Prim2SF x) as [s|s| |s m e] eqn:Ex; try done.
  { destruct s; [done|].
    destruct (Prim2SF x') as [s'|s'| |s' m' e']; try done. by destruct s'. }
  destruct s; [done|].
  destruct (Prim2SF x') as [s'|s'| |s' m' e'] eqn:Ex'; try done.
  { by destruct s'. }
  destruct s'; [done|].
  exists m, e, m', e'. split; [done|]. split; [done|].
  rewrite <- Ex, <- Ex'.
  split; [|split]; eapply le_val; eauto.
Qed.

Lemma lon0_finite : Prim2SF lon0 = S754_finite false 6342950892571890 (-49).
Proof. reflexivity. Qed.

Lemma lon1_finite : Prim2SF lon1 = S754_finite false 5846324015340482 (-48).
Proof. reflexivity. Qed.

Lemma lat0_finite : Prim2SF lat0 = S754_finite false 7341862645910311 (-47).
Proof. reflexivity. Qed.

Lemma lat1_finite : Prim2SF lat1 = S754_finite false 6769473189891277 (-47).
Proof. reflexivity. Qed.

Lemma width_finite :
  Prim2SF (lon1 - lon0) = S754_finite false 5349697138109074 (-49).
Proof. reflexivity. Qed.

Lemma height_finite :
  Prim2SF (lat0 - lat1) = S754_finite false 4579115648152272 (-50).
Proof. reflexivity. Qed.

Lemma no_columns :
  Prim2SF (lon1_sub_lon0 / Float64.ofInt 0) = S754_infinity false.
Proof. reflexivity. Qed.

Lemma no_rows :
  Prim2SF (lat0_sub_lat1 / Float64.ofInt 0) = S754_infinity false.
Proof. reflexivity. Qed.

Lemma pixelX_mono (w : Z) (lon lon' : float) :
  0 ≤ w ≤ maxSide →
  (lon0 <=? lon)%float = true → (lon <=? lon')%float = true →
  (lon' <=? lon1)%float = true →
  0 ≤ pixelX (lon1_sub_lon0 / Float64.ofInt w) lon ∧
  pixelX (lon1_sub_lon0 / Float64.ofInt w) lon
    ≤ pixelX (lon1_sub_lon0 / Float64.ofInt w) lon' ∧
  pixelX (lon1_sub_lon0 / Float64.ofInt w) lon' ≤ w.
Proof.
  intros Hw H1 H2 H3.
  destruct (chain_finite lon0 lon lon' lon1 _ _ _ _ lon0_finite lon1_finite H1 H2 H3)
    as (m & e & m' & e' & E & E' & V1 & V2 & V3).
  unfold pixelX.
  destruct (Z.eq_dec w 0) as [->|Hw0].
  { rewrite (axis_flat lon1 lon0 lon lon0 _ _ _ _ _ _ _ _ _ _ _
               lon1_finite lon0_finite E lon0_finite width_finite
               ltac:(lia) ltac:(lia) ltac:(lia) no_columns).
    rewrite (axis_flat lon1 lon0 lon' lon0 _ _ _ _ _ _ _ _ _ _ _
               lon1_finite lon0_finite E' lon0_finite width_finite
               ltac:(lia) ltac:(lia) ltac:(lia) no_columns).
    lia. }
  eapply (axis_mono lon1 lon0 lon lon0 lon' lon0);
    try first [exact lon0_finite | exact lon1_finite | exact E | exact E'
              | exact width_finite].
  - lia.
  - lia.
  - lia.
  - lia.
  - apply east_edge. lia.
  - lia.
Qed.

Lemma pixelY_mono (h : Z) (lat lat' : float) :
  0 ≤ h ≤ maxSide →
  (lat1 <=? lat)%float = true → (lat <=? lat')%float = true →
  (lat' <=? lat0)%float = true →
  0 ≤ pixelY (lat0_sub_lat1 / Float64.ofInt h) lat' ∧
  pixelY (lat0_sub_lat1 / Float64.ofInt h) lat'
    ≤ pixelY (lat0_sub_lat1 / Float64.ofInt h) lat ∧
  pixelY (lat0_sub_lat1 / Float64.ofInt h) lat ≤ h.
Proof.
  intros Hh H1 H2 H3.
  destruct (chain_finite lat1 lat lat' lat0 _ _ _ _ lat1_finite lat0_finite H1 H2 H3)
    as (m & e & m' & e' & E & E' & V1 & V2 & V3).
  unfold pixelY.
  destruct (Z.eq_dec h 0) as [->|Hh0].
  { rewrite (axis_flat lat0 lat1 lat0 lat _ _ _ _ _ _ _ _ _ _ _
               lat0_finite lat1_finite lat0_finite E height_finite
               ltac:(lia) ltac:(lia) ltac:(lia) no_rows).
    rewrite (axis_flat lat0 lat1 lat0 lat' _ _ _ _ _ _ _ _ _ _ _
               lat0_finite lat1_finite lat0_finite E' height_finite
               ltac:(lia) ltac:(lia) ltac:(lia) no_rows).
    lia. }
  eapply (axis_mono lat0 lat1 lat0 lat' lat0 lat);
    try first [exact lat0_finite | exact lat1_finite | exact E | exact E'
              | exact height_finite].
  - lia.
  - lia.
  - lia.
  - lia.
  - apply south_edge. lia.
  - lia.
Qed.

(** *** Truncation and floor *)



(* ===================================================================== *)
(** * The claims *)
(* ===================================================================== *)

(** C1 (the code departs from the claim).  A point is meant to be raining
    exactly when the averaged colour is not black, that is when
    [r + g + b > 0].  The program adds the three [uint8] channels in
    [uint8], so the test is on the sum modulo 256: on a picture that is
    olive (128, 128, 0) all over, the average at the pixel (4, 4) is
    (128, 128, 0), the sum wraps to 0, and the city on that pixel is left
    out of the published list although its colour is not black. *)
Theorem raining_test_wraps :
  (∀ r g b, isRaining r g b = true ↔ (r + g + b) mod 256 ≠ 0) ∧
  getAvgColor (Sample.raster Sample.olive) 4 4 = Some (128, 128, 0) ∧
  isRaining 128 128 0 = false ∧
  project 9 9 (Lat Sample.centre) (Lon Sample.centre) = (4, 4) ∧
  (CitiesWithRain ∘ snd) <$> classify (Sample.raster Sample.olive) Sample.cities
    = Some [].
Proof.
  split; [apply isRaining_mod|].
  repeat split; vm_compute; reflexivity.
Qed.

(** C10.  Sampling never faults: on every picture and at every pixel
    coordinate [getAvgColor] returns a colour, because a read outside the
    bounds of the picture yields the zero colour; a window that lies
    wholly outside the picture averages to (0, 0, 0), which the test
    rejects, and the locked section runs to its end with every such city
    left out of the published list. *)
Theorem sampling_total (bitmap : image.NRGBA) (h : Handler) :
  image.cloned bitmap →
  (∀ x y, ∃ r g b, getAvgColor bitmap x y = Some (r, g, b)) ∧
  (∀ x y, image.PointIn x y (image.Bounds bitmap) = false →
          image.NRGBAAt bitmap x y = Some color.zero) ∧
  (∀ x y, outside bitmap x y →
          getAvgColor bitmap x y = Some (0, 0, 0) ∧ isRaining 0 0 0 = false) ∧
  ∃ b' h',
    classify bitmap h = Some (b', h') ∧
    ∀ i city,
      Cities h !! i = Some city →
      outside bitmap (pixelX (lonPixelSize bitmap) (Lon city))
                     (pixelY (latPixelSize bitmap) (Lat city)) →
      i ∉ CitiesWithRain h'.
Proof.
  intros Hb. split; [intros x y; by apply getAvgColor_total|].
  split; [intros x y; apply NRGBAAt_outside|].
  split; [intros x y Hout; split; [by apply getAvgColor_outside|done]|].
  destruct (classify_total bitmap h Hb) as (b' & h' & Hc & _).
  exists b', h'. split; [done|].
  intros i city Hi Hout.
  destruct (classify_member _ _ _ _ _ _ Hc Hi)
    as (b_i & h_i & r & g & v & Epre & Eavg & Hmem & _).
  rewrite Hmem.
  apply visitCities_shape in Epre; [|done].
  rewrite (getAvgColor_outside b_i) in Eavg by (by eapply outside_shape).
  injection Eavg as <- <- <-. done.
Qed.

Lemma cloned_raster (c : color.NRGBA) : image.cloned (Sample.raster c).
Proof. unfold image.cloned. repeat split; vm_compute; done. Qed.

Lemma outside_away :
  outside (Sample.raster Sample.blue)
    (pixelX (lonPixelSize (Sample.raster Sample.blue)) (Lon Sample.away))
    (pixelY (latPixelSize (Sample.raster Sample.blue)) (Lat Sample.away)).
Proof.
  intros xx yy Hx Hy.
  replace (pixelX _ _) with (-10) by (vm_compute; reflexivity).
  replace (pixelY _ _) with (-17) by (vm_compute; reflexivity).
  unfold window in Hx. apply elem_of_seqZ in Hx.
  unfold add64. rewrite wrap64_small by lia.
  unfold image.PointIn. cbn.
  destruct (-10 + xx <? 9) eqn:E1; destruct (0 <=? -10 + xx) eqn:E2; cbn; try done.
  apply Z.leb_le in E2. lia.
Qed.

Lemma sampling_total_witness :
  image.cloned (Sample.raster Sample.blue) ∧
  ∃ b' h',
    classify (Sample.raster Sample.blue) Sample.cities = Some (b', h') ∧
    1%nat ∉ CitiesWithRain h'.
Proof.
  split; [apply cloned_raster|].
  destruct (sampling_total (Sample.raster Sample.blue) Sample.cities
              (cloned_raster Sample.blue)) as (_ & _ & _ & b' & h' & Hc & Hout).
  exists b', h'. split; [exact Hc|].
  apply (Hout 1%nat Sample.away); [reflexivity|apply outside_away].
Defined.

(** C3 (the code departs from the claim).  A failed download is meant to
    end the iteration with the published list untouched.  That is what
    happens when the server answers with a status other than 200, or when
    [http.Get] reports an error together with a response.  When the
    request itself fails, [http.Get] returns a nil response: the branch
    that handles the failure reads [resp.StatusCode] for its log line,
    and the process dies of a nil dereference instead of skipping. *)
Theorem failed_download (t : tick) (w : world) :
  files (swept t w) !! artifact (dateTxt (now t)) = None →
  (getResp t = None → ∃ w', cycle t w = Panics w') ∧
  (∀ resp, getResp t = Some resp →
           getErr t = true ∨ StatusCode resp ≠ 200 →
           ∃ w', cycle t w = Returns tt w' ∧
                 handler w' = handler w ∧
                 current (handler w') = current (handler w)).
Proof.
  intros Hmiss. split.
  - intros Hnil. rewrite (cycle_miss t w Hmiss).
    rewrite (downloadRadar_nil t _ _ Hnil). by eexists.
  - intros resp Hresp Hbad. rewrite (cycle_miss t w Hmiss).
    rewrite (downloadRadar_refused t _ _ resp Hresp Hbad).
    eexists. split; [done|]. cbn. rewrite swept_handler. done.
Qed.

Lemma failed_download_witness :
  files (swept (Sample.quiet Sample.noon None true (Sample.raster Sample.blue))
           Sample.start)
    !! artifact (dateTxt (now (Sample.quiet Sample.noon None true
                                 (Sample.raster Sample.blue)))) = None ∧
  ∃ w', cycle (Sample.quiet Sample.noon None true (Sample.raster Sample.blue))
          Sample.start = Panics w'.
Proof.
  split; [vm_compute; reflexivity|].
  apply (failed_download
           (Sample.quiet Sample.noon None true (Sample.raster Sample.blue))
           Sample.start); vm_compute; reflexivity.
Defined.




(** An iteration that downloads the picture and returns has stored the
    artifact of its bucket and has sent one request. *)
Lemma cycle_fetched (t : tick) (w w' : world) (resp : Response) :
  files (swept t w) !! artifact (dateTxt (now t)) = None →
  getResp t = Some resp → getErr t = false → StatusCode resp = 200 →
  cycle t w = Returns tt w' →
  files w' !! artifact (dateTxt (now t)) = Some (createTime t) ∧
  fetches (trace w') = S (fetches (trace w)).
Proof.
  intros Hmiss Hresp Herr Hst H.
  rewrite (cycle_miss t w Hmiss) in H.
  rewrite (downloadRadar_ok t _ _ resp Hresp Herr Hst) in H.
  destruct (decode t (Body resp)) as [bitmap|]; [|done].
  destruct (classify bitmap _) as [[b' h']|]; [|done].
  cbn in H.
  destruct (createFails t); [done|].
  destruct (encodeFails t); [done|].
  injection H as <-. split.
  - cbn. by rewrite lookup_insert_eq.
  - assert (∀ v : world, fetches (trace
              (if bool_decide (CitiesWithRain h' = [])
               then emit (EvLog LogNotRaining) v else v)) = fetches (trace v)) as E.
    { intros v. destruct (bool_decide _); [|done].
      cbn [emit trace]. rewrite fetches_snoc. cbn. lia. }
    cbn [setFiles emit trace]. rewrite fetches_snoc. cbn [isGet].
    rewrite E. cbn [setHandler emit trace].
    rewrite !fetches_snoc. cbn [isGet]. rewrite swept_fetches. lia.
Qed.

(** Every download sends one request, however it ends; an iteration
    sends one exactly when the artifact of its bucket is missing at the
    cache check. *)
Lemma downloadRadar_fetches (t : tick) (d : string) (w : world) :
  fetches (trace (ending (downloadRadar t d w))) = S (fetches (trace w)).
Proof.
  unfold downloadRadar.
  destruct (_ || _); destruct (getResp t) as [resp|]; cbn [ending emit trace];
    rewrite !fetches_snoc; cbn [isGet]; lia.
Qed.

Lemma cycle_fetches (t : tick) (w : world) :
  fetches (trace (ending (cycle t w)))
  = (fetches (trace w)
     + if bool_decide (is_Some (files (sweep t w) !! artifact (dateTxt (now t))))
       then 0 else 1)%nat.
Proof.
  assert (files (swept t w) !! artifact (dateTxt (now t))
          = files (sweep t w) !! artifact (dateTxt (now t))) as Esw
    by (by rewrite swept_lookup, sweep_lookup).
  rewrite <- Esw.
  assert (∀ (h' : Handler) (v : world), fetches (trace
            (if bool_decide (CitiesWithRain h' = [])
             then emit (EvLog LogNotRaining) v else v)) = fetches (trace v)) as E.
  { intros h' v. destruct (bool_decide _); [|done].
    cbn [emit trace]. rewrite fetches_snoc. cbn. lia. }
  destruct (files (swept t w) !! artifact (dateTxt (now t))) as [m|] eqn:Ef.
  - rewrite cycle_hit by (by rewrite Ef).
    rewrite bool_decide_eq_true_2 by done.
    cbn [ending emit trace]. rewrite fetches_snoc, swept_fetches. cbn. lia.
  - rewrite cycle_miss by done.
    rewrite bool_decide_eq_false_2 by (by intros [? ?]).
    pose proof (downloadRadar_fetches t (dateTxt (now t)) (swept t w)) as Hd.
    rewrite swept_fetches in Hd.
    destruct (downloadRadar t (dateTxt (now t)) (swept t w))
      as [[content|] w1|w1|w1]; cbn [ending] in Hd |- *; try lia.
    2:{ cbn [emit trace]. rewrite fetches_snoc. cbn. lia. }
    destruct (decode t content) as [bitmap|].
    2:{ cbn [ending emit trace]. rewrite fetches_snoc. cbn. lia. }
    destruct (classify bitmap (handler w1)) as [[b' h']|]; [|cbn; lia].
    cbn zeta.
    destruct (createFails t).
    { cbn [ending emit trace]. rewrite !fetches_snoc, E. cbn. lia. }
    destruct (encodeFails t); cbn [ending emit trace setFiles];
      rewrite !fetches_snoc, E; cbn; lia.
Qed.

(** C4 (amended).  The artifact of a bucket stops further work in that
    bucket: when a picture of the current bucket is in the directory at
    the cache check, the iteration returns without a request and without
    touching the handler; so of two iterations in one bucket, the first
    of which downloaded the picture and stored its artifact, only the
    first sends a request and the second leaves the published list as the
    first wrote it.  An iteration whose download is refused (the server
    answers with a status other than 200, or [http.Get] reports an error
    together with a response) stores nothing and returns, and the next
    iteration of the same bucket asks the server again.  An iteration
    whose request gets no response stores nothing either: the process
    dies in it after the one request, and no later iteration runs. *)
Theorem one_download_per_bucket :
  (∀ t w,
     is_Some (files (swept t w) !! artifact (dateTxt (now t))) →
     ∃ w', cycle t w = Returns tt w' ∧
           fetches (trace w') = fetches (trace w) ∧
           handler w' = handler w) ∧
  (∀ t1 t2 w w1 resp,
     files (swept t1 w) !! artifact (dateTxt (now t1)) = None →
     getResp t1 = Some resp → getErr t1 = false → StatusCode resp = 200 →
     cycle t1 w = Returns tt w1 →
     dateTxt (now t2) = dateTxt (now t1) →
     clockAt t2 (artifact (dateTxt (now t1))) - createTime t1 < time.Hour →
     ∃ w2, cycle t2 w1 = Returns tt w2 ∧
           fetches (trace w2) = S (fetches (trace w)) ∧
           handler w2 = handler w1 ∧
           current (handler w2) = current (handler w1)) ∧
  (∀ t1 t2 w resp,
     files (swept t1 w) !! artifact (dateTxt (now t1)) = None →
     getResp t1 = Some resp → getErr t1 = true ∨ StatusCode resp ≠ 200 →
     dateTxt (now t2) = dateTxt (now t1) →
     ∃ w1, cycle t1 w = Returns tt w1 ∧
           files w1 = files (swept t1 w) ∧
           fetches (trace w1) = S (fetches (trace w)) ∧
           fetches (trace (ending (cycle t2 w1))) = S (S (fetches (trace w)))) ∧
  (∀ t w,
     files (swept t w) !! artifact (dateTxt (now t)) = None →
     getResp t = None →
     ∃ w', cycle t w = Panics w' ∧
           files w' = files (swept t w) ∧
           fetches (trace w') = S (fetches (trace w)) ∧
           ∀ ts, BackgroundLoop (t :: ts) w = Panics w').
Proof.
  assert (∀ t w,
     is_Some (files (swept t w) !! artifact (dateTxt (now t))) →
     ∃ w', cycle t w = Returns tt w' ∧
           fetches (trace w') = fetches (trace w) ∧
           handler w' = handler w) as Hhit.
  { intros t w H. rewrite (cycle_hit t w H). eexists. split; [done|].
    cbn [emit trace handler]. rewrite fetches_snoc, swept_fetches, swept_handler.
    cbn. split; [lia|done]. }
  split; [exact Hhit|]. split; [|split].
  - intros t1 t2 w w1 resp Hmiss Hresp Herr Hst Hc1 Hkey Hage.
    destruct (cycle_fetched t1 w w1 resp Hmiss Hresp Herr Hst Hc1)
      as [Hfile Hfetch].
    destruct (Hhit t2 w1) as (w2 & Hc2 & Hf2 & Hh2).
    + rewrite Hkey, swept_lookup.
      unfold doomed. rewrite Hfile, Since_lt_Hour.
      assert ((clockAt t2 (artifact (dateTxt (now t1))) - createTime t1
                 <? time.Hour) = true) as -> by (apply Z.ltb_lt; lia).
      cbn. rewrite !andb_false_r. cbn. by eexists.
    + exists w2. split; [done|]. split; [congruence|]. split; [done|].
      by rewrite Hh2.
  - intros t1 t2 w resp Hmiss Hresp Hbad Hkey.
    rewrite (cycle_miss t1 w Hmiss).
    rewrite (downloadRadar_refused t1 _ _ resp Hresp Hbad).
    eexists. split; [done|]. split; [done|].
    assert (∀ v : world,
              fetches (trace
                (emit (EvLog LogSkipping)
                   (emit (EvLog (LogCannotDownloadFile (StatusCode resp)))
                      (emit (EvGet (dateTxt (now t1)))
                         (emit (EvLog (LogDownloading (dateTxt (now t1)))) v)))))
              = S (fetches (trace v))) as Hone.
    { intros v. cbn [emit trace]. rewrite !fetches_snoc. cbn. lia. }
    split; [by rewrite Hone, swept_fetches|].
    rewrite cycle_fetches, Hone, swept_fetches, Hkey, sweep_lookup.
    cbn [emit files]. rewrite Hmiss.
    rewrite bool_decide_eq_false_2; [lia|].
    intros [m Hm]. by destruct (_ && _).
  - intros t w Hmiss Hnil.
    rewrite (cycle_miss t w Hmiss), (downloadRadar_nil t _ _ Hnil).
    eexists. split; [done|]. split; [done|]. split.
    + cbn [emit trace]. rewrite !fetches_snoc, swept_fetches. cbn. lia.
    + intros ts. cbn [BackgroundLoop].
      by rewrite (cycle_miss t w Hmiss), (downloadRadar_nil t _ _ Hnil).
Qed.

Lemma one_download_per_bucket_witness :
  cycle Sample.first Sample.start = Returns tt Sample.afterFirst ∧
  ∃ w2,
    cycle Sample.second Sample.afterFirst = Returns tt w2 ∧
    fetches (trace w2) = 1%nat ∧
    handler w2 = handler Sample.afterFirst.
Proof.
  split; [vm_compute; reflexivity|].
  destruct (proj1 (proj2 one_download_per_bucket) Sample.first Sample.second
              Sample.start Sample.afterFirst (mkResponse 200 [137; 80; 78; 71]))
    as (w2 & H2 & Hf & Hh & _); try (vm_compute; reflexivity).
  exists w2. split; [exact H2|]. split; [exact Hf|exact Hh].
Defined.

(** C4, as stated, fails: two iterations of one bucket whose downloads
    are refused send two requests. *)
Lemma two_requests_in_one_bucket :
  dateTxt Sample.noon = dateTxt Sample.noon' ∧
  ∃ w,
    BackgroundLoop
      [Sample.quiet Sample.noon Sample.notFound false (Sample.raster Sample.blue);
       Sample.quiet Sample.noon' Sample.notFound false (Sample.raster Sample.blue)]
      Sample.start = Returns tt w ∧
    fetches (trace w) = 2%nat.
Proof.
  split; [vm_compute; reflexivity|].
  eexists. split; vm_compute; reflexivity.
Qed.

(** Whatever an iteration does after the janitor, it leaves every file
    but the artifact of its bucket as the janitor left it. *)
Lemma cycle_files (t : tick) (w : world) (name : string) :
  name ≠ artifact (dateTxt (now t)) →
  files (ending (cycle t w)) !! name = files (sweep t w) !! name.
Proof.
  intros Hne.
  assert (files (swept t w) !! name = files (sweep t w) !! name) as <-.
  { by rewrite swept_lookup, sweep_lookup. }
  destruct (files (swept t w) !! artifact (dateTxt (now t))) as [m|] eqn:Ef.
  - rewrite cycle_hit by (by rewrite Ef). done.
  - rewrite cycle_miss by done. unfold downloadRadar.
    destruct (_ || _); destruct (getResp t) as [resp|]; try done.
    cbn.
    destruct (decode t (Body resp)) as [bitmap|]; [|done].
    destruct (classify bitmap _) as [[b' h']|]; [|done].
    cbn zeta.
    destruct (createFails t).
    { cbn. by destruct (bool_decide _). }
    destruct (encodeFails t); cbn; rewrite lookup_insert_ne by done;
      by destruct (bool_decide _).
Qed.

(** C8 (amended).  At the start of every iteration, before the cache
    check, the janitor removes the pictures that are at least one hour
    old: a listed file goes exactly when its name has the prefix of the
    artifacts, its [Info] and its [Remove] succeed, and the clock is an
    hour or more past its modification time; every other file stays as
    it is.  A picture modified 30 minutes ago stays, one modified 90
    minutes ago goes.  A [Remove] that fails is logged, the file stays,
    and the iteration goes on: whatever happens later, the files other
    than the artifact of the current bucket are as the janitor left
    them. *)
Theorem janitor_removes_hour_old (t : tick) (w : world) (name : string)
    (modTime : Z) :
  files w !! name = Some modTime →
  name ∈ dirEntries t →
  (files (sweep t w) !! name = None ↔
     HasPrefix name artifactPrefix = true ∧ infoFails t name = false ∧
     removeFails t name = false ∧ time.Hour ≤ clockAt t name - modTime) ∧
  (files (sweep t w) !! name ≠ None → files (sweep t w) !! name = Some modTime) ∧
  (clockAt t name - modTime = 30 * time.Minute →
     files (sweep t w) !! name = Some modTime) ∧
  (HasPrefix name artifactPrefix = true → infoFails t name = false →
   removeFails t name = false → clockAt t name - modTime = 90 * time.Minute →
     files (sweep t w) !! name = None) ∧
  (HasPrefix name artifactPrefix = true → infoFails t name = false →
   removeFails t name = true → time.Hour ≤ clockAt t name - modTime →
     EvLog (LogError "Remove" name) ∈ trace (sweep t w) ∧
     files (sweep t w) !! name = Some modTime) ∧
  (name ≠ artifact (dateTxt (now t)) →
     files (ending (cycle t w)) !! name = files (sweep t w) !! name).
Proof.
  intros Hf Hin.
  assert (files (sweep t w) !! name
          = if HasPrefix name artifactPrefix && negb (infoFails t name) &&
               negb (removeFails t name) &&
               negb (clockAt t name - modTime <? time.Hour)
            then None else Some modTime) as E.
  { rewrite sweep_lookup. unfold doomed.
    rewrite Hf, Since_lt_Hour, (bool_decide_eq_true_2 _ Hin), andb_true_r. done. }
  pose proof (Z.ltb_spec (clockAt t name - modTime) time.Hour) as Hlt.
  split; [|split; [|split; [|split; [|split]]]].
  - rewrite E.
    destruct (HasPrefix name artifactPrefix), (infoFails t name),
      (removeFails t name), Hlt; cbn; split; try discriminate; try done;
      intros (? & ? & ? & ?); try discriminate; lia.
  - rewrite E. by destruct (_ && _).
  - intros Hage. rewrite E. unfold time.Hour, time.Minute in *.
    destruct Hlt; [|lia]. by rewrite !andb_false_r.
  - intros Hp Hi Hr Hage. rewrite E, Hp, Hi, Hr.
    unfold time.Hour, time.Minute in *. destruct Hlt; [lia|done].
  - intros Hp Hi Hr Hage. split.
    + by apply (foldl_sweepEntry_logs t (dirEntries t) w name modTime).
    + rewrite E, Hr. by rewrite andb_false_r.
  - apply cycle_files.
Qed.

Lemma janitor_removes_hour_old_witness :
  files (Sample.attic 0) !! Sample.oldName = Some 0 ∧
  Sample.oldName ∈ dirEntries (Sample.listing (90 * time.Minute) false) ∧
  files (sweep (Sample.listing (90 * time.Minute) false) (Sample.attic 0))
    !! Sample.oldName = None.
Proof.
  split; [reflexivity|]. split; [left|].
  destruct (janitor_removes_hour_old (Sample.listing (90 * time.Minute) false)
              (Sample.attic 0) Sample.oldName 0) as (_ & _ & _ & H90 & _);
    [reflexivity|left|].
  apply H90; reflexivity.
Defined.

(** C8, as stated, fails: a picture whose age is one hour to the
    nanosecond does not exceed the retention, and is removed. *)
Lemma hour_old_is_removed :
  files (sweep (Sample.listing time.Hour false) (Sample.attic 0))
    !! Sample.oldName = None ∧
  ¬ (time.Hour < clockAt (Sample.listing time.Hour false) Sample.oldName - 0).
Proof. split; [vm_compute; reflexivity|]. cbn. lia. Qed.

(** ** The lock *)

Section Atomic.
Variables (h0 : Handler) (bitmap : image.NRGBA).

(** The handler is as the locked section leaves it. *)
Definition final (h : Handler) : Prop :=
  ∃ b', classify bitmap h0 = Some (b', h).

(** What a caller may receive: the list as it was before the writer
    took the lock, or as it is after the writer released it. *)
Definition whole (out : list City) : Prop :=
  out = current h0 ∨ ∃ h1, final h1 ∧ out = current h1.

Definition winv (s : shared) (w : wpc) : Prop :=
  match w with
  | WBefore b | WReset b => b = bitmap ∧ hdl s = h0
  | WLoop lonPx latPx b rest =>
      visitCities lonPx latPx (b, hdl s) rest = classify bitmap h0
  | WUnlock | WDone => final (hdl s)
  | WDead => True
  end.

Definition rinv (s : shared) (r : rpc) : Prop :=
  match r with
  | RBefore | RLocked => True
  | REncode rest out =>
      out ++ omap (λ i, Cities (hdl s) !! i) rest = current (hdl s)
  | RDone out => whole out
  end.

Definition inv (c : config) : Prop :=
  let '(s, w, rs) := c in
  writing s = wlocked w ∧
  reading s = locked_count rs ∧
  (writing s = true → reading s = 0%nat) ∧
  winv s w ∧
  Forall (rinv s) rs.

Lemma locked_count_insert (rs : list rpc) (k : nat) (r r' : rpc) :
  rs !! k = Some r →
  (locked_count (<[k := r']> rs) + (if rlocked r then 1 else 0)
   = locked_count rs + (if rlocked r' then 1 else 0))%nat.
Proof.
  revert k. induction rs as [|a rs IH]; intros k Hk; [done|].
  destruct k as [|k]; cbn in Hk.
  - injection Hk as ->. unfold locked_count. cbn.
    destruct (rlocked r), (rlocked r'); cbn; lia.
  - specialize (IH k Hk). unfold locked_count in *. cbn.
    destruct (rlocked a); cbn; [f_equal|]; exact IH.
Qed.

Lemma locked_count_pos (rs : list rpc) (k : nat) (r : rpc) :
  rs !! k = Some r → rlocked r = true → (0 < locked_count rs)%nat.
Proof.
  revert k. induction rs as [|a rs IH]; intros k Hk Hr; [done|].
  destruct k as [|k]; cbn in Hk; unfold locked_count in *; cbn.
  - injection Hk as ->. rewrite Hr. cbn. lia.
  - specialize (IH k Hk Hr). destruct (rlocked a); cbn; lia.
Qed.

(** With no read lock held, what the readers hold does not depend on
    the handler. *)
Lemma rinv_unlocked (s s' : shared) (rs : list rpc) :
  locked_count rs = 0%nat → Forall (rinv s) rs → Forall (rinv s') rs.
Proof.
  induction rs as [|r rs IH]; intros Hc H; [done|].
  apply Forall_cons in H as [Hr Hrs].
  unfold locked_count in *. cbn in Hc.
  destruct r; cbn in Hc; try discriminate; apply Forall_cons; auto.
Qed.

Lemma rinv_same_hdl (s s' : shared) (rs : list rpc) :
  hdl s' = hdl s → Forall (rinv s) rs → Forall (rinv s') rs.
Proof.
  intros E H. eapply Forall_impl; [exact H|].
  intros r. destruct r; cbn; by rewrite ?E.
Qed.

Lemma inv_init (n : nat) : inv (init h0 bitmap n).
Proof.
  unfold init, inv. cbn. repeat split; try done.
  - induction n as [|n IH]; [done|]. exact IH.
  - apply Forall_replicate. done.
Qed.

Local Ltac split_inv := split; [|split; [|split; [|split]]].

Lemma inv_wstep (s s' : shared) (w w' : wpc) (rs : list rpc) :
  wstep (s, w) (s', w') → inv (s, w, rs) → inv (s', w', rs).
Proof.
  intros Hstep (Hw & Hr & Hex & Hwi & Hri).
  inversion Hstep; subst; cbn in *.
  - split_inv; [done..|by apply (rinv_same_hdl s)].
  - rewrite <- Hw in *. specialize (Hex eq_refl).
    destruct Hwi as [-> Hh].
    split_inv; [done|done|done| |].
    + cbn. rewrite Hh. done.
    + apply (rinv_unlocked s); [congruence|done].
  - rewrite <- Hw in *. specialize (Hex eq_refl).
    split_inv; [done|done|done| |].
    + cbn. rewrite visitCities_cons in Hwi.
      match goal with H : visitCity _ _ _ _ = Some _ |- _ => rewrite H in Hwi end.
      exact Hwi.
    + apply (rinv_unlocked s); [congruence|done].
  - split_inv; done.
  - split_inv; [done..| |done]. by eexists.
  - split_inv; done.
  - split_inv; [done..|by apply (rinv_same_hdl s)].
Qed.

Lemma inv_rstep (s s' : shared) (w : wpc) (rs : list rpc) (k : nat) (r r' : rpc) :
  rs !! k = Some r → rstep (s, r) (s', r') →
  inv (s, w, rs) → inv (s', w, <[k := r']> rs).
Proof.
  intros Hk Hstep (Hw & Hr & Hex & Hwi & Hri).
  pose proof (locked_count_insert rs k r r' Hk) as Hcount.
  pose proof (Forall_lookup_1 _ _ _ _ Hri Hk) as Hrk.
  inversion Hstep; subst; cbn in *.
  - split_inv.
    + done.
    + lia.
    + congruence.
    + by destruct w.
    + apply Forall_insert; [by apply (rinv_same_hdl s)|done].
  - split_inv; [done|lia|done|done|].
    apply Forall_insert; [done|]. done.
  - split_inv; [done|lia|done|done|].
    apply Forall_insert; [done|]. cbn.
    rewrite <- Hrk. cbn. rewrite <- app_assoc. f_equal.
    by destruct (Cities (hdl s') !! i).
  - assert (0 < locked_count rs)%nat as Hpos
      by (by eapply locked_count_pos).
    assert (writing s = false) as Hfree.
    { destruct (writing s); [|done]. specialize (Hex eq_refl). lia. }
    split_inv.
    + done.
    + lia.
    + rewrite Hfree. done.
    + by destruct w.
    + apply Forall_insert; [by apply (rinv_same_hdl s)|].
      cbn. rewrite app_nil_r in Hrk. rewrite Hrk.
      rewrite Hfree in Hw. destruct w; try done; cbn in Hwi.
      * left. by destruct Hwi as [_ ->].
      * right. by exists (hdl s).
Qed.

Lemma inv_step (c c' : config) : step c c' → inv c → inv c'.
Proof.
  intros Hstep. inversion Hstep; subst.
  - by apply inv_wstep.
  - by eapply inv_rstep.
Qed.

Lemma inv_rtc (c c' : config) : rtc step c c' → inv c → inv c'.
Proof. induction 1; eauto using inv_step. Qed.

End Atomic.

(** C9.  The published list is replaced atomically for the readers.  For
    every interleaving of the steps of any number of [HandleGet] calls
    with the steps of one pass of the writer through its locked section,
    every call that has returned received either the list as it stood
    before the writer took the lock or the list the writer left when it
    released it, whole; and a call that is still encoding is encoding
    one of these two lists.  No call sees a list the writer is still
    filling. *)
Theorem readers_see_whole_lists (h0 : Handler) (bitmap : image.NRGBA) (n : nat)
    (s : shared) (w : wpc) (rs : list rpc) :
  rtc step (init h0 bitmap n) (s, w, rs) →
  (∀ k out, rs !! k = Some (RDone out) → whole h0 bitmap out) ∧
  (∀ k rest out, rs !! k = Some (REncode rest out) →
     ∃ more, whole h0 bitmap (out ++ more)).
Proof.
  intros Hrun.
  destruct (inv_rtc h0 bitmap _ _ Hrun (inv_init h0 bitmap n))
    as (Hw & Hr & Hex & Hwi & Hri).
  split.
  - intros k out Hk. exact (Forall_lookup_1 _ _ _ _ Hri Hk).
  - intros k rest out Hk.
    pose proof (Forall_lookup_1 _ _ _ _ Hri Hk) as Hrk. cbn in Hrk.
    exists (omap (λ i, Cities (hdl s) !! i) rest). rewrite Hrk.
    assert (0 < locked_count rs)%nat as Hpos by (by eapply locked_count_pos).
    assert (writing s = false) as Hfree.
    { destruct (writing s); [|done]. specialize (Hex eq_refl). lia. }
    rewrite Hfree in Hw. destruct w; try done; cbn in Hwi.
    + left. by destruct Hwi as [_ ->].
    + right. by exists (hdl s).
Qed.

Lemma readers_see_whole_lists_witness :
  ∃ s w,
    rtc step (init Sample.cities (Sample.raster Sample.blue) 2)
      (s, w, [RDone []; RDone [setColor Sample.centre 0 108 192]]) ∧
    whole Sample.cities (Sample.raster Sample.blue) [] ∧
    whole Sample.cities (Sample.raster Sample.blue)
      [setColor Sample.centre 0 108 192].
Proof.
  assert (∃ s w,
    rtc step (init Sample.cities (Sample.raster Sample.blue) 2)
      (s, w, [RDone []; RDone [setColor Sample.centre 0 108 192]]))
    as (s & w & Hrun).
  { eexists _, _. unfold init. cbn [replicate].
    (* the first call is served before the writer locks *)
    eapply rtc_l; [eapply (step_reader _ _ _ 0); [reflexivity|apply r_lock; reflexivity]|].
    eapply rtc_l; [eapply (step_reader _ _ _ 0); [reflexivity|apply r_slice]|].
    eapply rtc_l; [eapply (step_reader _ _ _ 0); [reflexivity|apply r_unlock]|].
    (* the writer goes through its locked section *)
    eapply rtc_l; [apply step_writer; apply w_lock; reflexivity|].
    eapply rtc_l; [apply step_writer; apply w_reset|].
    eapply rtc_l; [apply step_writer; eapply w_visit; vm_compute; reflexivity|].
    eapply rtc_l; [apply step_writer; eapply w_visit; vm_compute; reflexivity|].
    eapply rtc_l; [apply step_writer; apply w_persist|].
    eapply rtc_l; [apply step_writer; apply w_unlock|].
    (* the second call is served after the writer unlocked *)
    eapply rtc_l; [eapply (step_reader _ _ _ 1); [reflexivity|apply r_lock; reflexivity]|].
    eapply rtc_l; [eapply (step_reader _ _ _ 1); [reflexivity|apply r_slice]|].
    eapply rtc_l; [eapply (step_reader _ _ _ 1); [reflexivity|apply r_city]|].
    eapply rtc_l; [eapply (step_reader _ _ _ 1); [reflexivity|apply r_unlock]|].
    apply rtc_refl. }
  exists s, w. split; [exact Hrun|].
  destruct (readers_see_whole_lists _ _ _ _ _ _ Hrun) as [Hdone _].
  split; [apply (Hdone 0%nat)|apply (Hdone 1%nat)]; reflexivity.
Defined.

(** ** The lock at the exit *)

Section Fatal.
Variables (h0 : Handler) (bitmap : image.NRGBA).

(** Until the writer releases the lock, a call that has returned
    received the list as it stood before the writer took the lock. *)
Definition served_before (c : config) : Prop :=
  let '(s, w, rs) := c in
  w ≠ WDone → ∀ k out, rs !! k = Some (RDone out) → out = current h0.

Lemma served_before_init (n : nat) : served_before (init h0 bitmap n).
Proof.
  intros _ k out Hk. apply lookup_replicate in Hk as [? _]. done.
Qed.

Lemma served_before_step (c c' : config) :
  step c c' → inv h0 bitmap c → served_before c → served_before c'.
Proof.
  intros Hstep Hinv Hold.
  inversion Hstep as [s w rs s' w' Hws|s w rs k r s' r' Hk Hrs]; subst;
    destruct Hinv as (Hw & Hr & Hex & Hwi & Hri).
  - intros _ k out Hk. apply (Hold ltac:(intros ->; inversion Hws) k out Hk).
  - intros Hne k' out Hk'.
    destruct (decide (k = k')) as [<-|Hkk].
    2:{ rewrite list_lookup_insert_ne in Hk' by done. by apply (Hold Hne k'). }
    rewrite list_lookup_insert_eq in Hk' by (by eapply lookup_lt_Some).
    injection Hk' as ->.
    inversion Hrs; subst.
    assert (0 < locked_count rs)%nat as Hpos by (by eapply locked_count_pos).
    assert (writing s = false) as Hfree.
    { destruct (writing s); [|done]. specialize (Hex eq_refl). lia. }
    pose proof (Forall_lookup_1 _ _ _ _ Hri Hk) as Hrk. cbn in Hrk.
    rewrite app_nil_r in Hrk. rewrite Hrk.
    rewrite Hfree in Hw. destruct w; try done. cbn in Hwi.
    by destruct Hwi as [_ ->].
Qed.

Lemma served_before_rtc (c c' : config) :
  rtc step c c' → inv h0 bitmap c → served_before c →
  inv h0 bitmap c' ∧ served_before c'.
Proof.
  induction 1 as [|c c1 c' Hs _ IH]; [done|]. intros Hi Ho.
  apply IH; [by eapply inv_step|by eapply served_before_step].
Qed.

(** With no read lock held every call stands before [RLock] or has
    returned. *)
Lemma unlocked_readers (rs : list rpc) (k : nat) (r : rpc) :
  locked_count rs = 0%nat → rs !! k = Some r →
  r = RBefore ∨ ∃ out, r = RDone out.
Proof.
  intros Hc Hk.
  destruct (rlocked r) eqn:E.
  { pose proof (locked_count_pos rs k r Hk E). lia. }
  destruct r; try done; [by left|right; by eexists].
Qed.

(** Once the writer is dead the lock stays taken: the calls that have
    returned were served before the writer took it, no call is being
    served, and nothing moves any more. *)
Lemma dead_end (n : nat) (s : shared) (rs : list rpc) :
  rtc step (init h0 bitmap n) (s, WDead, rs) →
  writing s = true ∧
  (∀ k r, rs !! k = Some r → r = RBefore ∨ r = RDone (current h0)) ∧
  ¬ ∃ c', step (s, WDead, rs) c'.
Proof.
  intros Hrun.
  destruct (served_before_rtc _ _ Hrun (inv_init h0 bitmap n)
              (served_before_init n)) as [(Hw & Hr & Hex & _ & _) Hold].
  cbn in Hw. specialize (Hex Hw). rewrite Hex in Hr. symmetry in Hr.
  assert (∀ k r, rs !! k = Some r → r = RBefore ∨ r = RDone (current h0)) as Hrs.
  { intros k r Hk.
    destruct (unlocked_readers rs k r Hr Hk) as [->|[out ->]]; [by left|].
    right. f_equal. by apply (Hold ltac:(done) k). }
  split; [done|]. split; [done|].
  intros [c' Hstep].
  inversion Hstep as [? ? ? ? ? Hws|? ? ? k r ? ? Hk Hrst]; subst.
  - inversion Hws.
  - destruct (Hrs k r Hk) as [->| ->]; inversion Hrst; congruence.
Qed.

(** No visit of the loop panics when the picture is a clone. *)
Lemma visits_total (n : nat) (s : shared) (lonPx latPx : float)
    (b : image.NRGBA) (i : nat) (rest : list nat) (rs : list rpc) :
  image.cloned bitmap →
  rtc step (init h0 bitmap n) (s, WLoop lonPx latPx b (i :: rest), rs) →
  is_Some (visitCity lonPx latPx (b, hdl s) i).
Proof.
  intros Hb Hrun.
  destruct (inv_rtc h0 bitmap _ _ Hrun (inv_init h0 bitmap n))
    as (_ & _ & _ & Hwi & _).
  cbn in Hwi. destruct (classify_total bitmap h0 Hb) as (b' & h' & E & _).
  rewrite E, visitCities_cons in Hwi.
  destruct (visitCity lonPx latPx (b, hdl s) i); [by eexists|done].
Qed.

(** The writer's way through the loop. *)
Lemma loop_run (lonPx latPx : float) (rs : list rpc) (b' : image.NRGBA)
    (h' : Handler) (rest : list nat) (s : shared) (b : image.NRGBA) :
  visitCities lonPx latPx (b, hdl s) rest = Some (b', h') →
  rtc step (s, WLoop lonPx latPx b rest, rs)
           (setHdl h' s, WLoop lonPx latPx b' [], rs).
Proof.
  revert s b. induction rest as [|i rest IH]; intros s b H.
  - injection H as <- <-. destruct s. apply rtc_refl.
  - rewrite visitCities_cons in H.
    destruct (visitCity lonPx latPx (b, hdl s) i) as [[b1 h1]|] eqn:E; [|done].
    eapply rtc_l; [apply step_writer; eapply w_visit; exact E|].
    apply (IH (setHdl h1 s) b1 H).
Qed.

(** The run in which no call is served and the writer dies after the
    loop: the handler holds the new list and the lock is taken. *)
Lemma fatal_run (n : nat) (b' : image.NRGBA) (h' : Handler) :
  classify bitmap h0 = Some (b', h') →
  rtc step (init h0 bitmap n) (mkShared h' true 0, WDead, replicate n RBefore).
Proof.
  intros Hc. unfold init.
  eapply rtc_l; [apply step_writer; apply w_lock; reflexivity|].
  eapply rtc_l; [apply step_writer; apply w_reset|].
  etrans; [apply (loop_run _ _ _ b' h'); exact Hc|].
  apply rtc_once, step_writer, w_fatal.
Qed.

End Fatal.

(** C7 (amended).  When the picture cannot be written, because
    [os.Create] or [imaging.Encode] fails, the program calls [log.Fatal]:
    the error is logged and the process exits, and no later iteration
    runs.  The list computed in this iteration is in the handler at the
    exit, and it is never served: [log.Fatal] runs no deferred call, so
    the write lock is still held.  In every interleaving of the locked
    section with any number of [HandleGet] calls no visit of the loop
    panics, so the writer dies only at [log.Fatal]; and once it is dead
    every call either has not passed [RLock] or has returned the list as
    it stood before the iteration, and no call can move. *)
Theorem persist_failure_exits (t : tick) (w : world) (resp : Response)
    (bitmap : image.NRGBA) :
  files (swept t w) !! artifact (dateTxt (now t)) = None →
  getResp t = Some resp → getErr t = false → StatusCode resp = 200 →
  decode t (Body resp) = Some bitmap → image.cloned bitmap →
  createFails t = true ∨ encodeFails t = true →
  ∃ w' what,
    cycle t w = Exits w' ∧
    last (trace w') = Some (EvLog (LogFatal what)) ∧
    (∀ ts, BackgroundLoop (t :: ts) w = Exits w') ∧
    (∃ b', classify bitmap (handler w) = Some (b', handler w')) ∧
    (∀ n, rtc step (init (handler w) bitmap n)
            (mkShared (handler w') true 0, WDead, replicate n RBefore)) ∧
    (∀ n s lonPx latPx b i rest rs,
       rtc step (init (handler w) bitmap n)
         (s, WLoop lonPx latPx b (i :: rest), rs) →
       is_Some (visitCity lonPx latPx (b, hdl s) i)) ∧
    (∀ n s rs,
       rtc step (init (handler w) bitmap n) (s, WDead, rs) →
       writing s = true ∧
       (∀ k r, rs !! k = Some r →
               r = RBefore ∨ r = RDone (current (handler w))) ∧
       ¬ ∃ c', step (s, WDead, rs) c').
Proof.
  intros Hmiss Hresp Herr Hst Hdec Hb Hfail.
  destruct (classify_total bitmap (handler w) Hb) as (b' & h' & Hc & _).
  assert (∃ w' what, cycle t w = Exits w' ∧
                   last (trace w') = Some (EvLog (LogFatal what)) ∧
                   handler w' = h') as (w' & what & E & L & Hh).
  { rewrite (cycle_miss t w Hmiss).
    rewrite (downloadRadar_ok t _ _ resp Hresp Herr Hst), Hdec.
    cbn [emit handler]. rewrite swept_handler, Hc. cbn zeta.
    destruct (createFails t).
    - eexists _, _. split; [done|]. split; [cbn [emit trace]; apply last_snoc|].
      cbn [emit handler]. by destruct (bool_decide _).
    - destruct Hfail as [E | ->]; [done|].
      eexists _, _. split; [done|]. split; [cbn [emit trace]; apply last_snoc|].
      cbn [emit setFiles handler]. by destruct (bool_decide _). }
  exists w', what. split; [done|]. split; [done|].
  split; [intros ts; cbn; by rewrite E|].
  rewrite Hh.
  split; [by exists b'|].
  split; [intros n; by apply (fatal_run _ _ n b')|].
  split.
  - intros n s lonPx latPx b i rest rs Hrun. by eapply visits_total.
  - intros n s rs Hrun. by eapply dead_end.
Qed.

Lemma persist_failure_exits_witness :
  ∃ w' what,
    cycle (Sample.diskFull Sample.noon Sample.ok (Sample.raster Sample.blue))
      Sample.start = Exits w' ∧
    last (trace w') = Some (EvLog (LogFatal what)) ∧
    (∀ ts, BackgroundLoop
             (Sample.diskFull Sample.noon Sample.ok (Sample.raster Sample.blue)
                :: ts)
             Sample.start = Exits w') ∧
    (∃ b', classify (Sample.raster Sample.blue) (handler Sample.start)
           = Some (b', handler w')) ∧
    (∀ n, rtc step (init (handler Sample.start) (Sample.raster Sample.blue) n)
            (mkShared (handler w') true 0, WDead, replicate n RBefore)) ∧
    (∀ n s lonPx latPx b i rest rs,
       rtc step (init (handler Sample.start) (Sample.raster Sample.blue) n)
         (s, WLoop lonPx latPx b (i :: rest), rs) →
       is_Some (visitCity lonPx latPx (b, hdl s) i)) ∧
    (∀ n s rs,
       rtc step (init (handler Sample.start) (Sample.raster Sample.blue) n)
         (s, WDead, rs) →
       writing s = true ∧
       (∀ k r, rs !! k = Some r →
               r = RBefore ∨ r = RDone (current (handler Sample.start))) ∧
       ¬ ∃ c', step (s, WDead, rs) c').
Proof.
  apply (persist_failure_exits
           (Sample.diskFull Sample.noon Sample.ok (Sample.raster Sample.blue))
           Sample.start (mkResponse 200 [137; 80; 78; 71])
           (Sample.raster Sample.blue));
    try (vm_compute; reflexivity).
  - apply cloned_raster.
  - left. reflexivity.
Defined.

(** C7, as stated, fails: with a directory that cannot be written the
    iteration does not return, and the loop stops there. *)
Lemma persist_failure_stops :
  ¬ ∃ w',
      BackgroundLoop
        [Sample.diskFull Sample.noon Sample.ok (Sample.raster Sample.blue);
         Sample.quiet Sample.noon' Sample.ok false (Sample.raster Sample.blue)]
        Sample.start = Returns tt w'.
Proof. intros [w' H]. vm_compute in H. discriminate H. Qed.

(** ** The projection *)




(** C6.  On a raster whose sides are below 2 ^ 52 pixels, every point
    within the bounds (west <= lon <= east, south <= lat <= north)
    projects to 0 <= x <= width and 0 <= y <= height, both ends
    included; [x] does not decrease when the longitude increases, and
    [y] does not increase when the latitude increases. *)
Theorem projection_bounds_monotone (w h : Z) (lat lat' lon lon' : float) :
  0 ≤ w ≤ maxSide → 0 ≤ h ≤ maxSide →
  (lon0 <=? lon)%float = true → (lon <=? lon')%float = true →
  (lon' <=? lon1)%float = true →
  (lat1 <=? lat)%float = true → (lat <=? lat')%float = true →
  (lat' <=? lat0)%float = true →
  (0 ≤ (project w h lat lon).1 ∧
   (project w h lat lon).1 ≤ (project w h lat lon').1 ∧
   (project w h lat lon').1 ≤ w) ∧
  (0 ≤ (project w h lat' lon).2 ∧
   (project w h lat' lon).2 ≤ (project w h lat lon).2 ∧
   (project w h lat lon).2 ≤ h).
Proof.
  intros Hw Hh X1 X2 X3 Y1 Y2 Y3. unfold project. cbn [fst snd].
  split; [by apply pixelX_mono | by apply pixelY_mono].
Qed.

Lemma projection_bounds_monotone_witness :
  (0 ≤ (project 500 500 49 12).1 ∧
   (project 500 500 49 12).1 ≤ (project 500 500 49 14).1 ∧
   (project 500 500 49 14).1 ≤ 500) ∧
  (0 ≤ (project 500 500 50 12).2 ∧
   (project 500 500 50 12).2 ≤ (project 500 500 49 12).2 ∧
   (project 500 500 49 12).2 ≤ 500).
Proof.
  apply (projection_bounds_monotone 500 500 49 50 12 14);
    first [reflexivity | unfold maxSide; lia].
Defined.

(** The south-east corner of the bounds lies on the picture's edge.  On
    500 x 500 pixels its [x] is the width itself, one past the last
    column; on 512 x 512 pixels its [y] is the height as well.  On a
    side above 2 ^ 52 the pixel size is rounded by more than half a
    pixel's share and the corner's [y] is the height plus one.  Two
    longitudes, or two latitudes, of one pixel give the same
    coordinate. *)
Lemma east_edge_is_outside :
  ((lon0 <=? lon1)%float = true ∧ (lon1 <=? lon1)%float = true ∧
   (lat1 <=? lat1)%float = true ∧ (lat1 <=? lat0)%float = true) ∧
  (project 500 500 lat1 lon1 = (500, 499) ∧
   ¬ (project 500 500 lat1 lon1).1 < 500) ∧
  (project 512 512 lat1 lon1 = (512, 512) ∧
   ¬ (project 512 512 lat1 lon1).2 < 512) ∧
  (maxSide < 6755399441055749 ∧
   project 6755399441055749 6755399441055749 lat1 lon1
   = (6755399441055749, 6755399441055750) ∧
   ¬ (project 6755399441055749 6755399441055749 lat1 lon1).2
     ≤ 6755399441055749) ∧
  ((12 <? 12.001)%float = true ∧ (49 <? 49.001)%float = true ∧
   project 500 500 49 12 = (38, 389) ∧
   project 500 500 49 12.001 = (38, 389) ∧
   project 500 500 49.001 12 = (38, 389)).
Proof.
  split; [by repeat split|].
  split; [split; [by vm_compute|intros H; vm_compute in H; discriminate H]|].
  split; [split; [by vm_compute|intros H; vm_compute in H; discriminate H]|].
  split.
  { split; [by vm_compute|].
    split; [by vm_compute|intros H; vm_compute in H; by apply H]. }
  repeat split; by vm_compute.
Qed.

(* ===================================================================== *)
(** * Further properties of the program *)
(* ===================================================================== *)

(** ** Colours as the sampler reads them *)

(** A colour whose four channels are bytes. *)
Definition byteColour (c : color.NRGBA) : Prop :=
  0 ≤ color.R c < 256 ∧ 0 ≤ color.G c < 256 ∧
  0 ≤ color.B c < 256 ∧ 0 ≤ color.A c < 256.

(** What one pixel adds to the three totals:
    [r, g, b, _ := c.RGBA()], then [r / 257], [g / 257], [b / 257]. *)
Definition contribution (c : color.NRGBA) : Z * Z * Z :=
  let '(r, g, b, _) := color.RGBA c in (r / 257, g / 257, b / 257).

Lemma forall_bytes (P : Z → bool) :
  forallb P (seqZ 0 256) = true → ∀ c, 0 ≤ c < 256 → P c = true.
Proof.
  intros H c Hc. rewrite forallb_forall in H. apply H.
  apply list_elem_of_In, elem_of_seqZ. lia.
Qed.

Lemma lor_shift8 (c : Z) : 0 ≤ c < 256 → Z.lor c (c ≪ 8) = 257 * c.
Proof.
  intros Hc. apply Z.eqb_eq.
  apply (forall_bytes (λ c, Z.lor c (c ≪ 8) =? 257 * c)); [|done].
  vm_compute. reflexivity.
Qed.

Lemma premul_bytes (c a : Z) :
  0 ≤ c < 256 → 0 ≤ a < 256 → color.premul c a = 257 * c * a / 255.
Proof.
  intros Hc Ha. unfold color.premul.
  rewrite (u32_small c) by lia. rewrite lor_shift8 by done.
  rewrite (u32_small (257 * c)) by lia. rewrite (u32_small a) by lia.
  rewrite u32_small by nia. done.
Qed.

Lemma premul_div257 (c a : Z) :
  0 ≤ c < 256 → 0 ≤ a < 256 → color.premul c a / 257 = c * a / 255.
Proof.
  intros Hc Ha. rewrite premul_bytes by done.
  rewrite Z.div_div by lia.
  replace (257 * c * a) with (c * a * 257) by lia.
  rewrite Z.div_mul_cancel_r by lia. done.
Qed.

Lemma contribution_bytes (c : color.NRGBA) :
  byteColour c →
  contribution c = (color.R c * color.A c / 255, color.G c * color.A c / 255,
                    color.B c * color.A c / 255).
Proof.
  intros (Hr & Hg & Hb & Ha). unfold contribution, color.RGBA.
  by rewrite !premul_div257.
Qed.

Lemma contribution_range (c : color.NRGBA) (r g b : Z) :
  byteColour c → contribution c = (r, g, b) →
  0 ≤ r ≤ 255 ∧ 0 ≤ g ≤ 255 ∧ 0 ≤ b ≤ 255.
Proof.
  intros Hc. rewrite contribution_bytes by done.
  destruct Hc as (Hr & Hg & Hb & Ha). intros [= <- <- <-].
  assert (∀ v, 0 ≤ v < 256 → 0 ≤ v * color.A c / 255 ≤ 255) as H.
  { intros v Hv. split; [apply Z.div_pos; nia|].
    apply Z.div_le_upper_bound; nia. }
  auto.
Qed.

(** ** The window as one list of offsets *)

Definition Zsum (l : list Z) : Z := foldr Z.add 0 l.

(** The pairs [(xx, yy)] in the order the two loops visit them. *)
Definition offsets : list (Z * Z) := xx ← window; yy ← window; [(xx, yy)].

(** The pixel of the window at the offset [o] reads [c]. *)
Definition reads (p : image.NRGBA) (x y : Z) (o : Z * Z) (c : color.NRGBA) : Prop :=
  image.NRGBAAt p (add64 x o.1) (add64 y o.2) = Some c.

Definition chanR (c : color.NRGBA) : Z := (contribution c).1.1.
Definition chanG (c : color.NRGBA) : Z := (contribution c).1.2.
Definition chanB (c : color.NRGBA) : Z := (contribution c).2.

Lemma foldl_inner_pairs {A B C : Type} (f : A → B → C → option A) (b : B)
    (l : list C) (o : option A) :
  foldl (λ acc c, a ← acc; f a b c) o l
  = foldl (λ acc bc, a ← acc; f a bc.1 bc.2) o (c ← l; [(b, c)]).
Proof. revert o. induction l as [|c l IH]; intros o; [done|]. cbn. apply IH. Qed.

Lemma foldl_nested {A B C : Type} (f : A → B → C → option A) (l1 : list B)
    (l2 : list C) (o : option A) :
  foldl (λ acc b, a ← acc; foldl (λ acc c, a ← acc; f a b c) (Some a) l2) o l1
  = foldl (λ acc bc, a ← acc; f a bc.1 bc.2) o (b ← l1; c ← l2; [(b, c)]).
Proof.
  revert o. induction l1 as [|b l1 IH]; intros o; [done|].
  cbn. rewrite foldl_app, <- IH. f_equal.
  destruct o as [a|]; cbn.
  - apply foldl_inner_pairs.
  - symmetry. apply (foldl_option_None (λ a bc, f a bc.1 bc.2)).
Qed.

Lemma sumWindow_flat (p : image.NRGBA) (x y : Z) :
  sumWindow p x y
  = foldl (λ acc o, t ← acc; addSample p x y o.1 o.2 t) (Some (0, 0, 0, 0)) offsets.
Proof.
  unfold sumWindow, sumColumn, offsets.
  apply (foldl_nested (λ t xx yy, addSample p x y xx yy t)).
Qed.

Lemma addSample_contribution (p : image.NRGBA) (x y xx yy tR tG tB n : Z) :
  addSample p x y xx yy (tR, tG, tB, n)
  = (c ← image.NRGBAAt p (add64 x xx) (add64 y yy);
     Some (u32 (tR + chanR c), u32 (tG + chanG c), u32 (tB + chanB c), u32 (n + 1))).
Proof.
  unfold addSample, chanR, chanG, chanB, contribution.
  destruct (image.NRGBAAt _ _ _) as [c|]; [|done]. cbn.
  by destruct (color.RGBA c) as [[[r g] b] a].
Qed.

Lemma chan_range (c : color.NRGBA) :
  byteColour c →
  0 ≤ chanR c ≤ 255 ∧ 0 ≤ chanG c ≤ 255 ∧ 0 ≤ chanB c ≤ 255.
Proof.
  intros Hc. unfold chanR, chanG, chanB.
  destruct (contribution c) as [[r g] b] eqn:E.
  by apply (contribution_range c).
Qed.

(** The totals never wrap: after the loop they are the plain sums. *)
Lemma samples_exact (p : image.NRGBA) (x y : Z) (l : list (Z * Z)) :
  ∀ tR tG tB n t',
    (∀ o c, o ∈ l → reads p x y o c → byteColour c) →
    0 ≤ n → 0 ≤ tR ≤ 255 * n → 0 ≤ tG ≤ 255 * n → 0 ≤ tB ≤ 255 * n →
    n + Z.of_nat (length l) < 2 ^ 23 →
    foldl (λ acc o, t ← acc; addSample p x y o.1 o.2 t) (Some (tR, tG, tB, n)) l
      = Some t' →
    ∃ cs, Forall2 (reads p x y) l cs ∧
          t' = (tR + Zsum (chanR <$> cs), tG + Zsum (chanG <$> cs),
                tB + Zsum (chanB <$> cs), n + Z.of_nat (length l)) ∧
          0 ≤ Zsum (chanR <$> cs) ≤ 255 * Z.of_nat (length l) ∧
          0 ≤ Zsum (chanG <$> cs) ≤ 255 * Z.of_nat (length l) ∧
          0 ≤ Zsum (chanB <$> cs) ≤ 255 * Z.of_nat (length l).
Proof.
  induction l as [|o l IH]; intros tR tG tB n t' Hby Hn HR HG HB Hlen Hf.
  { cbn in Hf. injection Hf as <-. exists []. split; [constructor|].
    unfold Zsum. cbn [fmap list_fmap foldr length].
    change (Z.of_nat 0) with 0. rewrite !Z.add_0_r. split; [done|lia]. }
  cbn [foldl] in Hf. cbn [mbind option_bind] in Hf.
  rewrite addSample_contribution in Hf.
  destruct (image.NRGBAAt p (add64 x o.1) (add64 y o.2)) as [c|] eqn:Ec.
  2:{ cbn in Hf.
      rewrite (foldl_option_None (λ t o, addSample p x y o.1 o.2 t)) in Hf. done. }
  cbn [mbind option_bind] in Hf.
  assert (byteColour c) as Hc by (apply (Hby o c); [left|done]).
  destruct (chan_range c Hc) as (Hr & Hg & Hb).
  cbn [length] in Hlen.
  rewrite !u32_small in Hf by lia.
  destruct (IH (tR + chanR c) (tG + chanG c) (tB + chanB c) (n + 1) t')
    as (cs & Hcs & -> & HsR & HsG & HsB);
    [intros o' c' Ho'; apply Hby; by right|lia|lia|lia|lia|lia|exact Hf|].
  exists (c :: cs). split; [by constructor|].
  cbn [fmap list_fmap Zsum foldr length]. fold (Zsum (chanR <$> cs)).
  fold (Zsum (chanG <$> cs)). fold (Zsum (chanB <$> cs)).
  split; [f_equal; [f_equal; [f_equal|]|]; lia|]. lia.
Qed.

Lemma offsets_length : length offsets = 81%nat.
Proof. reflexivity. Qed.

Lemma offsets_window (o : Z * Z) : o ∈ offsets ↔ o.1 ∈ window ∧ o.2 ∈ window.
Proof.
  unfold offsets. rewrite list_elem_of_bind. split.
  - intros (xx & Ho & Hxx). apply list_elem_of_bind in Ho as (yy & Ho & Hyy).
    apply list_elem_of_singleton in Ho as ->. done.
  - intros [H1 H2]. exists o.1. split; [|done].
    apply list_elem_of_bind. exists o.2. split; [|done].
    destruct o. by apply list_elem_of_singleton.
Qed.

(** The colours a byte picture holds are byte colours. *)
Definition bytes (p : image.NRGBA) : Prop :=
  Forall (λ v, 0 ≤ v < 256) (image.Pix p).

Lemma index_bytes (l : list Z) (i v : Z) :
  Forall (λ v, 0 ≤ v < 256) l → image.index l i = Some v → 0 ≤ v < 256.
Proof.
  intros Hl. unfold image.index. destruct (i <? 0); [done|].
  intros H. by apply (Forall_lookup_1 _ _ _ _ Hl H).
Qed.

Lemma NRGBAAt_bytes (p : image.NRGBA) (x y : Z) (c : color.NRGBA) :
  bytes p → image.NRGBAAt p x y = Some c → byteColour c.
Proof.
  intros Hp. unfold image.NRGBAAt.
  destruct (negb _).
  { intros [= <-]. unfold byteColour. cbn. lia. }
  destruct (image.index (image.Pix p) (image.PixOffset p x y))
    as [r|] eqn:Er; simpl; [|done].
  destruct (image.index _ (_ + 1)) as [g|] eqn:Eg; simpl; [|done].
  destruct (image.index _ (_ + 2)) as [b|] eqn:Eb; simpl; [|done].
  destruct (image.index _ (_ + 3)) as [a|] eqn:Ea; simpl; [|done].
  intros [= <-]. unfold byteColour. simpl. unfold bytes in Hp.
  split; [|split; [|split]]; eapply index_bytes; eassumption.
Qed.

Lemma foldl_ext_in {A B : Type} (f g : A → B → A) (l : list B) (a : A) :
  (∀ a b, b ∈ l → f a b = g a b) → foldl f a l = foldl g a l.
Proof.
  revert a. induction l as [|b l IH]; intros a H; [done|].
  cbn. rewrite (H a b) by left. apply IH. intros a' b' Hb'. apply H. by right.
Qed.

Lemma sumWindow_exact (p : image.NRGBA) (x y : Z) (t : totals) :
  (∀ o c, o ∈ offsets → reads p x y o c → byteColour c) →
  sumWindow p x y = Some t →
  ∃ cs, Forall2 (reads p x y) offsets cs ∧
        t = (Zsum (chanR <$> cs), Zsum (chanG <$> cs), Zsum (chanB <$> cs), 81) ∧
        0 ≤ Zsum (chanR <$> cs) ≤ 255 * 81 ∧
        0 ≤ Zsum (chanG <$> cs) ≤ 255 * 81 ∧
        0 ≤ Zsum (chanB <$> cs) ≤ 255 * 81.
Proof.
  intros Hby Hf. rewrite sumWindow_flat in Hf.
  destruct (samples_exact p x y offsets 0 0 0 0 t Hby) as (cs & Hcs & -> & H);
    [lia..|rewrite offsets_length; lia|exact Hf|].
  rewrite offsets_length in *. change (Z.of_nat 81) with 81 in *.
  exists cs. split; [done|]. split; [|done].
  by rewrite !Z.add_0_l.
Qed.

Lemma getAvgColor_exact (p : image.NRGBA) (x y r g b : Z) :
  (∀ o c, o ∈ offsets → reads p x y o c → byteColour c) →
  getAvgColor p x y = Some (r, g, b) →
  ∃ cs, Forall2 (reads p x y) offsets cs ∧
        r = Zsum (chanR <$> cs) / 81 ∧
        g = Zsum (chanG <$> cs) / 81 ∧
        b = Zsum (chanB <$> cs) / 81.
Proof.
  intros Hby. unfold getAvgColor.
  destruct (sumWindow p x y) as [t|] eqn:Et; [|done].
  destruct (sumWindow_exact p x y t Hby Et) as (cs & Hcs & -> & HR & HG & HB).
  cbn. intros [= <- <- <-]. exists cs. split; [done|].
  assert (∀ s, 0 ≤ s ≤ 255 * 81 → u8 (s / 81) = s / 81) as E.
  { intros s Hs. apply u8_small. split; [apply Z.div_pos; lia|].
    apply Z.div_lt_upper_bound; lia. }
  by rewrite !E.
Qed.

(** The sampler reads nothing but the 81 pixels of the window. *)
Lemma getAvgColor_local (p q : image.NRGBA) (x y : Z) :
  (∀ xx yy, xx ∈ window → yy ∈ window →
     image.NRGBAAt q (add64 x xx) (add64 y yy)
     = image.NRGBAAt p (add64 x xx) (add64 y yy)) →
  getAvgColor q x y = getAvgColor p x y.
Proof.
  intros H. unfold getAvgColor. rewrite !sumWindow_flat.
  f_equal. apply foldl_ext_in. intros acc o Ho.
  apply offsets_window in Ho as [H1 H2].
  destruct acc as [[[[tR tG] tB] n]|]; [|done]. cbn.
  unfold addSample. by rewrite H.
Qed.

Lemma sumWindow_reads (p : image.NRGBA) (x y : Z) :
  (∀ o, o ∈ offsets → ∃ c, reads p x y o c) → ∃ t, sumWindow p x y = Some t.
Proof.
  intros H. rewrite sumWindow_flat.
  destruct (foldl_option_inv (λ t o, addSample p x y o.1 o.2 t) (λ _, True)
              offsets (0, 0, 0, 0)) as (t & E & _); [|done|by exists t].
  intros [[[tR tG] tB] n] o _ Ho. destruct (H o Ho) as [c Hc].
  rewrite addSample_contribution. unfold reads in Hc. rewrite Hc. cbn.
  by eexists.
Qed.

Lemma Zsum_const (f : color.NRGBA → Z) (c : color.NRGBA) (cs : list color.NRGBA) :
  Forall (λ c', c' = c) cs → Zsum (f <$> cs) = Z.of_nat (length cs) * f c.
Proof.
  induction 1 as [|c' cs -> _ IH]; [done|].
  cbn [fmap list_fmap Zsum foldr length]. fold (Zsum (f <$> cs)). lia.
Qed.

Lemma Zsum_ext (f g : color.NRGBA → Z) (cs : list color.NRGBA) :
  Forall (λ c, f c = g c) cs → Zsum (f <$> cs) = Zsum (g <$> cs).
Proof.
  induction 1 as [|c cs E _ IH]; [done|].
  cbn [fmap list_fmap Zsum foldr]. fold (Zsum (f <$> cs)). fold (Zsum (g <$> cs)).
  lia.
Qed.

(** X1.  What one pixel adds to the totals of [getAvgColor]: for a
    pixel whose four channels are bytes, [r / 257] after [RGBA()] is the
    channel scaled by the alpha, [c * a / 255] rounded down.  It is the
    channel itself when the pixel is opaque and 0 when it is
    transparent. *)
Theorem pixel_contribution (c : color.NRGBA) :
  byteColour c →
  contribution c = (color.R c * color.A c / 255, color.G c * color.A c / 255,
                    color.B c * color.A c / 255) ∧
  (color.A c = 255 → contribution c = (color.R c, color.G c, color.B c)) ∧
  (color.A c = 0 → contribution c = (0, 0, 0)).
Proof.
  intros Hc. rewrite contribution_bytes by done.
  split; [done|]. split; intros ->.
  - by rewrite !Z.div_mul by lia.
  - by rewrite !Z.mul_0_r.
Qed.

Lemma pixel_contribution_witness :
  contribution Sample.blue = (0, 108, 192).
Proof.
  apply (pixel_contribution Sample.blue); [|reflexivity].
  unfold byteColour. cbn. lia.
Defined.

(** X2.  [getAvgColor] returns the exact mean.  On a picture whose [Pix]
    slice holds bytes, each channel it returns is the sum, over the 81
    pixels of the 9 x 9 window in the order of the two loops, of the
    channel scaled by the alpha, divided by 81 and rounded down: neither
    the 32-bit totals nor the conversion to [uint8] loses anything. *)
Theorem average_is_exact (p : image.NRGBA) (x y r g b : Z) :
  bytes p →
  getAvgColor p x y = Some (r, g, b) →
  ∃ cs,
    Forall2 (reads p x y) offsets cs ∧
    r = Zsum ((λ c, color.R c * color.A c / 255) <$> cs) / 81 ∧
    g = Zsum ((λ c, color.G c * color.A c / 255) <$> cs) / 81 ∧
    b = Zsum ((λ c, color.B c * color.A c / 255) <$> cs) / 81.
Proof.
  intros Hp Havg.
  destruct (getAvgColor_exact p x y r g b) as (cs & Hcs & -> & -> & ->); [|done|].
  { intros o c _. by apply NRGBAAt_bytes. }
  assert (Forall byteColour cs) as Hby.
  { apply Forall_forall. intros c Hc.
    apply list_elem_of_lookup in Hc as [i Hi].
    destruct (Forall2_lookup_r _ _ _ _ _ Hcs Hi) as (o & _ & Ho).
    exact (NRGBAAt_bytes p _ _ c Hp Ho). }
  exists cs. split; [done|].
  split; [|split]; f_equal; apply Zsum_ext;
    (eapply Forall_impl; [exact Hby|]); intros c Hc;
    unfold chanR, chanG, chanB; by rewrite contribution_bytes.
Qed.

(** One colour all over the window. *)
Lemma getAvgColor_uniform (p : image.NRGBA) (x y : Z) (c : color.NRGBA) :
  byteColour c →
  (∀ xx yy, xx ∈ window → yy ∈ window →
     image.NRGBAAt p (add64 x xx) (add64 y yy) = Some c) →
  getAvgColor p x y
  = Some (color.R c * color.A c / 255, color.G c * color.A c / 255,
          color.B c * color.A c / 255).
Proof.
  intros Hc Hall.
  assert (∀ o, o ∈ offsets → reads p x y o c) as Hr.
  { intros o Ho. apply offsets_window in Ho as [H1 H2]. by apply Hall. }
  destruct (sumWindow_reads p x y) as [t Et]; [intros o Ho; eauto|].
  assert (∀ o c', o ∈ offsets → reads p x y o c' → byteColour c') as Hby.
  { intros o c' Ho Hc'. specialize (Hr o Ho). unfold reads in *. congruence. }
  destruct (sumWindow_exact p x y t Hby Et) as (cs & Hcs & -> & _).
  assert (Forall (λ c', c' = c) cs) as Hsame.
  { apply Forall_forall. intros c' Hc'.
    apply list_elem_of_lookup in Hc' as [i Hi].
    destruct (Forall2_lookup_r _ _ _ _ _ Hcs Hi) as (o & Ho & Hoc).
    apply list_elem_of_lookup_2 in Ho. specialize (Hr o Ho).
    unfold reads in *. congruence. }
  unfold getAvgColor. rewrite Et. cbn.
  rewrite !(Zsum_const _ c cs Hsame).
  rewrite <- (Forall2_length _ _ _ Hcs), offsets_length.
  change (Z.of_nat 81) with 81.
  rewrite !(Z.mul_comm 81), !Z.div_mul by lia.
  unfold chanR, chanG, chanB. rewrite contribution_bytes by done. cbn.
  destruct (contribution_range c _ _ _ Hc (contribution_bytes c Hc)) as (?&?&?).
  by rewrite !u8_small by lia.
Qed.

(** X3.  A window that reads one colour at all its 81 pixels averages
    to that colour scaled by its alpha: to the colour itself when it is
    opaque. *)
Theorem uniform_window (p : image.NRGBA) (x y : Z) (c : color.NRGBA) :
  byteColour c →
  (∀ xx yy, xx ∈ window → yy ∈ window →
     image.NRGBAAt p (add64 x xx) (add64 y yy) = Some c) →
  getAvgColor p x y
  = Some (color.R c * color.A c / 255, color.G c * color.A c / 255,
          color.B c * color.A c / 255) ∧
  (color.A c = 255 →
   getAvgColor p x y = Some (color.R c, color.G c, color.B c)).
Proof.
  intros Hc Hall.
  pose proof (getAvgColor_uniform p x y c Hc Hall) as E.
  split; [exact E|].
  intros Ha. rewrite E, Ha.
  by rewrite !Z.div_mul by lia.
Qed.

(** ** Writing pixels *)

Lemma index_store (l l' : list Z) (i j v : Z) :
  image.store l i v = Some l' →
  image.index l' j = if j =? i then Some v else image.index l j.
Proof.
  unfold image.store, image.index.
  destruct (Z.ltb_spec i 0); [done|].
  destruct (Nat.ltb_spec (Z.to_nat i) (length l)); [|done].
  intros [= <-].
  destruct (Z.eqb_spec j i) as [->|Hne].
  - destruct (Z.ltb_spec i 0); [lia|]. by apply list_lookup_insert_eq.
  - destruct (Z.ltb_spec j 0); [done|].
    apply list_lookup_insert_ne. lia.
Qed.

Lemma colour_eta (c : color.NRGBA) :
  color.mkNRGBA (color.R c) (color.G c) (color.B c) (color.A c) = c.
Proof. by destruct c. Qed.

(** Distinct pixels of a picture do not share bytes. *)
Lemma PixOffset_apart (p : image.NRGBA) (x y x' y' : Z) :
  image.cloned p →
  image.PointIn x y (image.Bounds p) = true →
  image.PointIn x' y' (image.Bounds p) = true →
  (x', y') ≠ (x, y) →
  image.PixOffset p x' y' + 4 ≤ image.PixOffset p x y ∨
  image.PixOffset p x y + 4 ≤ image.PixOffset p x' y'.
Proof.
  intros (Hx & Hy & Hw & Hh & Hs & Hl & _) Hin Hin' Hne.
  apply PointIn_spec in Hin, Hin'. unfold image.PixOffset.
  rewrite Hx, Hy, Hs in *.
  set (W := image.MaxX (image.Bounds p)) in *.
  destruct (Z.lt_trichotomy y' y) as [Hlt|[->|Hgt]].
  - left. assert (W * 1 ≤ W * (y - y')) by (apply Z.mul_le_mono_nonneg_l; lia). lia.
  - assert (x' ≠ x) by congruence. lia.
  - right. assert (W * 1 ≤ W * (y' - y)) by (apply Z.mul_le_mono_nonneg_l; lia). lia.
Qed.

(** What a picture reads after one pixel was set. *)
Lemma SetNRGBA_get (p q : image.NRGBA) (x y x' y' : Z) (c : color.NRGBA) :
  image.cloned p →
  image.SetNRGBA p x y c = Some q →
  image.NRGBAAt q x' y'
  = if image.PointIn x y (image.Bounds p) && (x' =? x) && (y' =? y)
    then Some c else image.NRGBAAt p x' y'.
Proof.
  intros Hp. unfold image.SetNRGBA.
  destruct (image.PointIn x y (image.Bounds p)) eqn:Hin; cbn [negb andb].
  2:{ by intros [= <-]. }
  destruct (image.store (image.Pix p) _ _) as [l1|] eqn:E1; [|done]. cbn.
  destruct (image.store l1 _ _) as [l2|] eqn:E2; [|done]. cbn.
  destruct (image.store l2 _ _) as [l3|] eqn:E3; [|done]. cbn.
  destruct (image.store l3 _ _) as [l4|] eqn:E4; [|done]. cbn.
  intros [= <-]. unfold image.NRGBAAt. cbn [image.Bounds image.Pix].
  destruct (image.PointIn x' y' (image.Bounds p)) eqn:Hin'; cbn [negb].
  2:{ destruct ((x' =? x) && (y' =? y)) eqn:E; [|done].
      apply andb_true_iff in E as [->%Z.eqb_eq ->%Z.eqb_eq]. congruence. }
  change (image.PixOffset {| image.Pix := l4; image.Stride := image.Stride p;
                            image.Bounds := image.Bounds p |} x' y')
    with (image.PixOffset p x' y').
  set (i := image.PixOffset p x y) in *. set (j := image.PixOffset p x' y').
  rewrite !(index_store _ _ _ _ _ E4), !(index_store _ _ _ _ _ E3),
    !(index_store _ _ _ _ _ E2), !(index_store _ _ _ _ _ E1).
  destruct ((x' =? x) && (y' =? y)) eqn:E.
  - apply andb_true_iff in E as [->%Z.eqb_eq ->%Z.eqb_eq].
    assert (j = i) as -> by done.
    rewrite Z.eqb_refl.
    replace (i + 1 =? i + 3) with false by (symmetry; apply Z.eqb_neq; lia).
    replace (i + 1 =? i + 2) with false by (symmetry; apply Z.eqb_neq; lia).
    replace (i + 2 =? i + 3) with false by (symmetry; apply Z.eqb_neq; lia).
    replace (i =? i + 3) with false by (symmetry; apply Z.eqb_neq; lia).
    replace (i =? i + 2) with false by (symmetry; apply Z.eqb_neq; lia).
    replace (i =? i + 1) with false by (symmetry; apply Z.eqb_neq; lia).
    rewrite !Z.eqb_refl. cbn. by rewrite colour_eta.
  - assert ((x', y') ≠ (x, y)) as Hne.
    { intros [= -> ->]. by rewrite !Z.eqb_refl in E. }
    pose proof (PixOffset_apart p x y x' y' Hp Hin Hin' Hne) as Hap.
    fold i j in Hap.
    assert (∀ a b, 0 ≤ a ≤ 3 → 0 ≤ b ≤ 3 → (j + a =? i + b) = false) as F.
    { intros a b Ha Hb. apply Z.eqb_neq. lia. }
    pose proof (F 0 0 ltac:(lia) ltac:(lia)) as F00. rewrite !Z.add_0_r in F00.
    pose proof (F 0 1 ltac:(lia) ltac:(lia)) as F01. rewrite !Z.add_0_r in F01.
    pose proof (F 0 2 ltac:(lia) ltac:(lia)) as F02. rewrite !Z.add_0_r in F02.
    pose proof (F 0 3 ltac:(lia) ltac:(lia)) as F03. rewrite !Z.add_0_r in F03.
    pose proof (F 1 0 ltac:(lia) ltac:(lia)) as F10. rewrite !Z.add_0_r in F10.
    pose proof (F 2 0 ltac:(lia) ltac:(lia)) as F20. rewrite !Z.add_0_r in F20.
    pose proof (F 3 0 ltac:(lia) ltac:(lia)) as F30. rewrite !Z.add_0_r in F30.
    rewrite F00, F01, F02, F03, F10, F20, F30, !F by lia. done.
Qed.

Lemma fillRow_cons (c : color.NRGBA) (y x : Z) (xs : list Z) (p : image.NRGBA) :
  draw.fillRow c y (x :: xs) p
  = (p' ← image.SetNRGBA p x y c; draw.fillRow c y xs p').
Proof.
  unfold draw.fillRow. cbn [foldl]. cbn [mbind option_bind].
  destruct (image.SetNRGBA p x y c) as [p'|]; [done|].
  cbn. apply (foldl_option_None (λ p x, image.SetNRGBA p x y c)).
Qed.

(** What a picture reads after a row was filled. *)
Lemma fillRow_get (c : color.NRGBA) (y : Z) (xs : list Z) :
  ∀ p x' y',
    image.cloned p →
    ∃ q, draw.fillRow c y xs p = Some q ∧ sameShape p q ∧
         image.NRGBAAt q x' y'
         = if image.PointIn x' y' (image.Bounds p) && (y' =? y)
              && bool_decide (x' ∈ xs)
           then Some c else image.NRGBAAt p x' y'.
Proof.
  induction xs as [|x xs IH]; intros p x' y' Hp.
  { exists p. split; [done|]. split; [done|].
    rewrite bool_decide_eq_false_2 by apply not_elem_of_nil.
    by rewrite andb_false_r. }
  rewrite fillRow_cons.
  destruct (SetNRGBA_total p x y c Hp) as (p1 & E1 & Hs1). rewrite E1. cbn.
  destruct (IH p1 x' y' (sameShape_cloned _ _ Hs1 Hp)) as (q & Eq & Hsq & Hget).
  exists q. split; [done|]. split; [by eapply sameShape_trans|].
  rewrite Hget, (SetNRGBA_get p p1 x y x' y' c Hp E1).
  destruct Hs1 as (-> & _ & _).
  destruct (Z.eqb_spec y' y) as [->|Hy]; cbn [andb];
    [|by rewrite !andb_false_r].
  destruct (Z.eqb_spec x' x) as [->|Hx].
  - rewrite (bool_decide_eq_true_2 (x ∈ x :: xs)) by left.
    rewrite !andb_true_r.
    destruct (image.PointIn x y (image.Bounds p)); cbn [andb]; [|done].
    by destruct (bool_decide _).
  - rewrite !andb_false_r.
    destruct (decide (x' ∈ xs)) as [Hin|Hin].
    + rewrite (bool_decide_eq_true_2 _ Hin).
      by rewrite (bool_decide_eq_true_2 (x' ∈ x :: xs)) by (by right).
    + rewrite (bool_decide_eq_false_2 _ Hin).
      rewrite (bool_decide_eq_false_2 (x' ∈ x :: xs)); [done|].
      intros [->|H]%elem_of_cons; done.
Qed.

Lemma fillRows_cons (c : color.NRGBA) (xs : list Z) (y : Z) (ys : list Z)
    (p : image.NRGBA) :
  foldl (λ acc y, p ← acc; draw.fillRow c y xs p) (Some p) (y :: ys)
  = (p' ← draw.fillRow c y xs p;
     foldl (λ acc y, p ← acc; draw.fillRow c y xs p) (Some p') ys).
Proof.
  cbn [foldl]. cbn [mbind option_bind].
  destruct (draw.fillRow c y xs p) as [p'|]; [done|].
  cbn. apply (foldl_option_None (λ p y, draw.fillRow c y xs p)).
Qed.

Lemma fillRows_get (c : color.NRGBA) (xs ys : list Z) :
  ∀ p x' y',
    image.cloned p →
    ∃ q, foldl (λ acc y, p ← acc; draw.fillRow c y xs p) (Some p) ys = Some q ∧
         sameShape p q ∧
         image.NRGBAAt q x' y'
         = if image.PointIn x' y' (image.Bounds p) && bool_decide (y' ∈ ys)
              && bool_decide (x' ∈ xs)
           then Some c else image.NRGBAAt p x' y'.
Proof.
  induction ys as [|y ys IH]; intros p x' y' Hp.
  { exists p. split; [done|]. split; [done|].
    rewrite (bool_decide_eq_false_2 (y' ∈ [])) by apply not_elem_of_nil.
    by rewrite andb_false_r. }
  rewrite fillRows_cons.
  destruct (fillRow_get c y xs p x' y' Hp) as (p1 & E1 & Hs1 & G1).
  rewrite E1. cbn.
  destruct (IH p1 x' y' (sameShape_cloned _ _ Hs1 Hp)) as (q & Eq & Hsq & Hget).
  exists q. split; [done|]. split; [by eapply sameShape_trans|].
  rewrite Hget, G1. destruct Hs1 as (-> & _ & _).
  destruct (image.PointIn x' y' (image.Bounds p)); cbn [andb]; [|done].
  destruct (bool_decide (x' ∈ xs)); [|by rewrite !andb_false_r].
  rewrite !andb_true_r.
  destruct (Z.eqb_spec y' y) as [->|Hy].
  - rewrite (bool_decide_eq_true_2 (y ∈ y :: ys)) by left.
    by destruct (bool_decide _).
  - destruct (decide (y' ∈ ys)) as [Hin|Hin].
    + rewrite (bool_decide_eq_true_2 _ Hin).
      by rewrite (bool_decide_eq_true_2 (y' ∈ y :: ys)) by (by right).
    + rewrite (bool_decide_eq_false_2 _ Hin).
      rewrite (bool_decide_eq_false_2 (y' ∈ y :: ys)); [done|].
      intros [->|H]%elem_of_cons; done.
Qed.

Lemma PointIn_Empty (r : image.Rectangle) (x y : Z) :
  image.Empty r = true → image.PointIn x y r = false.
Proof.
  unfold image.Empty. intros H. apply not_true_is_false.
  rewrite PointIn_spec. apply orb_true_iff in H as [H|H]; apply Z.leb_le in H; lia.
Qed.

Lemma PointIn_Intersect (r s : image.Rectangle) (x y : Z) :
  image.PointIn x y (image.Intersect r s)
  = image.PointIn x y r && image.PointIn x y s.
Proof.
  apply eq_true_iff_eq. rewrite andb_true_iff, !PointIn_spec.
  unfold image.Intersect.
  destruct (image.Empty _) eqn:E.
  - unfold image.Empty in E. cbn in E.
    apply orb_true_iff in E as [E|E]; apply Z.leb_le in E; cbn; lia.
  - cbn. lia.
Qed.

Lemma bool_decide_seqZ (v m n : Z) :
  bool_decide (v ∈ seqZ m n) = (m <=? v) && (v <? m + n).
Proof.
  apply eq_true_iff_eq.
  rewrite bool_decide_eq_true, elem_of_seqZ, andb_true_iff, Z.leb_le, Z.ltb_lt.
  done.
Qed.

(** What a picture reads after [draw.Draw]: the colour on the clipped
    rectangle, what it read before everywhere else. *)
Lemma Draw_get (p : image.NRGBA) (r : image.Rectangle) (c : color.NRGBA)
    (x' y' : Z) :
  image.cloned p →
  ∃ q, draw.Draw p r c = Some q ∧ sameShape p q ∧
       image.NRGBAAt q x' y'
       = if image.PointIn x' y' (draw.clip p r) then Some c
         else image.NRGBAAt p x' y'.
Proof.
  intros Hp. unfold draw.Draw.
  destruct (image.Empty (draw.clip p r)) eqn:E.
  { exists p. split; [done|]. split; [done|]. by rewrite PointIn_Empty. }
  destruct (fillRows_get c
              (seqZ (image.MinX (draw.clip p r))
                 (image.MaxX (draw.clip p r) - image.MinX (draw.clip p r)))
              (seqZ (image.MinY (draw.clip p r))
                 (image.MaxY (draw.clip p r) - image.MinY (draw.clip p r)))
              p x' y' Hp) as (q & Eq & Hs & G).
  exists q. split; [done|]. split; [done|]. rewrite G.
  rewrite !bool_decide_seqZ.
  assert (image.PointIn x' y' (draw.clip p r) = true →
          image.PointIn x' y' (image.Bounds p) = true) as Hsub.
  { unfold draw.clip. rewrite !PointIn_Intersect, !andb_true_iff. tauto. }
  destruct (image.PointIn x' y' (draw.clip p r)) eqn:Hin.
  - rewrite (Hsub eq_refl). apply PointIn_spec in Hin.
    replace (_ && _ && _) with true; [done|]. symmetry.
    rewrite !andb_true_iff, !Z.leb_le, !Z.ltb_lt. lia.
  - replace (_ && _ && _) with false; [done|]. symmetry.
    apply not_true_is_false. intros H.
    rewrite !andb_true_iff, !Z.leb_le, !Z.ltb_lt in H.
    apply not_true_iff_false in Hin. apply Hin, PointIn_spec. lia.
Qed.

(** A pixel outside the rectangle is never written. *)
Lemma Draw_frame (p q : image.NRGBA) (r : image.Rectangle) (c : color.NRGBA)
    (x' y' : Z) :
  image.cloned p → draw.Draw p r c = Some q →
  image.PointIn x' y' r = false →
  image.NRGBAAt q x' y' = image.NRGBAAt p x' y'.
Proof.
  intros Hp Hd Hout.
  destruct (Draw_get p r c x' y' Hp) as (q' & Eq & _ & G).
  rewrite Hd in Eq. injection Eq as <-. rewrite G.
  unfold draw.clip. by rewrite !PointIn_Intersect, Hout.
Qed.

(** The marker of a pixel whose coordinates are far from the ends of
    [int]. *)
Lemma marker_plain (x y : Z) :
  - 2 ^ 62 ≤ x ≤ 2 ^ 62 → - 2 ^ 62 ≤ y ≤ 2 ^ 62 →
  marker x y = image.mkRect (x - 5) (y - 5) (x + 5) (y + 5).
Proof.
  intros Hx Hy. unfold marker, sub64, add64.
  rewrite !wrap64_small by lia. unfold image.Rect.
  destruct (Z.ltb_spec (x + 5) (x - 5)); [lia|].
  destruct (Z.ltb_spec (y + 5) (y - 5)); [lia|]. done.
Qed.

Lemma clip_marker (p : image.NRGBA) (x y px py : Z) :
  - 2 ^ 62 ≤ x ≤ 2 ^ 62 → - 2 ^ 62 ≤ y ≤ 2 ^ 62 →
  image.PointIn px py (draw.clip p (marker x y))
  = (x - 5 <=? px) && (px <? x + 5) && (y - 5 <=? py) && (py <? y + 5)
    && image.PointIn px py (image.Bounds p).
Proof.
  intros Hx Hy. rewrite marker_plain by done.
  unfold draw.clip. rewrite !PointIn_Intersect.
  cbn [image.MinX image.MinY].
  assert (image.PointIn px py (image.mkRect (x - 5) (y - 5) (x + 5) (y + 5)) = true →
          image.PointIn px py (image.Add draw.uniformBounds (x - 5) (y - 5)) = true)
    as Hsub.
  { rewrite !PointIn_spec. unfold image.Add, draw.uniformBounds, add64.
    cbn [image.MinX image.MinY image.MaxX image.MaxY].
    rewrite !wrap64_small by lia. lia. }
  change (image.PointIn px py (image.mkRect (x - 5) (y - 5) (x + 5) (y + 5)))
    with ((x - 5 <=? px) && (px <? x + 5) && (y - 5 <=? py) && (py <? y + 5)) in *.
  destruct (_ && _ && _ && _); [|done].
  rewrite (Hsub eq_refl). by rewrite andb_true_r.
Qed.

(** X4.  The marker of a city at [(x, y)] is the square
    [x - 5 <= px < x + 5], [y - 5 <= py < y + 5], clipped to the
    picture: on a cloned picture [draw.Draw] succeeds, the picture keeps
    its shape, the pixels of the square that lie in the picture take the
    marker colour, and every other pixel reads as before. *)
Theorem marker_square (p : image.NRGBA) (x y : Z) (c : color.NRGBA) :
  image.cloned p →
  - 2 ^ 62 ≤ x ≤ 2 ^ 62 → - 2 ^ 62 ≤ y ≤ 2 ^ 62 →
  ∃ q,
    draw.Draw p (marker x y) c = Some q ∧
    sameShape p q ∧
    ∀ px py,
      image.NRGBAAt q px py
      = if (x - 5 <=? px) && (px <? x + 5) && (y - 5 <=? py) && (py <? y + 5)
           && image.PointIn px py (image.Bounds p)
        then Some c else image.NRGBAAt p px py.
Proof.
  intros Hp Hx Hy.
  destruct (Draw_total p (marker x y) c Hp) as (q & Eq & Hs).
  exists q. split; [done|]. split; [done|].
  intros px py.
  destruct (Draw_get p (marker x y) c px py Hp) as (q' & Eq' & _ & G).
  rewrite Eq in Eq'. injection Eq' as <-.
  by rewrite G, clip_marker.
Qed.

(** ** The loop over the cities: what it keeps *)

(** Two records of one city: the colour apart, they are equal. *)
Definition sameCity (c c' : City) : Prop :=
  ID c' = ID c ∧ Name c' = Name c ∧ Lat c' = Lat c ∧ Lon c' = Lon c.

Lemma sameCity_refl (c : City) : sameCity c c.
Proof. done. Qed.

Lemma sameCity_trans (c1 c2 c3 : City) :
  sameCity c1 c2 → sameCity c2 c3 → sameCity c1 c3.
Proof. intros (?&?&?&?) (?&?&?&?). repeat split; congruence. Qed.

Lemma sameCity_setColor (c : City) (r g b : Z) : sameCity c (setColor c r g b).
Proof. done. Qed.

(** The published list holds positions of the city list, in load order. *)
Definition inOrder (h : Handler) : Prop :=
  CitiesWithRain h `sublist_of` seq 0 (length (Cities h)).

(** The whole of one visit. *)
Lemma visitCity_inv_draw (lonPx latPx : float) (b b' : image.NRGBA)
    (h h' : Handler) (i : nat) :
  visitCity lonPx latPx (b, h) i = Some (b', h') →
  ∃ city r g v,
    Cities h !! i = Some city ∧
    getAvgColor b (pixelX lonPx (Lon city)) (pixelY latPx (Lat city))
      = Some (r, g, v) ∧
    h' = (if isRaining r g v
          then mkHandler (<[i := setColor city r g v]> (Cities h))
                         (CitiesWithRain h ++ [i])
          else h) ∧
    draw.Draw b (marker (pixelX lonPx (Lon city)) (pixelY latPx (Lat city)))
      (if isRaining r g v then color.mkNRGBA r g v 255
       else color.mkNRGBA 0 0 0 255) = Some b'.
Proof.
  unfold visitCity. intros H.
  destruct (Cities h !! i) as [city|] eqn:Ec; [|done]. cbn in H.
  destruct (getAvgColor b _ _) as [[[r g] v]|] eqn:Eavg; [|done]. cbn in H.
  exists city, r, g, v. split; [done|]. split; [done|].
  destruct (isRaining r g v).
  - destruct (draw.Draw b _ _); [|done]. cbn in H. split; congruence.
  - destruct (draw.Draw b _ _); [|done]. cbn in H. split; congruence.
Qed.

Lemma visitCity_same (lonPx latPx : float) (b b' : image.NRGBA)
    (h h' : Handler) (i j : nat) (c : City) :
  visitCity lonPx latPx (b, h) i = Some (b', h') →
  Cities h !! j = Some c →
  ∃ c', Cities h' !! j = Some c' ∧ sameCity c c' ∧
        (c' ≠ c → j = i ∧ i ∈ CitiesWithRain h').
Proof.
  intros H Hj.
  destruct (visitCity_inv _ _ _ _ _ _ _ H) as (city & r & g & v & Ec & _ & ->).
  destruct (isRaining r g v); [|by exists c].
  cbn. destruct (decide (j = i)) as [->|Hne].
  - rewrite list_lookup_insert_eq by (by eapply lookup_lt_Some).
    rewrite Ec in Hj. injection Hj as ->.
    eexists. split; [done|]. split; [apply sameCity_setColor|].
    intros _. split; [done|]. apply elem_of_app. right. left.
  - rewrite list_lookup_insert_ne by done. by exists c.
Qed.

Lemma visitCity_members (lonPx latPx : float) (b b' : image.NRGBA)
    (h h' : Handler) (i : nat) :
  visitCity lonPx latPx (b, h) i = Some (b', h') →
  (CitiesWithRain h' = CitiesWithRain h ∨
   CitiesWithRain h' = CitiesWithRain h ++ [i]) ∧
  length (Cities h') = length (Cities h).
Proof.
  intros H.
  destruct (visitCity_inv _ _ _ _ _ _ _ H) as (city & r & g & v & Ec & _ & ->).
  destruct (isRaining r g v); [|by split; [left|]].
  cbn. split; [by right|apply length_insert].
Qed.

Lemma visitCities_same (lonPx latPx : float) (l : list nat) :
  ∀ b b' h h' j c,
    visitCities lonPx latPx (b, h) l = Some (b', h') →
    Cities h !! j = Some c →
    ∃ c', Cities h' !! j = Some c' ∧ sameCity c c'.
Proof.
  induction l as [|i l IH]; intros b b' h h' j c H Hj.
  - injection H as <- <-. by exists c.
  - rewrite visitCities_cons in H.
    destruct (visitCity lonPx latPx (b, h) i) as [[b1 h1]|] eqn:E; [|done].
    cbn in H.
    destruct (visitCity_same _ _ _ _ _ _ _ j c E Hj) as (c1 & Hc1 & Hs1 & _).
    destruct (IH _ _ _ _ j c1 H Hc1) as (c' & Hc' & Hs').
    exists c'. split; [done|]. by eapply sameCity_trans.
Qed.

(** Visiting the positions from [k] on appends to the published list in
    increasing order. *)
Lemma visitCities_inOrder (lonPx latPx : float) (n : nat) :
  ∀ k b b' h h',
    visitCities lonPx latPx (b, h) (seq k n) = Some (b', h') →
    CitiesWithRain h `sublist_of` seq 0 k →
    CitiesWithRain h' `sublist_of` seq 0 (k + n) ∧
    length (Cities h') = length (Cities h).
Proof.
  induction n as [|n IH]; intros k b b' h h' H Hsub.
  - injection H as <- <-. by rewrite Nat.add_0_r.
  - cbn [seq] in H. rewrite visitCities_cons in H.
    destruct (visitCity lonPx latPx (b, h) k) as [[b1 h1]|] eqn:E; [|done].
    cbn in H.
    destruct (visitCity_members _ _ _ _ _ _ _ E) as [Hm Hl].
    destruct (IH (S k) _ _ _ _ H) as [Hs Hl'].
    + rewrite seq_S. cbn. destruct Hm as [->| ->].
      * by apply sublist_inserts_r.
      * by apply sublist_app.
    + split; [|congruence]. by replace (k + S n)%nat with (S k + n)%nat by lia.
Qed.

Lemma classify_inOrder (bitmap b' : image.NRGBA) (h h' : Handler) :
  classify bitmap h = Some (b', h') →
  inOrder h' ∧ length (Cities h') = length (Cities h).
Proof.
  intros H. unfold classify in H.
  destruct (visitCities_inOrder _ _ _ 0%nat _ _ _ _ H) as [Hs Hl].
  { apply sublist_nil_l. }
  cbn in Hl. unfold inOrder. by rewrite Hl.
Qed.

Lemma classify_same (bitmap b' : image.NRGBA) (h h' : Handler) (j : nat) (c : City) :
  classify bitmap h = Some (b', h') →
  Cities h !! j = Some c →
  ∃ c', Cities h' !! j = Some c' ∧ sameCity c c'.
Proof. intros H Hj. by eapply visitCities_same. Qed.

(** The handler an iteration ends with, however it ends. *)
Lemma cycle_handler_ending (t : tick) (w : world) :
  handler (ending (cycle t w)) = handler w ∨
  ∃ content bitmap b',
    decode t content = Some bitmap ∧
    classify bitmap (handler w) = Some (b', handler (ending (cycle t w))).
Proof.
  destruct (files (swept t w) !! artifact (dateTxt (now t))) as [m|] eqn:Ef.
  { left. rewrite cycle_hit by (by rewrite Ef). cbn. apply swept_handler. }
  rewrite cycle_miss by done. unfold downloadRadar.
  destruct (_ || _); destruct (getResp t) as [resp|];
    try (left; cbn; apply swept_handler).
  cbn.
  destruct (decode t (Body resp)) as [bitmap|] eqn:Ed;
    [|left; cbn; apply swept_handler].
  rewrite swept_handler.
  destruct (classify bitmap (handler w)) as [[b' h']|] eqn:Ec;
    [|left; cbn; apply swept_handler].
  right. exists (Body resp), bitmap, b'. split; [done|].
  cbn zeta.
  destruct (createFails t); [by destruct (bool_decide _)|].
  destruct (encodeFails t); by destruct (bool_decide _).
Qed.

Lemma cycle_same (t : tick) (w : world) (j : nat) (c : City) :
  Cities (handler w) !! j = Some c →
  ∃ c', Cities (handler (ending (cycle t w))) !! j = Some c' ∧ sameCity c c'.
Proof.
  intros Hj.
  destruct (cycle_handler_ending t w) as [->|(content & bitmap & b' & _ & Hc)].
  - by exists c.
  - by eapply classify_same.
Qed.

Lemma cycle_length (t : tick) (w : world) :
  length (Cities (handler (ending (cycle t w)))) = length (Cities (handler w)).
Proof.
  destruct (cycle_handler_ending t w) as [->|(content & bitmap & b' & _ & Hc)];
    [done|].
  by destruct (classify_inOrder _ _ _ _ Hc).
Qed.

Lemma cycle_inOrder (t : tick) (w : world) :
  inOrder (handler w) → inOrder (handler (ending (cycle t w))).
Proof.
  intros H.
  destruct (cycle_handler_ending t w) as [->|(content & bitmap & b' & _ & Hc)];
    [done|].
  by destruct (classify_inOrder _ _ _ _ Hc).
Qed.

Lemma BackgroundLoop_cons (t : tick) (ts : list tick) (w : world) :
  ending (BackgroundLoop (t :: ts) w)
  = match cycle t w with
    | Returns _ w' => ending (BackgroundLoop ts w')
    | r => ending r
    end.
Proof. cbn [BackgroundLoop]. by destruct (cycle t w). Qed.

(** A property of the world that every iteration keeps holds at the end
    of every run. *)
Lemma BackgroundLoop_ending_ind (P : world → Prop) :
  (∀ t w, P w → P (ending (cycle t w))) →
  ∀ ts w, P w → P (ending (BackgroundLoop ts w)).
Proof.
  intros Hstep ts. induction ts as [|t ts IH]; intros w Hw; [done|].
  rewrite BackgroundLoop_cons. specialize (Hstep t w Hw).
  destruct (cycle t w) as [[] w'|w'|w']; cbn in Hstep; [by apply IH|done..].
Qed.

Lemma BackgroundLoop_keeps (P : Handler → Prop) :
  (∀ t w, P (handler w) → P (handler (ending (cycle t w)))) →
  ∀ ts w, P (handler w) → P (handler (ending (BackgroundLoop ts w))).
Proof. intros H. apply (BackgroundLoop_ending_ind (λ w, P (handler w))), H. Qed.

Lemma sublist_omap {A B : Type} (f : A → option B) (l1 l2 : list A) :
  l1 `sublist_of` l2 → omap f l1 `sublist_of` omap f l2.
Proof.
  induction 1 as [|x l1 l2 _ IH|x l1 l2 _ IH]; cbn.
  - constructor.
  - destruct (f x); [by constructor|done].
  - destruct (f x); [by constructor|done].
Qed.

Lemma omap_lookup_seq {A : Type} (l pre : list A) :
  omap (λ i, (pre ++ l) !! i) (seq (length pre) (length l)) = l.
Proof.
  revert pre. induction l as [|x l IH]; intros pre; [done|].
  cbn [length seq omap list_omap]. rewrite list_lookup_middle by done.
  f_equal. specialize (IH (pre ++ [x])).
  rewrite <- app_assoc, length_app in IH. cbn in IH.
  by rewrite Nat.add_1_r in IH.
Qed.

Lemma inOrder_current (h : Handler) :
  inOrder h → current h `sublist_of` Cities h.
Proof.
  intros H. unfold current.
  assert (omap (λ i, Cities h !! i) (seq 0 (length (Cities h))) = Cities h) as E
    by exact (omap_lookup_seq (Cities h) []).
  pose proof (sublist_omap (λ i, Cities h !! i) _ _ H) as H'.
  by rewrite E in H'.
Qed.

(** ** Markers and later samples *)

(** A visit writes no pixel outside the marker of the city it visits. *)
Lemma visitCity_bitmap (lonPx latPx : float) (b b' : image.NRGBA)
    (h h' : Handler) (i : nat) (city : City) (px py : Z) :
  image.cloned b →
  visitCity lonPx latPx (b, h) i = Some (b', h') →
  Cities h !! i = Some city →
  image.PointIn px py
    (marker (pixelX lonPx (Lon city)) (pixelY latPx (Lat city))) = false →
  image.NRGBAAt b' px py = image.NRGBAAt b px py.
Proof.
  intros Hb H Hi Hout.
  destruct (visitCity_inv_draw _ _ _ _ _ _ _ H)
    as (city' & r & g & v & Ec & _ & _ & Hd).
  rewrite Hi in Ec. injection Ec as <-.
  by eapply Draw_frame.
Qed.

Lemma visitCities_bitmap (lonPx latPx : float) (n : nat) (px py : Z) :
  ∀ k b b' h h',
    image.cloned b →
    visitCities lonPx latPx (b, h) (seq k n) = Some (b', h') →
    (∀ j cj, (k ≤ j < k + n)%nat → Cities h !! j = Some cj →
       image.PointIn px py
         (marker (pixelX lonPx (Lon cj)) (pixelY latPx (Lat cj))) = false) →
    image.NRGBAAt b' px py = image.NRGBAAt b px py.
Proof.
  induction n as [|n IH]; intros k b b' h h' Hb H Hfar.
  - by injection H as <- <-.
  - cbn [seq] in H. rewrite visitCities_cons in H.
    destruct (visitCity lonPx latPx (b, h) k) as [[b1 h1]|] eqn:E; [|done].
    cbn in H.
    destruct (visitCity_inv _ _ _ _ _ _ _ E) as (ck & r & g & v & Ek & _ & _).
    destruct (visitCity_total lonPx latPx b h k Hb) as (b1' & h1' & E' & Hs & _).
    { by eapply lookup_lt_Some. }
    rewrite E in E'. injection E' as <- <-.
    rewrite (IH (S k) b1 b' h1 h' (sameShape_cloned _ _ Hs Hb) H).
    + apply (visitCity_bitmap _ _ _ _ _ _ _ ck _ _ Hb E Ek).
      apply (Hfar k ck); [lia|done].
    + intros j cj Hj Hcj.
      destruct (visitCity_frame _ _ _ _ _ _ j k E ltac:(lia)) as [Ej _].
      rewrite Ej in Hcj. apply (Hfar j cj); [lia|done].
Qed.

(** X5.  However long the loop runs and however it ends, the city list
    keeps its length, and the city at each position keeps its [ID],
    [Name], [Lat] and [Lon]: iterations only recolour cities. *)
Theorem cities_keep_identity (ts : list tick) (w : world) :
  length (Cities (handler (ending (BackgroundLoop ts w))))
  = length (Cities (handler w)) ∧
  ∀ i c,
    Cities (handler w) !! i = Some c →
    ∃ c', Cities (handler (ending (BackgroundLoop ts w))) !! i = Some c' ∧
          ID c' = ID c ∧ Name c' = Name c ∧ Lat c' = Lat c ∧ Lon c' = Lon c.
Proof.
  apply (BackgroundLoop_keeps
           (λ h, length (Cities h) = length (Cities (handler w)) ∧
                 ∀ i c, Cities (handler w) !! i = Some c →
                        ∃ c', Cities h !! i = Some c' ∧ sameCity c c')).
  - intros t w1 [Hl Hc]. split; [by rewrite cycle_length|].
    intros i c Hi. destruct (Hc i c Hi) as (c1 & Hc1 & Hs1).
    destruct (cycle_same t w1 i c1 Hc1) as (c' & Hc' & Hs').
    exists c'. split; [done|]. by eapply sameCity_trans.
  - split; [done|]. intros i c Hi. by exists c.
Qed.

(** X6.  The published list keeps the order of [mesta.csv]: when it
    starts as a sublist of the positions of the city list, then after
    any run of the loop it still is one, it names no city twice, and the
    cities served are a sublist of the city list. *)
Theorem served_in_load_order (ts : list tick) (w : world) :
  CitiesWithRain (handler w) `sublist_of` seq 0 (length (Cities (handler w))) →
  CitiesWithRain (handler (ending (BackgroundLoop ts w)))
    `sublist_of` seq 0 (length (Cities (handler (ending (BackgroundLoop ts w))))) ∧
  NoDup (CitiesWithRain (handler (ending (BackgroundLoop ts w)))) ∧
  current (handler (ending (BackgroundLoop ts w)))
    `sublist_of` Cities (handler (ending (BackgroundLoop ts w))).
Proof.
  intros H.
  assert (inOrder (handler (ending (BackgroundLoop ts w)))) as Hord.
  { apply (BackgroundLoop_keeps inOrder); [apply cycle_inOrder|exact H]. }
  split; [exact Hord|]. split.
  - eapply sublist_NoDup; [apply NoDup_seq|exact Hord].
  - by apply inOrder_current.
Qed.

Lemma served_in_load_order_witness :
  CitiesWithRain (handler (ending (BackgroundLoop [Sample.first] Sample.start)))
    `sublist_of`
    seq 0 (length (Cities (handler (ending
                     (BackgroundLoop [Sample.first] Sample.start))))) ∧
  NoDup (CitiesWithRain (handler (ending
           (BackgroundLoop [Sample.first] Sample.start)))) ∧
  current (handler (ending (BackgroundLoop [Sample.first] Sample.start)))
    `sublist_of`
    Cities (handler (ending (BackgroundLoop [Sample.first] Sample.start))).
Proof.
  apply (served_in_load_order [Sample.first] Sample.start).
  apply sublist_nil_l.
Defined.

(** X7.  The loop samples the picture it is drawing on.  When no marker
    of an earlier city covers a pixel of the window of the city at
    position [i], the colour averaged for that city is the one
    [getAvgColor] finds on the picture as it was decoded: the city is
    published exactly when that colour passes the test, and then
    carries it. *)
Theorem distant_markers_do_not_interfere (bitmap b' : image.NRGBA)
    (h h' : Handler) (i : nat) (city : City) :
  image.cloned bitmap →
  classify bitmap h = Some (b', h') →
  Cities h !! i = Some city →
  (∀ j cj xx yy,
     (j < i)%nat → Cities h !! j = Some cj → xx ∈ window → yy ∈ window →
     image.PointIn
       (add64 (pixelX (lonPixelSize bitmap) (Lon city)) xx)
       (add64 (pixelY (latPixelSize bitmap) (Lat city)) yy)
       (marker (pixelX (lonPixelSize bitmap) (Lon cj))
               (pixelY (latPixelSize bitmap) (Lat cj))) = false) →
  ∃ r g v,
    getAvgColor bitmap (pixelX (lonPixelSize bitmap) (Lon city))
                       (pixelY (latPixelSize bitmap) (Lat city)) = Some (r, g, v) ∧
    (i ∈ CitiesWithRain h' ↔ isRaining r g v = true) ∧
    (isRaining r g v = true → Cities h' !! i = Some (setColor city r g v)).
Proof.
  intros Hb Hc Hi Hfar.
  destruct (classify_member _ _ _ _ _ _ Hc Hi)
    as (b_i & h_i & r & g & v & Epre & Eavg & Hmem & Hcol).
  exists r, g, v. split; [|done].
  rewrite <- Eavg. symmetry. apply getAvgColor_local.
  intros xx yy Hxx Hyy.
  apply (visitCities_bitmap _ _ i _ _ 0%nat bitmap b_i _ h_i Hb Epre).
  intros j cj Hj Hcj. cbn in Hcj. apply (Hfar j cj); [lia|done..].
Qed.

(** ** The key of the bucket *)

(** The calendar fields of a [time.Time] in the years 0 to 9999. *)
Definition calendar (t : time.Time) : Prop :=
  0 ≤ time.year t ≤ 9999 ∧ 1 ≤ time.month t ≤ 12 ∧ 1 ≤ time.day t ≤ 31 ∧
  0 ≤ time.hour t ≤ 23 ∧ 0 ≤ time.minute t ≤ 59.

(** The time with its minutes rounded down to a multiple of ten. *)
Definition tenMinuteMark (t : time.Time) : time.Time :=
  time.mkTime (time.unixNano t) (time.year t) (time.month t) (time.day t)
              (time.hour t) (10 * (time.minute t / 10)).

Definition two (x : Z) : string :=
  String (time.digit (x / 10)) (String (time.digit x) EmptyString).

Definition four (x : Z) : string :=
  String (time.digit (x / 1000)) (String (time.digit (x / 100))
    (String (time.digit (x / 10)) (String (time.digit x) EmptyString))).

(** [ok] holds of the [k] integers from [n] on. *)
Fixpoint all_from (ok : Z → bool) (k : nat) (n : Z) : bool :=
  match k with
  | O => true
  | S k => ok n && all_from ok k (n + 1)
  end.

Lemma all_from_lookup (ok : Z → bool) (k : nat) (n i : Z) :
  all_from ok k n = true → n ≤ i < n + Z.of_nat k → ok i = true.
Proof.
  revert n. induction k as [|k IH]; intros n H Hi; [lia|].
  cbn [all_from] in H. apply andb_true_iff in H as [H0 H].
  destruct (Z.eq_dec i n) as [->|]; [done|].
  apply (IH (n + 1)); [done|lia].
Qed.

Lemma appendInt_two_table :
  all_from (λ x, String.eqb (time.appendInt x 2) (two x)) (Z.to_nat 100) 0 = true.
Proof. vm_compute. reflexivity. Qed.

Lemma appendInt_four_table :
  all_from (λ x, String.eqb (time.appendInt x 4) (four x)) (Z.to_nat 10000) 0
  = true.
Proof. vm_compute. reflexivity. Qed.

Lemma appendInt_two (x : Z) : 0 ≤ x < 100 → time.appendInt x 2 = two x.
Proof.
  intros H. apply String.eqb_eq.
  apply (all_from_lookup _ _ _ x appendInt_two_table).
  rewrite Z2Nat.id by lia. lia.
Qed.

Lemma appendInt_four (x : Z) : 0 ≤ x < 10000 → time.appendInt x 4 = four x.
Proof.
  intros H. apply String.eqb_eq.
  apply (all_from_lookup _ _ _ x appendInt_four_table).
  rewrite Z2Nat.id by lia. lia.
Qed.

Lemma Format_calendar (t : time.Time) :
  calendar t →
  time.Format t
  = four (time.year t) +:+ two (time.month t) +:+ two (time.day t)
      +:+ "." +:+ two (time.hour t) +:+ two (time.minute t).
Proof.
  intros (Hy & Hm & Hd & Hh & Hmi). unfold time.Format.
  by rewrite appendInt_four, !appendInt_two by lia.
Qed.

Lemma dateTxt_calendar (t : time.Time) :
  calendar t →
  dateTxt t
  = four (time.year t) +:+ two (time.month t) +:+ two (time.day t)
      +:+ "." +:+ two (time.hour t)
      +:+ String (time.digit (time.minute t / 10)) "0".
Proof.
  intros H. unfold dateTxt. rewrite Format_calendar by done. reflexivity.
Qed.

Lemma digit_inj (a b : Z) : time.digit a = time.digit b → a mod 10 = b mod 10.
Proof.
  unfold time.digit. intros H.
  apply (f_equal nat_of_ascii) in H.
  pose proof (Z.mod_pos_bound a 10 ltac:(lia)).
  pose proof (Z.mod_pos_bound b 10 ltac:(lia)).
  rewrite !nat_ascii_embedding in H by lia. lia.
Qed.

Lemma digit_tens (q : Z) : time.digit (10 * q) = "0"%char.
Proof.
  unfold time.digit. by rewrite Z.mul_comm, Z_mod_mult.
Qed.

Lemma two_digits_inj (a b : Z) :
  0 ≤ a < 100 → 0 ≤ b < 100 →
  (a / 10) mod 10 = (b / 10) mod 10 → a mod 10 = b mod 10 → a = b.
Proof. intros Ha Hb. Z.div_mod_to_equations. lia. Qed.

Lemma four_digits_inj (a b : Z) :
  0 ≤ a < 10000 → 0 ≤ b < 10000 →
  (a / 1000) mod 10 = (b / 1000) mod 10 → (a / 100) mod 10 = (b / 100) mod 10 →
  (a / 10) mod 10 = (b / 10) mod 10 → a mod 10 = b mod 10 → a = b.
Proof. intros Ha Hb. Z.div_mod_to_equations. lia. Qed.

Lemma tens_inj (a b : Z) :
  0 ≤ a < 100 → 0 ≤ b < 100 →
  (a / 10) mod 10 = (b / 10) mod 10 → a / 10 = b / 10.
Proof. intros Ha Hb. Z.div_mod_to_equations. lia. Qed.

(** X8.  The key of the bucket, [formattedDate[:len(format)-1] + "0"],
    is the time formatted with its minutes rounded down to a multiple of
    ten, and has 13 characters, for every calendar time of the years 0
    to 9999. *)
Theorem key_is_ten_minute_mark (t : time.Time) :
  calendar t →
  dateTxt t = time.Format (tenMinuteMark t) ∧ String.length (dateTxt t) = 13%nat.
Proof.
  intros H. rewrite dateTxt_calendar by done.
  rewrite Format_calendar.
  2:{ destruct H as (Hy & Hm & Hd & Hh & Hmi). unfold calendar, tenMinuteMark.
      cbn [time.year time.month time.day time.hour time.minute].
      pose proof (Z.mul_div_le (time.minute t) 10 ltac:(lia)).
      pose proof (Z.div_pos (time.minute t) 10 ltac:(lia) ltac:(lia)).
      lia. }
  unfold tenMinuteMark. cbn [time.year time.month time.day time.hour time.minute].
  split; [|reflexivity].
  unfold two. rewrite digit_tens.
  by rewrite (Z.mul_comm 10), Z.div_mul by lia.
Qed.

Lemma key_is_ten_minute_mark_witness :
  dateTxt Sample.noon = time.Format (tenMinuteMark Sample.noon) ∧
  String.length (dateTxt Sample.noon) = 13%nat.
Proof.
  apply (key_is_ten_minute_mark Sample.noon).
  unfold calendar. cbn. lia.
Defined.

(** X9.  Two calendar times of the years 0 to 9999 have the same key
    exactly when they agree on the year, the month, the day, the hour
    and the tens of the minutes. *)
Theorem same_key_same_bucket (t t' : time.Time) :
  calendar t → calendar t' →
  (dateTxt t = dateTxt t' ↔
   time.year t = time.year t' ∧ time.month t = time.month t' ∧
   time.day t = time.day t' ∧ time.hour t = time.hour t' ∧
   time.minute t / 10 = time.minute t' / 10).
Proof.
  intros H H'. rewrite !dateTxt_calendar by done.
  destruct H as (Hy & Hm & Hd & Hh & Hmi).
  destruct H' as (Hy' & Hm' & Hd' & Hh' & Hmi').
  split.
  - unfold four, two.
    intros [= E1 E2 E3 E4 E5 E6 E7 E8 E9 E10 E11].
    apply digit_inj in E1, E2, E3, E4, E5, E6, E7, E8, E9, E10, E11.
    split; [apply four_digits_inj; done || lia|].
    split; [apply two_digits_inj; done || lia|].
    split; [apply two_digits_inj; done || lia|].
    split; [apply two_digits_inj; done || lia|].
    apply tens_inj; done || lia.
  - intros (-> & -> & -> & -> & ->). done.
Qed.

Lemma same_key_same_bucket_witness :
  dateTxt Sample.noon = dateTxt Sample.noon'.
Proof.
  apply (same_key_same_bucket Sample.noon Sample.noon');
    [unfold calendar; cbn; lia..|].
  cbn. repeat split; reflexivity.
Defined.

(** ** The names of the pictures *)

Lemma append_length (s t : string) :
  String.length (s +:+ t) = (String.length s + String.length t)%nat.
Proof.
  induction s as [|c s IH]; [done|].
  change (String c s +:+ t) with (String c (s +:+ t)).
  cbn [String.length]. by rewrite IH.
Qed.

Lemma append_inj_r (s1 s2 t : string) : s1 +:+ t = s2 +:+ t → s1 = s2.
Proof.
  revert s2. induction s1 as [|c s1 IH]; intros [|c' s2] H.
  - done.
  - apply (f_equal String.length) in H.
    rewrite (append_length (String c' s2) t) in H.
    change (String.length ("" +:+ t)) with (String.length t) in H.
    cbn [String.length] in H. lia.
  - apply (f_equal String.length) in H.
    rewrite (append_length (String c s1) t) in H.
    change (String.length ("" +:+ t)) with (String.length t) in H.
    cbn [String.length] in H. lia.
  - change (String c (s1 +:+ t) = String c' (s2 +:+ t)) in H.
    injection H as -> H. f_equal. by apply IH.
Qed.

Lemma artifact_prefix (d : string) : HasPrefix (artifact d) artifactPrefix = true.
Proof. unfold HasPrefix, artifact, artifactPrefix. by destruct d. Qed.

Lemma artifact_inj (d d' : string) : artifact d = artifact d' → d = d'.
Proof.
  unfold artifact. intros H. apply (inj (String.app "radar_a_mesta_")) in H.
  by apply append_inj_r in H.
Qed.

(** X10.  The file name of a bucket starts with the prefix the janitor
    looks for, and two keys give the same file name only when they are
    the same key. *)
Theorem artifact_names (d d' : string) :
  HasPrefix (artifact d) artifactPrefix = true ∧
  (artifact d = artifact d' ↔ d = d').
Proof.
  split; [apply artifact_prefix|]. split; [apply artifact_inj|by intros ->].
Qed.

(** ** What a run leaves alone *)

Lemma sweep_foreign (t : tick) (w : world) (name : string) :
  HasPrefix name artifactPrefix = false →
  files (sweep t w) !! name = files w !! name.
Proof. intros H. rewrite sweep_lookup. unfold doomed. by rewrite H. Qed.

Lemma cycle_foreign (t : tick) (w : world) (name : string) :
  HasPrefix name artifactPrefix = false →
  files (ending (cycle t w)) !! name = files w !! name.
Proof.
  intros H. rewrite cycle_files; [by apply sweep_foreign|].
  intros ->. by rewrite artifact_prefix in H.
Qed.

(** X11.  The loop never creates, changes or removes a file whose name
    does not start with [radar_a_mesta_]: after any run, however it
    ends, such a name is in the directory as it was before. *)
Theorem other_files_untouched (ts : list tick) (w : world) (name : string) :
  HasPrefix name artifactPrefix = false →
  files (ending (BackgroundLoop ts w)) !! name = files w !! name.
Proof.
  intros H.
  apply (BackgroundLoop_ending_ind (λ w', files w' !! name = files w !! name));
    [|done].
  intros t w1 E. by rewrite cycle_foreign.
Qed.

(** ** Requests *)

(** X12.  An iteration sends exactly one request when the picture of
    its bucket is missing after the janitor has run, and none when it is
    there, however the iteration ends; so a run of [n] iterations sends
    at most [n] requests. *)
Theorem one_request_per_missing_bucket (ts : list tick) (t : tick) (w : world) :
  fetches (trace (ending (cycle t w)))
  = (fetches (trace w)
     + if bool_decide (is_Some (files (sweep t w) !! artifact (dateTxt (now t))))
       then 0 else 1)%nat ∧
  (fetches (trace w) ≤ fetches (trace (ending (BackgroundLoop ts w)))
   ≤ fetches (trace w) + length ts)%nat.
Proof.
  split; [apply cycle_fetches|].
  revert w. induction ts as [|t' ts IH]; intros w; [cbn; lia|].
  rewrite BackgroundLoop_cons. pose proof (cycle_fetches t' w) as Hc.
  destruct (bool_decide _) in Hc;
    destruct (cycle t' w) as [[] w'|w'|w']; cbn [ending length] in *;
    try specialize (IH w'); lia.
Qed.

(** ** Fatal errors and publication *)

Lemma swept_files (t : tick) (w : world) : files (swept t w) = files (sweep t w).
Proof. apply map_eq. intros name. by rewrite swept_lookup, sweep_lookup. Qed.

(** X13.  When the body of a 200 response is not a picture,
    [imaging.Decode] fails and the program calls [log.Fatal]: the
    process exits in that iteration with the published list and the
    directory as the janitor left them, and no later iteration runs. *)
Theorem decode_failure_exits (t : tick) (w : world) (resp : Response) :
  files (sweep t w) !! artifact (dateTxt (now t)) = None →
  getResp t = Some resp → getErr t = false → StatusCode resp = 200 →
  decode t (Body resp) = None →
  ∃ w',
    cycle t w = Exits w' ∧
    last (trace w') = Some (EvLog (LogFatal "Decode")) ∧
    handler w' = handler w ∧
    files w' = files (sweep t w) ∧
    ∀ ts, BackgroundLoop (t :: ts) w = Exits w'.
Proof.
  intros Hmiss Hresp Herr Hst Hdec.
  assert (files (swept t w) !! artifact (dateTxt (now t)) = None) as Hmiss'.
  { rewrite <- Hmiss. by rewrite swept_lookup, sweep_lookup. }
  rewrite (cycle_miss t w Hmiss').
  rewrite (downloadRadar_ok t _ _ resp Hresp Herr Hst), Hdec.
  eexists. split; [done|]. split; [cbn [emit trace]; apply last_snoc|].
  split; [cbn; apply swept_handler|]. split; [cbn; apply swept_files|].
  intros ts. cbn [BackgroundLoop].
  rewrite (cycle_miss t w Hmiss').
  by rewrite (downloadRadar_ok t _ _ resp Hresp Herr Hst), Hdec.
Qed.

Lemma decode_failure_exits_witness :
  ∃ w',
    cycle (mkTick [] (λ _, false) (λ _, false) (λ _, 0) Sample.noon Sample.ok false
                  (λ _, None) false 0 false) Sample.start = Exits w' ∧
    last (trace w') = Some (EvLog (LogFatal "Decode")) ∧
    handler w' = handler Sample.start.
Proof.
  destruct (decode_failure_exits
              (mkTick [] (λ _, false) (λ _, false) (λ _, 0) Sample.noon Sample.ok
                      false (λ _, None) false 0 false)
              Sample.start (mkResponse 200 [137; 80; 78; 71]))
    as (w' & H1 & H2 & H3 & _); try reflexivity.
  exists w'. split; [exact H1|]. split; [exact H2|exact H3].
Defined.

(** X14.  An iteration changes the handler only on the way through a
    decoded picture: if it leaves the handler different, then the
    picture of the bucket was missing after the janitor, [http.Get]
    reported no error, the status was 200 and the body decoded. *)
Theorem publication_needs_a_picture (t : tick) (w : world) :
  handler (ending (cycle t w)) ≠ handler w →
  files (sweep t w) !! artifact (dateTxt (now t)) = None ∧
  getErr t = false ∧
  ∃ resp bitmap,
    getResp t = Some resp ∧ StatusCode resp = 200 ∧
    decode t (Body resp) = Some bitmap.
Proof.
  intros Hne.
  assert (files (swept t w) !! artifact (dateTxt (now t))
          = files (sweep t w) !! artifact (dateTxt (now t))) as Esw
    by (by rewrite swept_lookup, sweep_lookup).
  rewrite <- Esw.
  destruct (files (swept t w) !! artifact (dateTxt (now t))) as [m|] eqn:Ef.
  { exfalso. apply Hne. rewrite cycle_hit by (by rewrite Ef).
    cbn. apply swept_handler. }
  split; [done|].
  rewrite cycle_miss in Hne by done. unfold downloadRadar in Hne.
  destruct (getErr t) eqn:Eerr; cbn [orb] in Hne.
  { exfalso. apply Hne. destruct (getResp t); cbn; apply swept_handler. }
  split; [done|].
  destruct (getResp t) as [resp|] eqn:Er; cbn in Hne.
  2:{ exfalso. apply Hne. apply swept_handler. }
  destruct (decide (StatusCode resp = 200)) as [Hst|Hst].
  2:{ exfalso. apply Hne.
      rewrite bool_decide_eq_false_2 by (by intros [= ?]).
      cbn. apply swept_handler. }
  rewrite bool_decide_eq_true_2 in Hne by (by rewrite Hst). cbn in Hne.
  destruct (decode t (Body resp)) as [bitmap|] eqn:Ed.
  2:{ exfalso. apply Hne. cbn. apply swept_handler. }
  by exists resp, bitmap.
Qed.

(** ** The lock: exclusion and progress *)

Lemma locked_count_find (rs : list rpc) :
  (0 < locked_count rs)%nat → ∃ k r, rs !! k = Some r ∧ rlocked r = true.
Proof.
  induction rs as [|a rs IH]; unfold locked_count; cbn; [lia|].
  destruct (rlocked a) eqn:E.
  - intros _. by exists 0%nat, a.
  - intros H. destruct (IH H) as (k & r & Hk & Hr). by exists (S k), r.
Qed.

(** A reader that holds a read lock can always go on. *)
Lemma locked_reader_steps (s : shared) (r : rpc) :
  rlocked r = true → ∃ s' r', rstep (s, r) (s', r').
Proof.
  destruct r as [| |[|i rest] out|out]; intros H; try done.
  - eexists _, _. apply r_slice.
  - eexists _, _. apply r_unlock.
  - eexists _, _. apply r_city.
Qed.

Definition returned (r : rpc) : Prop := ∃ out, r = RDone out.

Lemma readers_returned_or_not (rs : list rpc) :
  Forall returned rs ∨ ∃ k r, rs !! k = Some r ∧ ¬ returned r.
Proof.
  induction rs as [|a rs [IH|(k & r & Hk & Hr)]].
  - left. constructor.
  - destruct a as [| |rest out|out].
    + right. exists 0%nat, RBefore. split; [done|]. by intros [out ?].
    + right. exists 0%nat, RLocked. split; [done|]. by intros [out ?].
    + right. exists 0%nat, (REncode rest out). split; [done|]. by intros [? ?].
    + left. constructor; [by exists out|done].
  - right. by exists (S k), r.
Qed.

(** X15.  The lock excludes: in every interleaving of one pass of the
    writer with any number of [HandleGet] calls, the mutex records the
    write lock exactly while the writer is in its locked section and
    counts the calls between [RLock] and [RUnlock], and never is the
    writer in its locked section while a call holds a read lock. *)
Theorem lock_excludes (h0 : Handler) (bitmap : image.NRGBA) (n : nat)
    (s : shared) (w : wpc) (rs : list rpc) :
  rtc step (init h0 bitmap n) (s, w, rs) →
  writing s = wlocked w ∧
  reading s = locked_count rs ∧
  ¬ (wlocked w = true ∧ ∃ k r, rs !! k = Some r ∧ rlocked r = true).
Proof.
  intros Hrun.
  destruct (inv_rtc h0 bitmap _ _ Hrun (inv_init h0 bitmap n))
    as (Hw & Hr & Hex & _ & _).
  split; [done|]. split; [done|].
  intros (Hl & k & r & Hk & Hrl).
  pose proof (locked_count_pos rs k r Hk Hrl) as Hpos.
  rewrite Hl in Hw. specialize (Hex Hw). lia.
Qed.

Lemma lock_excludes_witness :
  ∃ s,
    rtc step (init Sample.cities (Sample.raster Sample.blue) 1)
      (s, WBefore (Sample.raster Sample.blue), [RLocked]) ∧
    writing s = false ∧ reading s = 1%nat.
Proof.
  assert (∃ s, rtc step (init Sample.cities (Sample.raster Sample.blue) 1)
                 (s, WBefore (Sample.raster Sample.blue), [RLocked])) as [s Hrun].
  { eexists. unfold init. cbn [replicate].
    eapply rtc_l; [eapply (step_reader _ _ _ 0); [reflexivity|apply r_lock; reflexivity]|].
    apply rtc_refl. }
  exists s. split; [exact Hrun|].
  destruct (lock_excludes _ _ _ _ _ _ Hrun) as (Hw & Hr & _).
  split; [exact Hw|exact Hr].
Defined.

(** X16.  The lock does not deadlock: in every reachable state in which
    the writer is alive, either the writer has released the lock and
    every call has returned, or somebody can take a step. *)
Theorem lock_never_deadlocks (h0 : Handler) (bitmap : image.NRGBA) (n : nat)
    (s : shared) (w : wpc) (rs : list rpc) :
  rtc step (init h0 bitmap n) (s, w, rs) →
  w ≠ WDead →
  (w = WDone ∧ ∀ r, r ∈ rs → ∃ out, r = RDone out) ∨
  ∃ c', step (s, w, rs) c'.
Proof.
  intros Hrun Halive.
  destruct (inv_rtc h0 bitmap _ _ Hrun (inv_init h0 bitmap n))
    as (Hw & Hr & Hex & _ & _).
  destruct w as [b|b|lonPx latPx b [|i rest]| | |]; cbn in Hw.
  - (* the writer waits for the lock *)
    right. destruct (locked_count rs) as [|m] eqn:Ec.
    + eexists. apply step_writer. by apply w_lock.
    + destruct (locked_count_find rs) as (k & r & Hk & Hrl); [lia|].
      destruct (locked_reader_steps s r Hrl) as (s' & r' & Hstep).
      eexists. by eapply step_reader.
  - right. eexists. apply step_writer, w_reset.
  - right. eexists. apply step_writer, w_persist.
  - right. destruct (visitCity lonPx latPx (b, hdl s) i) as [[b' h']|] eqn:E.
    + eexists. apply step_writer. by eapply w_visit.
    + eexists. apply step_writer. by eapply w_panic.
  - right. eexists. apply step_writer, w_unlock.
  - (* the writer is done *)
    destruct (readers_returned_or_not rs) as [Hall|(k & r & Hk & Hnr)].
    + left. split; [done|]. intros r Hin.
      by apply (proj1 (Forall_forall _ _) Hall).
    + right. destruct r as [| |rest out|out].
      * eexists. eapply step_reader; [done|]. by apply r_lock.
      * destruct (locked_reader_steps s RLocked eq_refl) as (s' & r' & Hstep).
        eexists. by eapply step_reader.
      * destruct (locked_reader_steps s (REncode rest out) eq_refl)
          as (s' & r' & Hstep).
        eexists. by eapply step_reader.
      * exfalso. apply Hnr. by exists out.
  - done.
Qed.

Lemma lock_never_deadlocks_witness :
  ∃ c', step (init Sample.cities (Sample.raster Sample.blue) 1) c'.
Proof.
  destruct (lock_never_deadlocks Sample.cities (Sample.raster Sample.blue) 1
              (mkShared Sample.cities false 0) (WBefore (Sample.raster Sample.blue))
              [RBefore]) as [[H _]|H].
  - apply rtc_refl.
  - discriminate.
  - discriminate H.
  - exact H.
Defined.

(** ** [LoadCities] *)

Section LoadCitiesFacts.
Variables (ToInt : string → Z) (ToFloat64 : string → float).

Lemma newCity_Some (record : list string) :
  (4 ≤ length record)%nat ↔ is_Some (newCity ToInt ToFloat64 record).
Proof.
  unfold newCity. split.
  - intros H.
    destruct (lookup_lt_is_Some_2 record 0 ltac:(lia)) as [f0 ->].
    destruct (lookup_lt_is_Some_2 record 1 ltac:(lia)) as [f1 ->].
    destruct (lookup_lt_is_Some_2 record 2 ltac:(lia)) as [f2 ->].
    destruct (lookup_lt_is_Some_2 record 3 ltac:(lia)) as [f3 ->].
    by eexists.
  - intros [c H].
    destruct (record !! 3%nat) as [f3|] eqn:E3.
    + apply lookup_lt_Some in E3. lia.
    + destruct (record !! 0%nat); [|done]. cbn in H.
      destruct (record !! 1%nat); [|done]. cbn in H.
      destruct (record !! 2%nat); done.
Qed.

Lemma newCity_black (record : list string) (c : City) :
  newCity ToInt ToFloat64 record = Some c → R c = 0 ∧ G c = 0 ∧ B c = 0.
Proof.
  unfold newCity.
  destruct (record !! 0%nat); [|done]. cbn.
  destruct (record !! 1%nat); [|done]. cbn.
  destruct (record !! 2%nat); [|done]. cbn.
  destruct (record !! 3%nat); [|done]. cbn.
  by intros [= <-].
Qed.

Lemma loadRecords_ok (records : list (list string)) :
  ∀ h,
    (∀ r, r ∈ records → (4 ≤ length r)%nat) →
    ∃ cs, loadRecords ToInt ToFloat64 records h
          = (mkHandler (Cities h ++ cs) (CitiesWithRain h), false) ∧
          Forall2 (λ r c, newCity ToInt ToFloat64 r = Some c) records cs.
Proof.
  induction records as [|r records IH]; intros h Hall.
  - exists []. split; [|constructor]. cbn. rewrite app_nil_r. by destruct h.
  - destruct (proj1 (newCity_Some r) (Hall r ltac:(left))) as [c Hc].
    destruct (IH (mkHandler (Cities h ++ [c]) (CitiesWithRain h))) as (cs & E & Hcs).
    { intros r' Hr'. apply Hall. by right. }
    exists (c :: cs). split; [|by constructor].
    cbn [loadRecords]. rewrite Hc, E. cbn. by rewrite <- app_assoc.
Qed.

Lemma loadRecords_short (records : list (list string)) :
  ∀ h,
    (∃ r, r ∈ records ∧ (length r < 4)%nat) →
    (loadRecords ToInt ToFloat64 records h).2 = true.
Proof.
  induction records as [|r records IH]; intros h (r' & Hin & Hlen).
  - by apply elem_of_nil in Hin.
  - cbn [loadRecords]. destruct (newCity ToInt ToFloat64 r) as [c|] eqn:Ec; [|done].
    apply IH. exists r'. split; [|done].
    apply elem_of_cons in Hin as [->|Hin]; [|done].
    assert (is_Some (newCity ToInt ToFloat64 r)) as Hs by (by exists c).
    apply newCity_Some in Hs. lia.
Qed.

End LoadCitiesFacts.

(** X17.  [LoadCities] on a file whose records all have at least four
    fields returns with one city appended for each record, in the order
    of the file, built from the first four fields and coloured black; it
    leaves the published list, the directory and the log alone. *)
Theorem LoadCities_appends (ToInt : string → Z) (ToFloat64 : string → float)
    (records : list (list string)) (w : world) :
  (∀ r, r ∈ records → (4 ≤ length r)%nat) →
  ∃ cs,
    LoadCities ToInt ToFloat64 (Records records) w
    = Returns tt (mkWorld (files w)
                    (mkHandler (Cities (handler w) ++ cs)
                               (CitiesWithRain (handler w)))
                    (trace w)) ∧
    Forall2 (λ r c, newCity ToInt ToFloat64 r = Some c) records cs ∧
    length cs = length records ∧
    Forall (λ c, R c = 0 ∧ G c = 0 ∧ B c = 0) cs.
Proof.
  intros Hall.
  destruct (loadRecords_ok ToInt ToFloat64 records (handler w) Hall)
    as (cs & E & Hcs).
  exists cs. split; [|split; [done|split]].
  - unfold LoadCities. by rewrite E.
  - symmetry. by eapply Forall2_length.
  - apply Forall_forall. intros c Hc.
    apply list_elem_of_lookup in Hc as [i Hi].
    destruct (Forall2_lookup_r _ _ _ _ _ Hcs Hi) as (r & _ & Hr).
    by eapply newCity_black.
Qed.

Lemma LoadCities_appends_witness :
  ∃ cs,
    LoadCities (λ _, 7) (λ _, 50%float)
      (Records [["7"; "Praha"; "50.0877"; "14.4213"]])
      (mkWorld ∅ (mkHandler [] []) [])
    = Returns tt (mkWorld ∅ (mkHandler ([] ++ cs) []) []) ∧
    Forall2 (λ r c, newCity (λ _, 7) (λ _, 50%float) r = Some c)
      [["7"; "Praha"; "50.0877"; "14.4213"]] cs ∧
    length cs = 1%nat ∧
    Forall (λ c, R c = 0 ∧ G c = 0 ∧ B c = 0) cs.
Proof.
  apply (LoadCities_appends (λ _, 7) (λ _, 50%float)
           [["7"; "Praha"; "50.0877"; "14.4213"]]
           (mkWorld ∅ (mkHandler [] []) [])).
  intros r Hr. apply list_elem_of_singleton in Hr as ->. cbn. lia.
Defined.

(** X18.  [LoadCities] panics, with an index out of range, exactly when
    some record of the file has fewer than four fields. *)
Theorem LoadCities_short_record (ToInt : string → Z) (ToFloat64 : string → float)
    (records : list (list string)) (w : world) :
  (∃ r, r ∈ records ∧ (length r < 4)%nat) ↔
  ∃ w', LoadCities ToInt ToFloat64 (Records records) w = Panics w'.
Proof.
  split.
  - intros H.
    pose proof (loadRecords_short ToInt ToFloat64 records (handler w) H) as Hp.
    unfold LoadCities.
    destruct (loadRecords ToInt ToFloat64 records (handler w)) as [h p].
    cbn in Hp. subst p. by eexists.
  - intros [w' H].
    destruct (decide (Forall (λ r, 4 ≤ length r)%nat records)) as [Hall|Hnot].
    + destruct (loadRecords_ok ToInt ToFloat64 records (handler w)) as (cs & E & _).
      { intros r Hr. by apply (proj1 (Forall_forall _ _) Hall). }
      unfold LoadCities in H. by rewrite E in H.
    + apply not_Forall_Exists in Hnot; [|apply _].
      apply Exists_exists in Hnot as (r & Hin & Hlen).
      exists r. split; [done|]. cbn in Hlen. lia.
Qed.

(** ** Sample runs *)

Lemma bytes_uniform (w h : Z) (c : color.NRGBA) :
  byteColour c → bytes (image.uniform w h c).
Proof.
  intros (Hr & Hg & Hb & Ha). unfold bytes, image.uniform. cbn [image.Pix].
  apply Forall_concat, Forall_replicate.
  repeat constructor; lia.
Qed.

Lemma byteColour_blue : byteColour Sample.blue.
Proof. unfold byteColour. cbn. lia. Qed.

Lemma window_cases (v : Z) :
  v ∈ window →
  v = -4 ∨ v = -3 ∨ v = -2 ∨ v = -1 ∨ v = 0 ∨ v = 1 ∨ v = 2 ∨ v = 3 ∨ v = 4.
Proof. unfold window. rewrite elem_of_seqZ. lia. Qed.

Lemma raster_reads (c : color.NRGBA) (xx yy : Z) :
  xx ∈ window → yy ∈ window →
  image.NRGBAAt (Sample.raster c) (add64 4 xx) (add64 4 yy) = Some c.
Proof.
  intros Hx Hy. apply window_cases in Hx, Hy. destruct c as [r g b a].
  destruct Hx as [->|[->|[->|[->|[->|[->|[->|[->| ->]]]]]]]];
    destruct Hy as [->|[->|[->|[->|[->|[->|[->|[->| ->]]]]]]]];
    reflexivity.
Qed.

Lemma average_is_exact_witness :
  ∃ cs,
    Forall2 (reads (Sample.raster Sample.blue) 4 4) offsets cs ∧
    0 = Zsum ((λ c, color.R c * color.A c / 255) <$> cs) / 81 ∧
    108 = Zsum ((λ c, color.G c * color.A c / 255) <$> cs) / 81 ∧
    192 = Zsum ((λ c, color.B c * color.A c / 255) <$> cs) / 81.
Proof.
  apply (average_is_exact (Sample.raster Sample.blue) 4 4 0 108 192).
  - apply bytes_uniform, byteColour_blue.
  - vm_compute. reflexivity.
Defined.

Lemma uniform_window_witness :
  getAvgColor (Sample.raster Sample.blue) 4 4 = Some (0, 108, 192).
Proof.
  apply (uniform_window (Sample.raster Sample.blue) 4 4 Sample.blue).
  - apply byteColour_blue.
  - apply raster_reads.
  - reflexivity.
Defined.

Lemma marker_square_witness :
  ∃ q,
    draw.Draw (Sample.raster Sample.blue) (marker 4 4) Sample.olive = Some q ∧
    sameShape (Sample.raster Sample.blue) q ∧
    image.NRGBAAt q 8 8 = Some Sample.olive ∧
    image.NRGBAAt q 9 8 = Some color.zero.
Proof.
  destruct (marker_square (Sample.raster Sample.blue) 4 4 Sample.olive)
    as (q & Hd & Hs & Hq); [apply cloned_raster|lia|lia|].
  exists q. split; [exact Hd|]. split; [exact Hs|].
  split; rewrite Hq; reflexivity.
Defined.

Lemma away_is_distant (j : nat) (cj : City) (xx yy : Z) :
  (j < 1)%nat → Cities Sample.cities !! j = Some cj →
  xx ∈ window → yy ∈ window →
  image.PointIn
    (add64 (pixelX (lonPixelSize (Sample.raster Sample.blue)) (Lon Sample.away)) xx)
    (add64 (pixelY (latPixelSize (Sample.raster Sample.blue)) (Lat Sample.away)) yy)
    (marker (pixelX (lonPixelSize (Sample.raster Sample.blue)) (Lon cj))
            (pixelY (latPixelSize (Sample.raster Sample.blue)) (Lat cj))) = false.
Proof.
  intros Hj Hcj Hx Hy.
  assert (j = 0%nat) as -> by lia. injection Hcj as <-.
  replace (pixelX _ (Lon Sample.away)) with (-10) by (vm_compute; reflexivity).
  replace (pixelY _ (Lat Sample.away)) with (-17) by (vm_compute; reflexivity).
  replace (pixelX _ (Lon Sample.centre)) with 4 by (vm_compute; reflexivity).
  replace (pixelY _ (Lat Sample.centre)) with 4 by (vm_compute; reflexivity).
  apply window_cases in Hx, Hy.
  destruct Hx as [->|[->|[->|[->|[->|[->|[->|[->| ->]]]]]]]];
    destruct Hy as [->|[->|[->|[->|[->|[->|[->|[->| ->]]]]]]]];
    reflexivity.
Qed.

Lemma distant_markers_do_not_interfere_witness :
  ∃ b' h' r g v,
    classify (Sample.raster Sample.blue) Sample.cities = Some (b', h') ∧
    getAvgColor (Sample.raster Sample.blue)
      (pixelX (lonPixelSize (Sample.raster Sample.blue)) (Lon Sample.away))
      (pixelY (latPixelSize (Sample.raster Sample.blue)) (Lat Sample.away))
    = Some (r, g, v) ∧
    (1%nat ∈ CitiesWithRain h' ↔ isRaining r g v = true).
Proof.
  destruct (classify_total (Sample.raster Sample.blue) Sample.cities
              (cloned_raster Sample.blue)) as (b' & h' & Hc & _).
  destruct (distant_markers_do_not_interfere (Sample.raster Sample.blue) b'
              Sample.cities h' 1 Sample.away (cloned_raster Sample.blue) Hc
              eq_refl away_is_distant) as (r & g & v & Havg & Hmem & _).
  exists b', h', r, g, v. split; [exact Hc|]. split; [exact Havg|exact Hmem].
Defined.

Lemma other_files_untouched_witness :
  files (ending (BackgroundLoop [Sample.listing (90 * time.Minute) false]
                   (Sample.attic 0))) !! "mesta.csv"
  = files (Sample.attic 0) !! "mesta.csv".
Proof.
  apply (other_files_untouched [Sample.listing (90 * time.Minute) false]
           (Sample.attic 0) "mesta.csv").
  reflexivity.
Defined.

Lemma first_cycle_publishes :
  handler (ending (cycle Sample.first Sample.start)) ≠ handler Sample.start.
Proof. intros H. vm_compute in H. discriminate H. Qed.

Lemma publication_needs_a_picture_witness :
  files (sweep Sample.first Sample.start)
    !! artifact (dateTxt (now Sample.first)) = None ∧
  getErr Sample.first = false ∧
  ∃ resp bitmap,
    getResp Sample.first = Some resp ∧ StatusCode resp = 200 ∧
    decode Sample.first (Body resp) = Some bitmap.
Proof.
  apply (publication_needs_a_picture Sample.first Sample.start).
  apply first_cycle_publishes.
Defined.

(** ** Windows over markers and over the edge *)

(** X19.  A city next to an earlier one is judged on the marker, not on
    the radar.  After the marker of a city at [(x, y)] is drawn with an
    opaque colour, a city whose pixel lies at most one column to the
    left and one row above, with its window inside the picture, averages
    to the marker colour whatever the picture showed. *)
Theorem marker_overrides_sample (p q : image.NRGBA) (x y x' y' : Z)
    (c : color.NRGBA) :
  image.cloned p → byteColour c → color.A c = 255 →
  - 2 ^ 62 ≤ x ≤ 2 ^ 62 → - 2 ^ 62 ≤ y ≤ 2 ^ 62 →
  draw.Draw p (marker x y) c = Some q →
  x - 1 ≤ x' ≤ x → y - 1 ≤ y' ≤ y →
  (∀ xx yy, xx ∈ window → yy ∈ window →
     image.PointIn (x' + xx) (y' + yy) (image.Bounds p) = true) →
  getAvgColor q x' y' = Some (color.R c, color.G c, color.B c).
Proof.
  intros Hp Hc Ha Hx Hy Hd Hx' Hy' Hin.
  assert (∀ px py,
            image.NRGBAAt q px py
            = if (x - 5 <=? px) && (px <? x + 5) && (y - 5 <=? py) && (py <? y + 5)
                 && image.PointIn px py (image.Bounds p)
              then Some c else image.NRGBAAt p px py) as Hq.
  { intros px py.
    destruct (Draw_get p (marker x y) c px py Hp) as (q' & Eq' & _ & G).
    rewrite Hd in Eq'. injection Eq' as <-.
    by rewrite G, clip_marker. }
  rewrite (getAvgColor_uniform q x' y' c Hc).
  - destruct Hc as (Hr & Hg & Hb & _). rewrite Ha.
    by rewrite !Z.div_mul by lia.
  - intros xx yy Hxx Hyy.
    pose proof (window_cases xx Hxx). pose proof (window_cases yy Hyy).
    unfold add64. rewrite !wrap64_small by lia.
    rewrite Hq, (Hin xx yy Hxx Hyy), andb_true_r.
    destruct (Z.leb_spec (x - 5) (x' + xx)); [|lia].
    destruct (Z.ltb_spec (x' + xx) (x + 5)); [|lia].
    destruct (Z.leb_spec (y - 5) (y' + yy)); [|lia].
    destruct (Z.ltb_spec (y' + yy) (y + 5)); [|lia]. done.
Qed.

Lemma Zsum_inside (inb : Z * Z → bool) (f : color.NRGBA → Z) (c : color.NRGBA)
    (l : list (Z * Z)) (cs : list color.NRGBA) :
  f color.zero = 0 →
  Forall2 (λ o c', c' = if inb o then c else color.zero) l cs →
  Zsum (f <$> cs) = Z.of_nat (length (List.filter inb l)) * f c.
Proof.
  intros Hz. induction 1 as [|o c' l cs -> _ IH]; [done|].
  cbn [fmap list_fmap Zsum foldr List.filter]. fold (Zsum (f <$> cs)).
  rewrite IH. destruct (inb o); cbn [length]; lia.
Qed.

(** X20.  Pixels outside the picture count as black in the mean.  When
    every pixel of the window that lies in the picture is of one opaque
    colour, each channel returned is that channel times the number of
    window pixels in the picture, divided by 81: a city near the edge is
    dimmed. *)
Theorem window_across_the_edge (p : image.NRGBA) (x y : Z) (c : color.NRGBA) :
  byteColour c → color.A c = 255 →
  (∀ xx yy, xx ∈ window → yy ∈ window →
     image.PointIn (add64 x xx) (add64 y yy) (image.Bounds p) = true →
     image.NRGBAAt p (add64 x xx) (add64 y yy) = Some c) →
  getAvgColor p x y
  = Some (Z.of_nat (length (List.filter
                      (λ o, image.PointIn (add64 x o.1) (add64 y o.2)
                              (image.Bounds p)) offsets)) * color.R c / 81,
          Z.of_nat (length (List.filter
                      (λ o, image.PointIn (add64 x o.1) (add64 y o.2)
                              (image.Bounds p)) offsets)) * color.G c / 81,
          Z.of_nat (length (List.filter
                      (λ o, image.PointIn (add64 x o.1) (add64 y o.2)
                              (image.Bounds p)) offsets)) * color.B c / 81).
Proof.
  intros Hc Ha Hin.
  set (inb := λ o : Z * Z,
         image.PointIn (add64 x o.1) (add64 y o.2) (image.Bounds p)).
  assert (∀ o, o ∈ offsets →
            reads p x y o (if inb o then c else color.zero)) as Hr.
  { intros o Ho. apply offsets_window in Ho as [H1 H2]. unfold reads, inb.
    destruct (image.PointIn _ _ _) eqn:E; [by apply Hin|by apply NRGBAAt_outside]. }
  assert (byteColour color.zero) as Hz by (unfold byteColour; cbn; lia).
  destruct (sumWindow_reads p x y) as [t Et]; [intros o Ho; eauto|].
  assert (∀ o c', o ∈ offsets → reads p x y o c' → byteColour c') as Hby.
  { intros o c' Ho Hc'. specialize (Hr o Ho). unfold reads in *.
    rewrite Hr in Hc'. injection Hc' as <-. by destruct (inb o). }
  destruct (sumWindow_exact p x y t Hby Et) as (cs & Hcs & -> & HR & HG & HB).
  assert (Forall2 (λ o c', c' = if inb o then c else color.zero) offsets cs) as Hsh.
  { apply Forall2_same_length_lookup. split; [by eapply Forall2_length|].
    intros i o c' Ho Hc'.
    pose proof (Forall2_lookup_lr _ _ _ _ _ _ Hcs Ho Hc') as Hoc.
    specialize (Hr o (list_elem_of_lookup_2 _ _ _ Ho)).
    unfold reads in *. congruence. }
  assert (∀ s, 0 ≤ s ≤ 255 * 81 → u8 (s / 81) = s / 81) as E.
  { intros s Hs. apply u8_small. split; [apply Z.div_pos; lia|].
    apply Z.div_lt_upper_bound; lia. }
  unfold getAvgColor. rewrite Et. cbn. rewrite !E by done.
  rewrite (Zsum_inside inb chanR c offsets cs eq_refl Hsh),
    (Zsum_inside inb chanG c offsets cs eq_refl Hsh),
    (Zsum_inside inb chanB c offsets cs eq_refl Hsh).
  unfold chanR, chanG, chanB. rewrite contribution_bytes by done. cbn.
  destruct Hc as (Hr' & Hg' & Hb' & _). rewrite Ha.
  by rewrite !Z.div_mul by lia.
Qed.

Lemma byteColour_olive : byteColour Sample.olive.
Proof. unfold byteColour. cbn. lia. Qed.

Lemma raster_inside (c : color.NRGBA) (xx yy : Z) :
  xx ∈ window → yy ∈ window →
  image.PointIn (4 + xx) (4 + yy) (image.Bounds (Sample.raster c)) = true.
Proof.
  intros Hx Hy. apply window_cases in Hx, Hy.
  destruct Hx as [->|[->|[->|[->|[->|[->|[->|[->| ->]]]]]]]];
    destruct Hy as [->|[->|[->|[->|[->|[->|[->|[->| ->]]]]]]]];
    reflexivity.
Qed.

Lemma marker_overrides_sample_witness :
  ∃ q,
    draw.Draw (Sample.raster Sample.blue) (marker 4 4) Sample.olive = Some q ∧
    getAvgColor q 4 4 = Some (128, 128, 0).
Proof.
  destruct (Draw_total (Sample.raster Sample.blue) (marker 4 4) Sample.olive
              (cloned_raster Sample.blue)) as (q & Hd & _).
  exists q. split; [exact Hd|].
  apply (marker_overrides_sample (Sample.raster Sample.blue) q 4 4 4 4
           Sample.olive (cloned_raster Sample.blue) byteColour_olive eq_refl);
    [lia|lia|exact Hd|lia|lia|].
  intros xx yy. apply raster_inside.
Defined.

Lemma raster_corner (xx yy : Z) :
  xx ∈ window → yy ∈ window →
  image.PointIn (add64 0 xx) (add64 0 yy)
    (image.Bounds (Sample.raster Sample.blue)) = true →
  image.NRGBAAt (Sample.raster Sample.blue) (add64 0 xx) (add64 0 yy)
  = Some Sample.blue.
Proof.
  intros Hx Hy. apply window_cases in Hx, Hy.
  destruct Hx as [->|[->|[->|[->|[->|[->|[->|[->| ->]]]]]]]];
    destruct Hy as [->|[->|[->|[->|[->|[->|[->|[->| ->]]]]]]]];
    intros Hin; first [reflexivity | vm_compute in Hin; discriminate Hin].
Qed.

Lemma window_across_the_edge_witness :
  getAvgColor (Sample.raster Sample.blue) 0 0 = Some (0, 33, 59).
Proof.
  rewrite (window_across_the_edge (Sample.raster Sample.blue) 0 0 Sample.blue
             byteColour_blue eq_refl raster_corner).
  vm_compute. reflexivity.
Defined.
